(** * Image synchronisation pipeline (scripts/sync-images-to-r2.js)

    A shallow embedding of the image mirroring script: the helpers
    [normaliseMime], [resizeBuffer], [headR2], [putR2], [sortObjectDeep], the
    per-entry procedure [processOffer], and the configuration and the final
    phase of [main].

    Conventions of the embedding.
    - A JavaScript string is a [string]; each character stands for one UTF-16
      code unit in the range 0..255, so that the default ordering used by
      [Array.prototype.sort] is [String.leb].
    - A number read from the process environment is a rational number or NaN
      ([option Q], [None] being NaN): [Number] keeps fractions, and every
      finite double is a rational.  The infinities are not represented.
      Counters are natural numbers.
    - The network, the image encoder, the hash function, the object store and
      the collation of identifiers are not part of the script; they are the
      fields of [Env].  A call made at time [t] (the number of external
      actions performed so far) may answer differently from the same call
      made at another time.
    - [processOffer] mutates [nextManifest] and [stats], which it shares with
      the other workers, and performs external actions; the embedding threads
      a [State] holding both and the trace of actions.  For each URL the
      procedure reads the shared manifest once, before its first [await], and
      each of its updates is a single statement; the properties of the
      processing of one URL are stated from an arbitrary state. *)

From Stdlib Require Import List String Ascii ZArith Lia Bool Arith Permutation Sorted.
From Stdlib Require Import DecimalString.
From Stdlib Require Import QArith Qround Qminmax.
Import ListNotations.

Close Scope Q_scope.

Set Warnings "-register-all".

Local Open Scope string_scope.
Local Open Scope list_scope.
Local Open Scope Z_scope.

(** ** JavaScript primitives used by the script *)

Module JS.

(** [!s] is false exactly for a non-empty string. *)
Definition nonempty (s : string) : bool :=
  match s with EmptyString => false | String _ _ => true end.

(** Truthiness of a property that is either [undefined] or a string. *)
Definition truthy (o : option string) : bool :=
  match o with Some s => nonempty s | None => false end.

(** [x || undefined] for a header value. *)
Definition or_undefined (o : option string) : option string :=
  if truthy o then o else None.

(** White space and line terminators among the code units 0..255. *)
Definition is_white_space (c : ascii) : bool :=
  let n := nat_of_ascii c in
  (Nat.leb 9 n && Nat.leb n 13) || Nat.eqb n 32 || Nat.eqb n 160.

Fixpoint trim_start (s : string) : string :=
  match s with
  | EmptyString => EmptyString
  | String c s' => if is_white_space c then trim_start s' else s
  end.

Definition reverse (s : string) : string :=
  string_of_list_ascii (rev (list_ascii_of_string s)).

Definition trim_end (s : string) : string := reverse (trim_start (reverse s)).

(** [String.prototype.trim]. *)
Definition trim (s : string) : string := trim_end (trim_start s).

Definition lower_char (c : ascii) : ascii :=
  let n := nat_of_ascii c in
  if (Nat.leb 65 n && Nat.leb n 90)
     || (Nat.leb 192 n && Nat.leb n 222 && negb (Nat.eqb n 215))
  then ascii_of_nat (n + 32) else c.

(** [String.prototype.toLowerCase]. *)
Fixpoint toLowerCase (s : string) : string :=
  match s with
  | EmptyString => EmptyString
  | String c s' => String (lower_char c) (toLowerCase s')
  end.

(** [s.split(';')[0]]: the part of [s] before its first semicolon. *)
Fixpoint before_semicolon (s : string) : string :=
  match s with
  | EmptyString => EmptyString
  | String c s' => if Ascii.eqb c ";" then EmptyString else String c (before_semicolon s')
  end.

(** [String.prototype.startsWith]. *)
Definition startsWith (s p : string) : bool := String.prefix p s.

(** [s.replace(/\/+$/, '')]. *)
Fixpoint strip_leading_slashes (s : string) : string :=
  match s with
  | String "/" s' => strip_leading_slashes s'
  | _ => s
  end.

Definition strip_trailing_slashes (s : string) : string :=
  reverse (strip_leading_slashes (reverse s)).

(** [new Set(l)] keeps the first occurrence of every element, in insertion
    order; [Array.from] lists the set in that order. *)
Definition set_has (s : list string) (x : string) : bool := existsb (String.eqb x) s.

Definition set_add (s : list string) (x : string) : list string :=
  if set_has s x then s else s ++ [x].

Definition new_Set (l : list string) : list string := fold_left set_add l [].

Definition Array_from_Set (l : list string) : list string := new_Set l.

(** [Array.prototype.sort]: a stable sort; [le x y] says that the comparator
    does not put [y] before [x]. *)
Fixpoint insert {A : Type} (le : A -> A -> bool) (x : A) (l : list A) : list A :=
  match l with
  | [] => [x]
  | y :: t => if le x y then x :: l else y :: insert le x t
  end.

Definition sort {A : Type} (le : A -> A -> bool) (l : list A) : list A :=
  fold_right (insert le) [] l.

(** The default comparator on strings: code units, lexicographically. *)
Definition sort_default (l : list string) : list string := sort String.leb l.

(** [Number(x) || d]: [None] is NaN; NaN and 0 are falsy. *)
Definition number_or (x : option Q) (d : Q) : Q :=
  match x with
  | Some q => if Qeq_bool q 0 then d else q
  | None => d
  end.

(** [ToLength(x)] for a number that is not above 2^53 - 1: the integer part
    of a positive number, and 0 for the others. *)
Definition ToLength (x : Q) : nat := Z.to_nat (Qfloor x).

(** The decimal digits of an integer, as in a template literal. *)
Definition number_to_string (z : Z) : string :=
  NilZero.string_of_int (Z.to_int z).

(** A property key that is an array index: enumerated before the other keys,
    in numeric order, whatever the insertion order. *)
Definition is_digit (c : ascii) : bool :=
  let n := nat_of_ascii c in Nat.leb 48 n && Nat.leb n 57.

Fixpoint all_digits (s : string) : bool :=
  match s with
  | EmptyString => true
  | String c s' => is_digit c && all_digits s'
  end.

Fixpoint digits_value (acc : Z) (s : string) : Z :=
  match s with
  | EmptyString => acc
  | String c s' => digits_value (10 * acc + (Z.of_nat (nat_of_ascii c) - 48)) s'
  end.

Definition is_array_index (s : string) : bool :=
  match s with
  | EmptyString => false
  | String "0" EmptyString => true
  | String "0" _ => false
  | _ => all_digits s && Z.ltb (digits_value 0 s) 4294967295
  end.

End JS.

(** ** Data model *)

(** A manifest record; a field is [None] when the property is [undefined] or
    absent. *)
Record ManifestRecord : Type := mkRecord {
  etag : option string;
  lastModified : option string;
  r2Key : option string;
  mime : option string
}.

(** The object [{}]. *)
Definition empty_record : ManifestRecord := mkRecord None None None None.

(** A manifest: an object keyed by source URL, in insertion order. *)
Definition Manifest : Type := list (string * ManifestRecord).

(** [m[url]] *)
Fixpoint manifest_get (m : Manifest) (url : string) : option ManifestRecord :=
  match m with
  | [] => None
  | (k, r) :: m' => if String.eqb k url then Some r else manifest_get m' url
  end.

(** [m[url] = r] *)
Fixpoint manifest_set (m : Manifest) (url : string) (r : ManifestRecord) : Manifest :=
  match m with
  | [] => [(url, r)]
  | (k, r') :: m' =>
      if String.eqb k url then (k, r) :: m' else (k, r') :: manifest_set m' url r
  end.

Record Stats : Type := mkStats {
  uploaded : nat;
  reused304 : nat;
  reusedExisting : nat;
  skipped : nat
}.

Record Entry : Type := mkEntry {
  offerId : string;
  urls : list string
}.

(** ** The environment *)

Record RequestHeaders : Type := mkHeaders {
  If_None_Match : option string;
  If_Modified_Since : option string
}.

Definition no_headers : RequestHeaders := mkHeaders None None.

Inductive BodyResult : Type :=
| BodyOk (bytes : list Byte.byte)
| BodyError (message : string).

Record Response : Type := mkResponse {
  status : Z;
  header_etag : option string;
  header_last_modified : option string;
  header_content_type : option string;
  arrayBuffer : BodyResult
}.

Inductive FetchResult : Type :=
| FetchRejected (message : string)
| FetchResponse (r : Response).

(** The encoders of the image library the script selects. *)
Inductive Encoder : Type := Png | Webp | Gif | Jpeg90.

Inductive SharpResult : Type :=
| SharpOk (buffer : list Byte.byte)
| SharpError (message : string).

Inductive SendResult : Type :=
| SendOk
| SendError (httpStatusCode : option Z) (name message : string).

Record Env : Type := mkEnv {
  (** [fetch(url, { headers, redirect: 'follow' })] *)
  fetch : nat -> string -> RequestHeaders -> FetchResult;
  (** [sharp(input, { animated }).resize(...).<encoder>().toBuffer()] *)
  sharp_toBuffer : nat -> bool -> Encoder -> list Byte.byte -> SharpResult;
  (** [crypto.createHash('sha1').update(b).digest('hex')] *)
  sha1_hex : list Byte.byte -> string;
  (** [s3.send(new HeadObjectCommand({ Bucket, Key }))] *)
  s3_head : nat -> string -> SendResult;
  (** [s3.send(new PutObjectCommand({ Bucket, Key, Body, ContentType, ... }))] *)
  s3_put : nat -> string -> list Byte.byte -> string -> SendResult;
  (** [a.localeCompare(b)] *)
  localeCompare : string -> string -> Z
}.

(** External actions, in the order the script performs them. *)
Inductive Event : Type :=
| EvFetch (url : string) (headers : RequestHeaders)
| EvSleep (ms : Z)
| EvSharp (animated : bool) (encoder : Encoder) (input : list Byte.byte)
| EvHead (key : string)
| EvPut (key : string) (body : list Byte.byte) (contentType : string)
| EvWarn (message : string).

(** The state shared by the workers, and the actions so far (latest first). *)
Record State : Type := mkState {
  nextManifest : Manifest;
  stats : Stats;
  trace : list Event
}.

Definition now (st : State) : nat := List.length (trace st).

Definition emit (e : Event) (st : State) : State :=
  mkState (nextManifest st) (stats st) (e :: trace st).

Definition set_manifest (url : string) (r : ManifestRecord) (st : State) : State :=
  mkState (manifest_set (nextManifest st) url r) (stats st) (trace st).

Definition incr_uploaded (st : State) : State :=
  let s := stats st in
  mkState (nextManifest st)
    (mkStats (S (uploaded s)) (reused304 s) (reusedExisting s) (skipped s)) (trace st).

Definition incr_reused304 (st : State) : State :=
  let s := stats st in
  mkState (nextManifest st)
    (mkStats (uploaded s) (S (reused304 s)) (reusedExisting s) (skipped s)) (trace st).

Definition incr_reusedExisting (st : State) : State :=
  let s := stats st in
  mkState (nextManifest st)
    (mkStats (uploaded s) (reused304 s) (S (reusedExisting s)) (skipped s)) (trace st).

Definition incr_skipped (st : State) : State :=
  let s := stats st in
  mkState (nextManifest st)
    (mkStats (uploaded s) (reused304 s) (reusedExisting s) (S (skipped s))) (trace st).

(** ** Computations that may throw *)

Inductive Result (A : Type) : Type :=
| Ok (a : A)
| Throw (message : string).

Arguments Ok {A} a.
Arguments Throw {A} message.

Definition Try (A : Type) : Type := State -> State * Result A.

Definition ret {A : Type} (a : A) : Try A := fun st => (st, Ok a).

Definition throw {A : Type} (message : string) : Try A := fun st => (st, Throw message).

Definition bind {A B : Type} (m : Try A) (k : A -> Try B) : Try B :=
  fun st =>
    match m st with
    | (st', Ok a) => k a st'
    | (st', Throw message) => (st', Throw message)
    end.

(** [try { m } catch (err) { throw new Error(prefix + err.message) }] *)
Definition rethrow {A : Type} (prefix : string) (m : Try A) : Try A :=
  fun st =>
    match m st with
    | (st', Ok a) => (st', Ok a)
    | (st', Throw message) => (st', Throw (prefix ++ message))
    end.

(** A statement that updates the shared state and cannot throw. *)
Definition modify (f : State -> State) : Try unit := fun st => (f st, Ok tt).

Notation "x <- m ;; k" := (bind m (fun x => k))
  (at level 61, m at next level, right associativity).
Notation "m ;;; k" := (bind m (fun _ => k))
  (at level 61, right associativity).

(** ** Configuration *)

Record Config : Type := mkConfig {
  R2_CONCURRENCY : option Q;      (* Number(process.env.R2_CONCURRENCY) *)
  R2_FETCH_ATTEMPTS : option Q;   (* Number(process.env.R2_FETCH_ATTEMPTS) *)
  R2_PUBLIC_BASE : string
}.

Definition CONCURRENCY (cfg : Config) : Q :=
  Qmax 1 (JS.number_or (R2_CONCURRENCY cfg) 4).

Definition MAX_FETCH_ATTEMPTS (cfg : Config) : Q :=
  Qmax 1 (JS.number_or (R2_FETCH_ATTEMPTS cfg) 3).

(** [Math.min(CONCURRENCY, imagesList.length)] *)
Definition workerCount (cfg : Config) (imagesList : list Entry) : Q :=
  Qmin (CONCURRENCY cfg) (inject_Z (Z.of_nat (List.length imagesList))).

(** The number of workers that [Array.from({ length: workerCount }, ...)]
    starts (line 261). *)
Definition workers_started (cfg : Config) (imagesList : list Entry) : nat :=
  JS.ToLength (workerCount cfg imagesList).

Definition publicBase (cfg : Config) : string :=
  JS.strip_trailing_slashes (R2_PUBLIC_BASE cfg).

(** ** Media types *)

Definition MIME_TO_EXT : list (string * string) :=
  [ ("image/jpeg", "jpg");
    ("image/jpg", "jpg");
    ("image/png", "png");
    ("image/webp", "webp");
    ("image/gif", "gif") ].

Definition SUPPORTED_MIME : list string := map fst MIME_TO_EXT.

Definition SUPPORTED_MIME_has (m : string) : bool :=
  existsb (String.eqb m) SUPPORTED_MIME.

Fixpoint assoc_get (l : list (string * string)) (k : string) : option string :=
  match l with
  | [] => None
  | (k', v) :: l' => if String.eqb k' k then Some v else assoc_get l' k
  end.

Definition normaliseMime (mime : option string) : string :=
  match mime with
  | None => "image/jpeg"
  | Some m =>
      if negb (JS.nonempty m) then "image/jpeg"
      else
        let clean := JS.toLowerCase (JS.trim (JS.before_semicolon m)) in
        if SUPPORTED_MIME_has clean then clean
        else if JS.startsWith clean "image/" then clean else "image/jpeg"
  end.

(** The encoder [resizeBuffer] ends up with for a media type, and the type
    and extension it reports (see [resizeBuffer_unfold]). *)
Definition encoder_for (mime : string) : Encoder * string * string :=
  if String.eqb mime "image/png" then (Png, "image/png", "png")
  else if String.eqb mime "image/webp" then (Webp, "image/webp", "webp")
  else if String.eqb mime "image/gif" then (Gif, "image/gif", "gif")
  else (Jpeg90, "image/jpeg", "jpg").

Record Processed : Type := mkProcessed {
  p_buffer : list Byte.byte;
  p_mime : string;
  p_ext : string
}.

Section Program.

Variable E : Env.
Variable cfg : Config.

(** One run of the encoder: an external action that may throw. *)
Definition toBuffer (animated : bool) (enc : Encoder) (input : list Byte.byte)
  : Try (list Byte.byte) :=
  fun st =>
    match sharp_toBuffer E (now st) animated enc input with
    | SharpOk b => (emit (EvSharp animated enc input) st, Ok b)
    | SharpError message => (emit (EvSharp animated enc input) st, Throw message)
    end.

Definition resizeBuffer (inputBuffer : list Byte.byte) (mime : string) : Try Processed :=
  let targetMime := if SUPPORTED_MIME_has mime then mime else "image/jpeg" in
  let ext :=
    match assoc_get MIME_TO_EXT targetMime with
    | Some e => if JS.nonempty e then e else "jpg"
    | None => "jpg"
    end in
  let animated := String.eqb targetMime "image/gif" in
  if String.eqb ext "png" then
    b <- toBuffer animated Png inputBuffer ;; ret (mkProcessed b "image/png" "png")
  else if String.eqb ext "webp" then
    b <- toBuffer animated Webp inputBuffer ;; ret (mkProcessed b "image/webp" "webp")
  else if String.eqb ext "gif" then
    b <- toBuffer animated Gif inputBuffer ;; ret (mkProcessed b "image/gif" "gif")
  else
    b <- toBuffer animated Jpeg90 inputBuffer ;; ret (mkProcessed b "image/jpeg" "jpg").

Definition headR2 (key : string) : Try bool :=
  fun st =>
    match s3_head E (now st) key with
    | SendOk => (emit (EvHead key) st, Ok true)
    | SendError code name message =>
        if match code with Some c => Z.eqb c 404 | None => false end
           || String.eqb name "NotFound"
        then (emit (EvHead key) st, Ok false)
        else (emit (EvHead key) st, Throw message)
    end.

Definition putR2 (key : string) (body : list Byte.byte) (contentType : string) : Try unit :=
  fun st =>
    match s3_put E (now st) key body contentType with
    | SendOk => (emit (EvPut key body contentType) st, Ok tt)
    | SendError _ _ message => (emit (EvPut key body contentType) st, Throw message)
    end.

(** [await fetch(srcUrl, { headers, redirect: 'follow' })] *)
Definition do_fetch (srcUrl : string) (headers : RequestHeaders) : Try Response :=
  fun st =>
    match fetch E (now st) srcUrl headers with
    | FetchResponse r => (emit (EvFetch srcUrl headers) st, Ok r)
    | FetchRejected message => (emit (EvFetch srcUrl headers) st, Throw message)
    end.

(** [await response.arrayBuffer()] *)
Definition read_body (r : Response) : Try (list Byte.byte) :=
  match arrayBuffer r with
  | BodyOk b => ret b
  | BodyError message => throw message
  end.

(** [await sleep(ms)] *)
Definition sleep (ms : Z) : State -> State := emit (EvSleep ms).

(** [response.ok] *)
Definition response_ok (r : Response) : bool :=
  Z.leb 200 (status r) && Z.leb (status r) 299.

(** The key under which the encoded bytes are stored. *)
Definition stored_key (processed : Processed) : string :=
  "img/" ++ sha1_hex E (p_buffer processed) ++ "." ++ p_ext processed.

(** [`${publicBase}/${key}`] *)
Definition public_url (key : string) : string := publicBase cfg ++ "/" ++ key.

(** [r.r2Key] when it is truthy. *)
Definition truthy_key (k : option string) : option string :=
  match k with
  | Some key => if JS.nonempty key then Some key else None
  | None => None
  end.

(** How the body of the [try] block leaves the loop iteration when it does not
    throw: [break] after appending a resolved URL, or [continue]. *)
Inductive Control : Type :=
| CtlBreak (resolvedUrls : list string)
| CtlContinue.

Definition request_headers (prevMeta : ManifestRecord) (conditional : bool) : RequestHeaders :=
  if conditional then
    mkHeaders (if JS.truthy (etag prevMeta) then etag prevMeta else None)
              (if JS.truthy (lastModified prevMeta) then lastModified prevMeta else None)
  else no_headers.

(** Lines 166-201: the path of a fresh response. *)
Definition fresh_path (srcUrl : string) (resolvedUrls : list string) (response : Response)
  : Try Control :=
  let etag' := JS.or_undefined (header_etag response) in
  let lastModified' := JS.or_undefined (header_last_modified response) in
  let contentType := normaliseMime (header_content_type response) in
  sourceBuffer <- read_body response ;;
  processed <- resizeBuffer sourceBuffer contentType ;;
  let key := stored_key processed in
  exists_ <- rethrow "HEAD failed: " (headR2 key) ;;
  (if negb exists_ then
     rethrow "Upload failed: "
       (putR2 key (p_buffer processed) (p_mime processed) ;;; modify incr_uploaded)
   else modify incr_reusedExisting) ;;;
  modify (set_manifest srcUrl (mkRecord etag' lastModified' (Some key) (Some (p_mime processed)))) ;;;
  ret (CtlBreak (resolvedUrls ++ [public_url key])).

(** Lines 143-201: the body of the [try] block. *)
Definition try_block (srcUrl : string) (prevMeta : ManifestRecord) (conditional : bool)
    (resolvedUrls : list string) : Try Control :=
  let headers := request_headers prevMeta conditional in
  response <- do_fetch srcUrl headers ;;
  if Z.eqb (status response) 304 then
    match truthy_key (r2Key prevMeta) with
    | Some key =>
        modify incr_reused304 ;;;
        modify (set_manifest srcUrl prevMeta) ;;;
        ret (CtlBreak (resolvedUrls ++ [public_url key]))
    | None => ret CtlContinue
    end
  else if negb (response_ok response) then
    throw ("HTTP " ++ JS.number_to_string (status response))
  else fresh_path srcUrl resolvedUrls response.

(** The test [attempt < MAX_FETCH_ATTEMPTS] of the loop (line 139), on the
    counter before [attempt += 1]. *)
Definition may_attempt (attempt : nat) : bool :=
  negb (Qle_bool (MAX_FETCH_ATTEMPTS cfg) (inject_Z (Z.of_nat attempt))).

(** The test [attempt >= MAX_FETCH_ATTEMPTS] of the [catch] block (line 204). *)
Definition budget_spent (attempt : nat) : bool :=
  Qle_bool (MAX_FETCH_ATTEMPTS cfg) (inject_Z (Z.of_nat attempt)).

(** The budget as a count of loop iterations: the counter is an integer, so
    both tests compare it with the budget rounded up. *)
Definition max_attempts : nat := Z.to_nat (Qceiling (MAX_FETCH_ATTEMPTS cfg)).

(** The delay before the attempt that follows failed attempt [attempt]. *)
Definition backoff (attempt : nat) : Z := 200 * 2 ^ (Z.of_nat attempt - 1).

(** What one iteration of the [while] loop leaves behind. *)
Inductive Iteration : Type :=
| Leave (st : State) (resolvedUrls : list string) (lastError : option string)
| Again (st : State) (conditional : bool) (lastError : option string).

(** One iteration, [attempt] being the counter after [attempt += 1]. *)
Definition iteration (srcUrl : string) (prevMeta : ManifestRecord) (attempt : nat)
    (conditional : bool) (resolvedUrls : list string) (st : State) : Iteration :=
  match try_block srcUrl prevMeta conditional resolvedUrls st with
  | (st', Ok (CtlBreak resolvedUrls')) => Leave st' resolvedUrls' None
  | (st', Ok CtlContinue) => Again st' false None
  | (st', Throw message) =>
      if Nat.leb max_attempts attempt then Leave st' resolvedUrls (Some message)
      else Again (sleep (backoff attempt) st') false (Some message)
  end.

(** [while (attempt < MAX_FETCH_ATTEMPTS) { ... }], by recursion on the number
    [remaining] of iterations the budget still allows: the counter is
    [max_attempts - remaining], and the loop test holds iff [remaining] is not
    zero. *)
Fixpoint attempt_loop (srcUrl : string) (prevMeta : ManifestRecord) (remaining : nat)
    (conditional : bool) (lastError : option string) (resolvedUrls : list string)
    (st : State) : State * list string * option string :=
  match remaining with
  | O => (st, resolvedUrls, lastError)
  | S remaining' =>
      match iteration srcUrl prevMeta (max_attempts - remaining') conditional resolvedUrls st with
      | Leave st' resolvedUrls' lastError' => (st', resolvedUrls', lastError')
      | Again st' conditional' lastError' =>
          attempt_loop srcUrl prevMeta remaining' conditional' lastError' resolvedUrls st'
      end
  end.

(** [nextManifest[srcUrl] || previousManifest[srcUrl] || {}] *)
Definition prevMeta_of (previousManifest : Manifest) (st : State) (srcUrl : string)
  : ManifestRecord :=
  match manifest_get (nextManifest st) srcUrl with
  | Some r => r
  | None =>
      match manifest_get previousManifest srcUrl with
      | Some r => r
      | None => empty_record
      end
  end.

(** The variables of the loop at its test: the iterations left, [conditional],
    [lastError], and the shared state. *)
Record Loop : Type := mkLoop {
  remaining : nat;
  loop_conditional : bool;
  loop_lastError : option string;
  loop_state : State
}.

(** [reaches srcUrl prevMeta resolvedUrls a b]: the loop started with the
    variables [a] comes back to its test with the variables [b]. *)
Inductive reaches (srcUrl : string) (prevMeta : ManifestRecord) (resolvedUrls : list string)
  : Loop -> Loop -> Prop :=
| reaches_here (a : Loop) : reaches srcUrl prevMeta resolvedUrls a a
| reaches_next (r : nat) (c c' : bool) (e e' : option string) (st st' : State) (b : Loop) :
    iteration srcUrl prevMeta (max_attempts - r) c resolvedUrls st = Again st' c' e' ->
    reaches srcUrl prevMeta resolvedUrls (mkLoop r c' e' st') b ->
    reaches srcUrl prevMeta resolvedUrls (mkLoop (S r) c e st) b.

(** The rest of the loop, from its test with the variables [a]. *)
Definition run (srcUrl : string) (prevMeta : ManifestRecord) (resolvedUrls : list string)
    (a : Loop) : State * list string * option string :=
  attempt_loop srcUrl prevMeta (remaining a) (loop_conditional a) (loop_lastError a)
    resolvedUrls (loop_state a).

(** The loop variables with which [fetch_and_store] enters the loop. *)
Definition first_attempt (previousManifest : Manifest) (srcUrl : string) (st : State) : Loop :=
  let prevMeta := prevMeta_of previousManifest st srcUrl in
  mkLoop max_attempts (JS.truthy (etag prevMeta) || JS.truthy (lastModified prevMeta)) None st.

(** Lines 134-213: the URL is not resolved yet in the next manifest. *)
Definition fetch_and_store (previousManifest : Manifest) (srcUrl : string)
    (resolvedUrls : list string) (st : State) : State * list string :=
  let prevMeta := prevMeta_of previousManifest st srcUrl in
  let conditional := JS.truthy (etag prevMeta) || JS.truthy (lastModified prevMeta) in
  match attempt_loop srcUrl prevMeta max_attempts conditional None resolvedUrls st with
  | (st', resolvedUrls', Some message) =>
      (emit (EvWarn ("Skip " ++ srcUrl ++ ": " ++ message)) (incr_skipped st'),
       resolvedUrls')
  | (st', resolvedUrls', None) => (st', resolvedUrls')
  end.

(** [m[srcUrl]?.r2Key], when truthy. *)
Definition manifest_key (m : Manifest) (srcUrl : string) : option string :=
  match manifest_get m srcUrl with
  | Some r => truthy_key (r2Key r)
  | None => None
  end.

Definition resolved_key (st : State) (srcUrl : string) : option string :=
  manifest_key (nextManifest st) srcUrl.

(** The body of [for (const srcUrl of uniqueUrls)]. *)
Definition process_url (previousManifest : Manifest) (acc : State * list string)
    (srcUrl : string) : State * list string :=
  let '(st, resolvedUrls) := acc in
  match resolved_key st srcUrl with
  | Some key => (st, resolvedUrls ++ [public_url key])
  | None => fetch_and_store previousManifest srcUrl resolvedUrls st
  end.

(** [Array.from(new Set(urls.map(u => String(u).trim()).filter(Boolean)))] *)
Definition uniqueUrls (urls : list string) : list string :=
  JS.Array_from_Set (filter JS.nonempty (map JS.trim urls)).

Definition processOffer (previousManifest : Manifest) (entry : Entry) (st : State)
  : State * option Entry :=
  if negb (JS.nonempty (offerId entry)) || Nat.eqb (List.length (urls entry)) 0
  then (st, None)
  else
    let unique := uniqueUrls (urls entry) in
    if Nat.eqb (List.length unique) 0 then (st, None)
    else
      let '(st', resolvedUrls) :=
        fold_left (process_url previousManifest) unique (st, []) in
      if negb (Nat.eqb (List.length resolvedUrls) 0)
      then (st', Some (mkEntry (offerId entry) resolvedUrls))
      else (st', None).

(** One turn of a worker (lines 263-278) on the entry it claimed; a value
    returned by [processOffer] is appended to [offerResults].  Every error
    is caught inside [processOffer], so the [catch] of the worker is not
    entered. *)
Definition worker_turn (previousManifest : Manifest) (offer : Entry)
    (acc : State * list Entry) : State * list Entry :=
  let '(st, offerResults) := acc in
  match processOffer previousManifest offer st with
  | (st', Some result) => (st', offerResults ++ [result])
  | (st', None) => (st', offerResults)
  end.

(** Lines 284-289. *)
Definition offer_le (a b : Entry) : bool :=
  Z.leb (localeCompare E (offerId a) (offerId b)) 0.

Definition sortedOffers (offerResults : list Entry) : list Entry :=
  JS.sort offer_le
    (map (fun o => mkEntry (offerId o) (JS.sort_default (JS.Array_from_Set (urls o))))
         offerResults).

End Program.

(** The encoders write different formats: two runs that give the same bytes
    used the same encoder. *)
Definition formats_disjoint (E : Env) : Prop :=
  forall t1 t2 a1 a2 enc1 enc2 i1 i2 out,
    sharp_toBuffer E t1 a1 enc1 i1 = SharpOk out ->
    sharp_toBuffer E t2 a2 enc2 i2 = SharpOk out ->
    enc1 = enc2.

(** [m[url]?.r2Key] *)
Definition recorded_key (m : Manifest) (url : string) : option string :=
  match manifest_get m url with Some r => r2Key r | None => None end.

(** The events of the store and of the encoder: neither a request to the
    source, nor a pause, nor a warning. *)
Definition pipeline_event (e : Event) : Prop :=
  match e with
  | EvSharp _ _ _ | EvHead _ | EvPut _ _ _ => True
  | _ => False
  end.

(** An event that is not a conditional request. *)
Definition unconditional (e : Event) : Prop :=
  match e with
  | EvFetch _ headers => headers = no_headers
  | _ => True
  end.


(** ** Manifest serialisation *)

(** The values [JSON.parse] and the script build. *)
Inductive value : Type :=
| VUndefined
| VNull
| VBool (b : bool)
| VNumber (z : Z)
| VString (s : string)
| VArray (items : list value)
| VObject (props : list (string * value)).

(** An object is the list of its own properties in the order [Object.keys] and
    [JSON.stringify] enumerate them, which is the order of insertion as long
    as no key is an array index.  Assigning to the key [__proto__] does not
    create a property.  [plain] below singles out the objects whose keys are
    ordinary and distinct; manifests, keyed by URL and by field name, are of
    this kind. *)

(** [o[key]] *)
Fixpoint obj_get (props : list (string * value)) (key : string) : option value :=
  match props with
  | [] => None
  | (k, v) :: props' => if String.eqb k key then Some v else obj_get props' key
  end.

Definition obj_get_or_undefined (props : list (string * value)) (key : string) : value :=
  match obj_get props key with Some v => v | None => VUndefined end.

(** [o[key] = v] *)
Fixpoint obj_set (props : list (string * value)) (key : string) (v : value)
  : list (string * value) :=
  match props with
  | [] => [(key, v)]
  | (k, v') :: props' =>
      if String.eqb k key then (k, v) :: props' else (k, v') :: obj_set props' key v
  end.

(** [Object.keys(o)] *)
Definition Object_keys (props : list (string * value)) : list string := map fst props.

(** [sortObjectDeep]; the recursive call on [value[key]] is made on every
    property before the keys are folded, which gives the same object. *)
Fixpoint sortObjectDeep (v : value) : value :=
  match v with
  | VArray items => VArray (map sortObjectDeep items)
  | VObject props =>
      let sorted_values := map (fun kv => (fst kv, sortObjectDeep (snd kv))) props in
      VObject
        (fold_left
           (fun acc key => obj_set acc key (obj_get_or_undefined sorted_values key))
           (JS.sort_default (Object_keys props))
           [])
  | _ => v
  end.

(** Induction on values, with the hypothesis for every item of an array and
    every property of an object. *)
Section ValueInduction.

Variable P : value -> Prop.
Hypothesis P_undefined : P VUndefined.
Hypothesis P_null : P VNull.
Hypothesis P_bool : forall b, P (VBool b).
Hypothesis P_number : forall z, P (VNumber z).
Hypothesis P_string : forall s, P (VString s).
Hypothesis P_array : forall items, Forall P items -> P (VArray items).
Hypothesis P_object : forall props, Forall (fun kv => P (snd kv)) props -> P (VObject props).

Fixpoint value_induction (v : value) : P v :=
  match v with
  | VUndefined => P_undefined
  | VNull => P_null
  | VBool b => P_bool b
  | VNumber z => P_number z
  | VString s => P_string s
  | VArray items =>
      P_array items
        ((fix all (l : list value) : Forall P l :=
            match l with
            | [] => Forall_nil P
            | x :: t => Forall_cons x (value_induction x) (all t)
            end) items)
  | VObject props =>
      P_object props
        ((fix all (l : list (string * value)) : Forall (fun kv => P (snd kv)) l :=
            match l with
            | [] => Forall_nil _
            | kv :: t => Forall_cons kv (value_induction (snd kv)) (all t)
            end) props)
  end.

End ValueInduction.

Definition plain_key (k : string) : bool :=
  negb (JS.is_array_index k) && negb (String.eqb k "__proto__").

Fixpoint distinct (l : list string) : bool :=
  match l with
  | [] => true
  | x :: t => negb (existsb (String.eqb x) t) && distinct t
  end.

(** Every object inside [v] has ordinary, distinct keys. *)
Fixpoint plain (v : value) : bool :=
  match v with
  | VArray items => forallb plain items
  | VObject props =>
      distinct (map fst props) && forallb plain_key (map fst props)
      && forallb (fun kv => plain (snd kv)) props
  | _ => true
  end.

Fixpoint ascending (l : list string) : bool :=
  match l with
  | [] => true
  | x :: t =>
      match t with
      | [] => true
      | y :: _ => String.ltb x y && ascending t
      end
  end.

(** Every object inside [v] lists its keys in strictly ascending order. *)
Fixpoint keys_sorted (v : value) : bool :=
  match v with
  | VArray items => forallb keys_sorted items
  | VObject props =>
      ascending (map fst props) && forallb (fun kv => keys_sorted (snd kv)) props
  | _ => true
  end.

(** Two values with the same content: the same arrays, and objects with the
    same properties whatever their order. *)
Inductive same_content : value -> value -> Prop :=
| same_refl (v : value) : same_content v v
| same_array (xs ys : list value) :
    Forall2 same_content xs ys -> same_content (VArray xs) (VArray ys)
| same_object (ps ps' qs : list (string * value)) :
    Permutation ps ps' ->
    Forall2 (fun p q => fst p = fst q /\ same_content (snd p) (snd q)) ps' qs ->
    same_content (VObject ps) (VObject qs).

(** A manifest as the script builds it: a record written after a fresh fetch
    has its four properties in the order of the object literal. *)
Definition opt_value (o : option string) : value :=
  match o with Some s => VString s | None => VUndefined end.

Definition record_value (r : ManifestRecord) : value :=
  VObject [ ("etag", opt_value (etag r));
            ("lastModified", opt_value (lastModified r));
            ("r2Key", opt_value (r2Key r));
            ("mime", opt_value (mime r)) ].

Definition manifest_value (m : Manifest) : value :=
  VObject (map (fun kr => (fst kr, record_value (snd kr))) m).

Definition offers_value (offers : list Entry) : value :=
  VArray (map (fun o => VObject [ ("offerId", VString (offerId o));
                                   ("urls", VArray (map VString (urls o))) ]) offers).

(** ** The end of [main] *)

Inductive Output : Type :=
| FileWrite (path content : string)
| PutManifestToR2 (manifestString : string).

Definition LOCAL_R2_MANIFEST_PATH : string := "public/manifest-r2.json".
Definition LOCAL_IMAGE_MANIFEST_PATH : string := "public/images-manifest.json".

Section Finish.

Variable E : Env.
(** [JSON.stringify(v, null, 2)] *)
Variable JSON_stringify : value -> string.

Definition manifestString (nextManifest : value) : string :=
  JSON_stringify (sortObjectDeep nextManifest).

Definition manifestChanged (previousManifest nextManifest : value) : bool :=
  negb (String.eqb (manifestString nextManifest) (manifestString previousManifest)).

(** Lines 284-306, for the results and the manifests the pool leaves. *)
Definition main_finish (offerResults : list Entry) (previousManifest nextManifest : value)
  : list Output :=
  [ FileWrite LOCAL_R2_MANIFEST_PATH (JSON_stringify (offers_value (sortedOffers E offerResults)));
    FileWrite LOCAL_IMAGE_MANIFEST_PATH (manifestString nextManifest) ]
  ++ (if manifestChanged previousManifest nextManifest
      then [PutManifestToR2 (manifestString nextManifest)]
      else []).

End Finish.

(** ** Sample environments and inputs *)

Module Demo.

Definition x01 : Byte.byte := Byte.x01.

Definition ok_response (contentType : string) : Response :=
  mkResponse 200 (Some "v2") None (Some contentType) (BodyOk [x01]).

Definition not_modified : Response :=
  mkResponse 304 None None None (BodyOk []).

Definition server_error : Response :=
  mkResponse 500 None None None (BodyOk []).

(** An encoder that writes a one-byte signature before the pixels. *)
Definition signature (enc : Encoder) : Byte.byte :=
  match enc with
  | Png => Byte.x89
  | Webp => Byte.x52
  | Gif => Byte.x47
  | Jpeg90 => Byte.xff
  end.

Definition encode (t : nat) (animated : bool) (enc : Encoder) (input : list Byte.byte)
  : SharpResult := SharpOk (signature enc :: input).

Definition broken_encoder (t : nat) (animated : bool) (enc : Encoder)
    (input : list Byte.byte) : SharpResult := SharpError "unsupported image format".

(** A stand-in for the digest: the number of bytes, in decimal. *)
Definition digest (b : list Byte.byte) : string :=
  JS.number_to_string (Z.of_nat (List.length b)).

Definition compare_code_units (a b : string) : Z :=
  match String.compare a b with Lt => -1 | Eq => 0 | Gt => 1 end.

Definition always (r : FetchResult) (t : nat) (url : string) (h : RequestHeaders)
  : FetchResult := r.

Definition head_found (t : nat) (key : string) : SendResult := SendOk.

Definition head_missing (t : nat) (key : string) : SendResult :=
  SendError (Some 404) "NotFound" "not found".

(** The store answers the first existence check with an error. *)
Definition head_fails_once (t : nat) (key : string) : SendResult :=
  if Nat.ltb t 3 then SendError (Some 500) "InternalError" "store unavailable" else SendOk.

Definition put_ok (t : nat) (key : string) (body : list Byte.byte) (contentType : string)
  : SendResult := SendOk.

(** The source serves the image, the store has no copy yet. *)
Definition healthy : Env :=
  mkEnv (always (FetchResponse (ok_response "image/png"))) encode digest
        head_missing put_ok compare_code_units.

(** The source answers every request with 304. *)
Definition stale : Env :=
  mkEnv (always (FetchResponse not_modified)) encode digest
        head_missing put_ok compare_code_units.

(** The source answers every request with 500. *)
Definition failing : Env :=
  mkEnv (always (FetchResponse server_error)) encode digest
        head_missing put_ok compare_code_units.

(** The source serves the image, the store fails on the first check only. *)
Definition flaky_store : Env :=
  mkEnv (always (FetchResponse (ok_response "image/png"))) encode digest
        head_fails_once put_ok compare_code_units.

(** The source serves bytes the encoder rejects. *)
Definition undecodable : Env :=
  mkEnv (always (FetchResponse (ok_response "image/png"))) broken_encoder digest
        head_missing put_ok compare_code_units.

(** A compact printer standing in for [JSON.stringify]. *)
Definition quoted (s : string) : string :=
  let q := String (ascii_of_nat 34) EmptyString in (q ++ s ++ q)%string.

Fixpoint print (v : value) : string :=
  match v with
  | VUndefined => "undefined"
  | VNull => "null"
  | VBool b => if b then "true" else "false"
  | VNumber z => JS.number_to_string z
  | VString s => quoted s
  | VArray items => ("[" ++ String.concat "," (map print items) ++ "]")%string
  | VObject props =>
      ("{" ++ String.concat ","
                (map (fun kv => (quoted (fst kv) ++ ":" ++ print (snd kv))%string) props)
           ++ "}")%string
  end.

Definition defaults : Config := mkConfig None None "https://cdn.example/".

Definition one_attempt : Config := mkConfig None (Some 1%Q) "https://cdn.example/".

Definition zero_concurrency : Config := mkConfig (Some 0%Q) None "https://cdn.example/".

(** R2_CONCURRENCY=0.5 *)
Definition half_concurrency : Config :=
  mkConfig (Some (1 # 2)%Q) None "https://cdn.example/".

(** R2_CONCURRENCY=2.5 and R2_FETCH_ATTEMPTS=2.5 *)
Definition fractional : Config :=
  mkConfig (Some (5 # 2)%Q) (Some (5 # 2)%Q) "https://cdn.example/".

Definition start : State := mkState [] (mkStats 0 0 0 0) [].

Definition src : string := "http://x/1.jpg".

Definition src2 : string := "http://y/copy-of-1.jpg".

(** A previous record with a validator and a stored object. *)
Definition stored : ManifestRecord :=
  mkRecord (Some "v1") None (Some "img/9.png") (Some "image/png").

(** A previous record with a validator but no stored object. *)
Definition orphan : ManifestRecord := mkRecord (Some "v1") None None None.

(** A manifest as a first run leaves it, and the same manifest as it is read
    back from the file the run wrote. *)
Definition written : value :=
  manifest_value
    [("http://x/2.jpg", mkRecord (Some "v7") None (Some "img/3.png") (Some "image/png"));
     ("http://x/1.jpg", mkRecord (Some "v2") None (Some "img/2.png") (Some "image/png"))].

Definition read_back : value :=
  VObject
    [("http://x/1.jpg",
      VObject [("etag", VString "v2"); ("lastModified", VUndefined);
               ("mime", VString "image/png"); ("r2Key", VString "img/2.png")]);
     ("http://x/2.jpg",
      VObject [("etag", VString "v7"); ("lastModified", VUndefined);
               ("mime", VString "image/png"); ("r2Key", VString "img/3.png")])].

Definition five_entries : list Entry :=
  map (fun id => mkEntry id [src]) ["a"; "b"; "c"; "d"; "e"].

End Demo.

(** ** The start of [main] (lines 35-48, 222-244) *)

Module Main.

(** The five required variables of [process.env]. *)
Record ProcessEnv : Type := mkProcessEnv {
  CF_ACCOUNT_ID : option string;
  CF_R2_ACCESS_KEY_ID : option string;
  CF_R2_SECRET_ACCESS_KEY : option string;
  R2_BUCKET : option string;
  R2_PUBLIC_BASE : option string
}.

Definition assertEnv (name : string) (value : option string) : Result string :=
  match value with
  | Some v =>
      if JS.nonempty v then Ok v
      else Throw ("Missing required environment variable: " ++ name)
  | None => Throw ("Missing required environment variable: " ++ name)
  end.

(** The variables in the order [main] checks them. *)
Definition required (env : ProcessEnv) : list (string * option string) :=
  [ ("CF_ACCOUNT_ID", CF_ACCOUNT_ID env);
    ("CF_R2_ACCESS_KEY_ID", CF_R2_ACCESS_KEY_ID env);
    ("CF_R2_SECRET_ACCESS_KEY", CF_R2_SECRET_ACCESS_KEY env);
    ("R2_BUCKET", R2_BUCKET env);
    ("R2_PUBLIC_BASE", R2_PUBLIC_BASE env) ].

(** [fs.promises.readFile(path, 'utf8')]: the data, or an error with its
    [code] (if it has one) and message. *)
Inductive ReadResult : Type :=
| ReadOk (data : string)
| ReadError (code : option string) (message : string).

(** What [main] writes or logs before the workers start. *)
Inductive Action : Type :=
| ConsoleLog (message : string)
| Mkdir (path : string)
| WriteFile (path content : string).

(** The file system and [JSON.parse]; [fs_error n a] is the error, if any,
    with which action [a] fails when it is the [n]-th action attempted.
    Paths are written as the script hands them to [path.resolve], that is
    relative to the working directory of the process, and the file system
    takes them so; [path_resolve p] is the absolute path that [path.resolve]
    makes of [p], which the script shows in a message. *)
Record Disk : Type := mkDisk {
  existsSync : string -> bool;
  readFile : string -> ReadResult;
  JSON_parse : string -> Result value;
  fs_error : nat -> Action -> option string;
  path_resolve : string -> string
}.

Definition readJsonSafe (d : Disk) (filePath : string) (fallback : value) : Result value :=
  match readFile d filePath with
  | ReadOk data => JSON_parse d data
  | ReadError code message =>
      match code with
      | Some c => if String.eqb c "ENOENT" then Ok fallback else Throw message
      | None => Throw message
      end
  end.

(** How the first part of [main] ends: with an error, with the early
    [return] of line 239, or ready to start the workers. *)
Inductive Start : Type :=
| Throws (attempted : list Action) (message : string)
| Returns (attempted : list Action)
| Proceeds (attempted : list Action) (publicBase : string) (imagesList : list value)
    (previousManifest : value).

(** [await a], then the rest of [main]. *)
Definition perform (d : Disk) (a : Action) (attempted : list Action)
    (rest : list Action -> Start) : Start :=
  match fs_error d (List.length attempted) a with
  | Some message => Throws (attempted ++ [a]) message
  | None => rest (attempted ++ [a])
  end.

Definition IMAGES_LIST_PATH : string := "images.json".

(** [path.dirname(LOCAL_R2_MANIFEST_PATH)] *)
Definition manifest_directory : string := "public".

(** Lines 223-244. *)
Definition main_start (env : ProcessEnv) (d : Disk) : Start :=
  match assertEnv "CF_ACCOUNT_ID" (CF_ACCOUNT_ID env) with
  | Throw message => Throws [] message
  | Ok _ =>
  match assertEnv "CF_R2_ACCESS_KEY_ID" (CF_R2_ACCESS_KEY_ID env) with
  | Throw message => Throws [] message
  | Ok _ =>
  match assertEnv "CF_R2_SECRET_ACCESS_KEY" (CF_R2_SECRET_ACCESS_KEY env) with
  | Throw message => Throws [] message
  | Ok _ =>
  match assertEnv "R2_BUCKET" (R2_BUCKET env) with
  | Throw message => Throws [] message
  | Ok _ =>
  match assertEnv "R2_PUBLIC_BASE" (R2_PUBLIC_BASE env) with
  | Throw message => Throws [] message
  | Ok base =>
      let publicBase := JS.strip_trailing_slashes base in
      if negb (existsSync d IMAGES_LIST_PATH)
      then Throws [] ("images list not found: " ++ path_resolve d IMAGES_LIST_PATH)
      else
        match readJsonSafe d IMAGES_LIST_PATH (VArray []) with
        | Throw message => Throws [] message
        | Ok (VArray (first :: others)) =>
            perform d (Mkdir manifest_directory) [] (fun attempted =>
            match readJsonSafe d LOCAL_IMAGE_MANIFEST_PATH (VObject []) with
            | Throw message => Throws attempted message
            | Ok previousManifest =>
                Proceeds attempted publicBase (first :: others) previousManifest
            end)
        | Ok _ =>
            let attempted := [ConsoleLog "No images to process."] in
            perform d (Mkdir manifest_directory) attempted (fun attempted =>
            perform d (WriteFile LOCAL_R2_MANIFEST_PATH "[]") attempted (fun attempted =>
            perform d (WriteFile LOCAL_IMAGE_MANIFEST_PATH "{}") attempted (fun attempted =>
            Returns attempted)))
        end
  end end end end end.

End Main.

Module Samples.

Definition complete : Main.ProcessEnv :=
  Main.mkProcessEnv (Some "account") (Some "key-id") (Some "secret") (Some "bucket")
    (Some "https://cdn.example/").

Definition no_bucket : Main.ProcessEnv :=
  Main.mkProcessEnv (Some "account") None (Some "secret") (Some "") None.

Definition parse (data : string) : Result value :=
  if String.eqb data "[]" then Ok (VArray [])
  else if String.eqb data "[1]" then Ok (VArray [VNumber 1])
  else Throw "Unexpected token".

(** [path.resolve] in the working directory /work. *)
Definition in_work (path : string) : string := "/work/" ++ path.

(** The images list is empty; a manifest of an earlier run is on disk. *)
Definition nothing_to_do : Main.Disk :=
  Main.mkDisk (fun _ => true)
    (fun path => if String.eqb path "images.json" then Main.ReadOk "[]"
                 else Main.ReadOk "{...}")
    parse (fun _ _ => None) in_work.

(** There is no images list. *)
Definition no_list : Main.Disk :=
  Main.mkDisk (fun _ => false)
    (fun path => Main.ReadError (Some "ENOENT") "no such file or directory")
    parse (fun _ _ => None) in_work.

(** The images list has an element; there is no manifest of an earlier run. *)
Definition first_run : Main.Disk :=
  Main.mkDisk (fun _ => true)
    (fun path => if String.eqb path "images.json" then Main.ReadOk "[1]"
                 else Main.ReadError (Some "ENOENT") "no such file or directory")
    parse (fun _ _ => None) in_work.

End Samples.

(** ** Escaping for the catalogue (lines 356-360) *)

Module Convert.

(** The double quote. *)
Definition quote : ascii := ascii_of_nat 34.

(** What [replace] puts in the place of one character. *)
Definition escape (c : ascii) : string :=
  if Ascii.eqb c "<" then "&lt;"
  else if Ascii.eqb c ">" then "&gt;"
  else if Ascii.eqb c "&" then "&amp;"
  else if Ascii.eqb c "'" then "&apos;"
  else if Ascii.eqb c quote then "&quot;"
  else String c EmptyString.

Fixpoint escapeXml (str : string) : string :=
  match str with
  | EmptyString => EmptyString
  | String c rest => (escape c ++ escapeXml rest)%string
  end.

End Convert.

(** ** Measures on traces and manifests *)

Definition is_fetch (e : Event) : bool :=
  match e with EvFetch _ _ => true | _ => false end.

(** The number of requests to the source among some events. *)
Definition requests (events : list Event) : nat := List.length (filter is_fetch events).

(** The total time, in milliseconds, of the pauses among some events. *)
Fixpoint paused (events : list Event) : Z :=
  match events with
  | [] => 0
  | EvSleep ms :: rest => ms + paused rest
  | _ :: rest => paused rest
  end.

(** The pauses the loop can still make when [n] iterations are left: one
    after every attempt but the last. *)
Fixpoint pause_budget (cfg : Config) (n : nat) : Z :=
  match n with
  | O => 0
  | S r =>
      (if Nat.leb (max_attempts cfg) (max_attempts cfg - r) then 0
       else backoff (max_attempts cfg - r))
      + pause_budget cfg r
  end.

(** [n] slashes. *)
Fixpoint slashes (n : nat) : string :=
  match n with
  | O => EmptyString
  | S n' => String "/" (slashes n')
  end.

(** The URLs counted as served: uploaded, reused after a 304, or found in
    the store. *)
Definition served (s : Stats) : nat :=
  (uploaded s + reused304 s + reusedExisting s)%nat.

(** Every record that can be read from the manifest has a stored key. *)
Definition keyed (m : Manifest) : Prop :=
  forall url r, manifest_get m url = Some r -> truthy_key (r2Key r) <> None.

(** The pipeline resolves [url]: one resolved URL is appended, built on the
    key now recorded for [url]; no other record changes, the skip counter
    stays and one more URL is counted as served. *)
Definition resolves (cfg : Config) (url : string) (st : State) (resolved : list string)
    (st' : State) (resolved' : list string) : Prop :=
  exists key,
    resolved' = resolved ++ [public_url cfg key]
    /\ manifest_key (nextManifest st') url = Some key
    /\ (forall u, u <> url ->
                  manifest_get (nextManifest st') u = manifest_get (nextManifest st) u)
    /\ skipped (stats st') = skipped (stats st)
    /\ served (stats st') = S (served (stats st)).

(** The latest event of a trace, newest first, is a pause. *)
Definition ends_with_pause (events : list Event) : Prop :=
  match events with
  | EvSleep _ :: _ => True
  | _ => False
  end.

(** * Properties *)

(** ** The script on sample inputs *)

Example normaliseMime_examples :
  normaliseMime None = "image/jpeg"
  /\ normaliseMime (Some "") = "image/jpeg"
  /\ normaliseMime (Some " Image/PNG ; charset=binary") = "image/png"
  /\ normaliseMime (Some "image/jpg") = "image/jpg"
  /\ normaliseMime (Some "text/html") = "image/jpeg"
  /\ normaliseMime (Some "image/svg+xml") = "image/svg+xml".
Proof. repeat split. Qed.

(** A first run on one URL: fetched, encoded, looked up, uploaded, recorded. *)
Example first_run_uploads :
  process_url Demo.healthy Demo.defaults [] (Demo.start, []) Demo.src
  = (mkState
       [(Demo.src, mkRecord (Some "v2") None (Some "img/2.png") (Some "image/png"))]
       (mkStats 1 0 0 0)
       [EvPut "img/2.png" [Byte.x89; Demo.x01] "image/png"; EvHead "img/2.png";
        EvSharp false Png [Demo.x01]; EvFetch Demo.src no_headers],
     ["https://cdn.example/img/2.png"]).
Proof. reflexivity. Qed.

(** A source that always answers 500: three requests, two pauses, one skip. *)
Example failing_source_is_skipped :
  process_url Demo.failing Demo.defaults [(Demo.src, Demo.stored)] (Demo.start, []) Demo.src
  = (mkState [] (mkStats 0 0 0 1)
       [EvWarn "Skip http://x/1.jpg: HTTP 500";
        EvFetch Demo.src no_headers; EvSleep 400;
        EvFetch Demo.src no_headers; EvSleep 200;
        EvFetch Demo.src (mkHeaders (Some "v1") None)],
     []).
Proof. reflexivity. Qed.

(** An entry that lists the same URL twice resolves it once. *)
Example duplicate_candidate_resolved_once :
  snd (processOffer Demo.healthy Demo.defaults []
         (mkEntry "A1" ["http://x/1.jpg"; "http://x/1.jpg"]) Demo.start)
  = Some (mkEntry "A1" ["https://cdn.example/img/2.png"]).
Proof. reflexivity. Qed.


(** ** Configuration (lines 18-19, 260) *)

Lemma CONCURRENCY_cases (cfg : Config) :
  (CONCURRENCY cfg ==
    match R2_CONCURRENCY cfg with
    | Some c => if Qeq_bool c 0 then 4 else if Qle_bool 1 c then c else 1
    | None => 4
    end)%Q.
Proof.
  unfold CONCURRENCY, JS.number_or.
  destruct (R2_CONCURRENCY cfg) as [c|]; [|reflexivity].
  destruct (Qeq_bool c 0); [reflexivity|].
  destruct (Qle_bool 1 c) eqn:Hc.
  - apply Q.max_r. now apply Qle_bool_iff.
  - apply Q.max_l. destruct (Qlt_le_dec c 1) as [H|H]; [now apply Qlt_le_weak|].
    apply Qle_bool_iff in H. congruence.
Qed.

Lemma MAX_FETCH_ATTEMPTS_pos (cfg : Config) : (1 <= MAX_FETCH_ATTEMPTS cfg)%Q.
Proof. unfold MAX_FETCH_ATTEMPTS. apply Q.le_max_l. Qed.

Lemma max_attempts_ceiling (cfg : Config) :
  Z.of_nat (max_attempts cfg) = Qceiling (MAX_FETCH_ATTEMPTS cfg).
Proof.
  unfold max_attempts. apply Z2Nat.id.
  pose proof (Qceiling_resp_le _ _ (MAX_FETCH_ATTEMPTS_pos cfg)) as H.
  change (Qceiling 1) with 1 in H. lia.
Qed.

Lemma max_attempts_pos (cfg : Config) : (1 <= max_attempts cfg)%nat.
Proof.
  pose proof (max_attempts_ceiling cfg) as Hc.
  pose proof (Qceiling_resp_le _ _ (MAX_FETCH_ATTEMPTS_pos cfg)) as H.
  change (Qceiling 1) with 1 in H. lia.
Qed.

(** An integer is below a number exactly when it is below the number rounded
    up. *)
Lemma below_ceiling (x : Q) (n : Z) : (x <= inject_Z n)%Q <-> Qceiling x <= n.
Proof.
  split; intros H.
  - apply Qceiling_resp_le in H. now rewrite Qceiling_Z in H.
  - apply Qle_trans with (inject_Z (Qceiling x)); [apply Qle_ceiling|].
    now rewrite <- Zle_Qle.
Qed.

Lemma workerCount_bounds (cfg : Config) (imagesList : list Entry) :
  (0 <= workerCount cfg imagesList)%Q
  /\ (workerCount cfg imagesList <= inject_Z (Z.of_nat (List.length imagesList)))%Q.
Proof.
  unfold workerCount. split; [|apply Q.le_min_r].
  apply Q.min_glb.
  - apply Qle_trans with 1%Q; [discriminate|]. unfold CONCURRENCY. apply Q.le_max_l.
  - change 0%Q with (inject_Z 0). rewrite <- Zle_Qle. lia.
Qed.

(** C7, as stated, fails: a configured concurrency of 0 is below 1, yet five
    entries are then served by four workers, not by one. *)
Lemma zero_concurrency_runs_four_workers :
  R2_CONCURRENCY Demo.zero_concurrency = Some 0%Q
  /\ workerCount Demo.zero_concurrency Demo.five_entries = 4%Q
  /\ workers_started Demo.zero_concurrency Demo.five_entries = 4%nat
  /\ ~ (workerCount Demo.zero_concurrency Demo.five_entries
        == Qmin (Qmax 1 0) (inject_Z (Z.of_nat (List.length Demo.five_entries))))%Q.
Proof. repeat split. vm_compute. discriminate. Qed.

(** Fractions are kept: a concurrency of 0.5 gives one worker, a concurrency
    of 2.5 a worker count of 2.5 and two workers, and a budget of 2.5 three
    attempts. *)
Example fractional_settings :
  workers_started Demo.half_concurrency Demo.five_entries = 1%nat
  /\ workerCount Demo.fractional Demo.five_entries = (5 # 2)%Q
  /\ workers_started Demo.fractional Demo.five_entries = 2%nat
  /\ max_attempts Demo.fractional = 3%nat
  /\ trace (fst (process_url Demo.failing Demo.fractional [] (Demo.start, []) Demo.src))
     = [ EvWarn "Skip http://x/1.jpg: HTTP 500";
         EvFetch Demo.src no_headers; EvSleep 400;
         EvFetch Demo.src no_headers; EvSleep 200;
         EvFetch Demo.src no_headers ].
Proof. repeat split. Qed.

(** C7, amended: the worker count is the smaller of the effective concurrency
    and the number of entries; the effective concurrency is the configured
    value when that is at least 1, it is 1 when the configured value is below
    1 and is not 0, and it is the default 4 when the configured value is 0 or
    is not a number.  The number of workers started is the integer part of
    the worker count: it is the largest integer that is not above it, it is
    never more than the number of entries, and it is 0 only when there is no
    entry. *)
Theorem workerCount_is_min_of_effective_concurrency :
  forall (cfg : Config) (imagesList : list Entry),
    (workerCount cfg imagesList
     == Qmin (match R2_CONCURRENCY cfg with
              | Some c => if Qeq_bool c 0 then 4 else if Qle_bool 1 c then c else 1
              | None => 4
              end)
             (inject_Z (Z.of_nat (List.length imagesList))))%Q
    /\ (1 <= CONCURRENCY cfg)%Q
    /\ (inject_Z (Z.of_nat (workers_started cfg imagesList)) <= workerCount cfg imagesList)%Q
    /\ (workerCount cfg imagesList
        < inject_Z (Z.of_nat (workers_started cfg imagesList)) + 1)%Q
    /\ (workers_started cfg imagesList <= List.length imagesList)%nat
    /\ (workers_started cfg imagesList = 0%nat <-> imagesList = []).
Proof.
  intros cfg imagesList.
  destruct (workerCount_bounds cfg imagesList) as [Hlow Hhigh].
  assert (Hfloor : Z.of_nat (workers_started cfg imagesList)
                   = Qfloor (workerCount cfg imagesList)).
  { unfold workers_started, JS.ToLength. apply Z2Nat.id.
    apply Qfloor_resp_le in Hlow. exact Hlow. }
  assert (Hone : (1 <= CONCURRENCY cfg)%Q) by (unfold CONCURRENCY; apply Q.le_max_l).
  split; [|split; [exact Hone|split; [|split; [|split]]]].
  - unfold workerCount. now rewrite CONCURRENCY_cases.
  - rewrite Hfloor. apply Qfloor_le.
  - rewrite Hfloor. rewrite <- (inject_Z_plus _ 1). apply Qlt_floor.
  - apply Qfloor_resp_le in Hhigh. rewrite Qfloor_Z in Hhigh. lia.
  - split.
    + intros Hzero. destruct imagesList as [|e l]; [reflexivity|exfalso].
      assert (H1 : (1 <= workerCount cfg (e :: l))%Q).
      { unfold workerCount. apply Q.min_glb; [exact Hone|].
        change 1%Q with (inject_Z 1). rewrite <- Zle_Qle. simpl List.length. lia. }
      apply Qfloor_resp_le in H1. change (Qfloor 1) with 1 in H1. lia.
    + intros ->. apply Qfloor_resp_le in Hhigh. rewrite Qfloor_Z in Hhigh.
      simpl List.length in Hhigh. lia.
Qed.

(** ** Media types (lines 52-75) *)

Lemma supported_is_image (m : string) :
  SUPPORTED_MIME_has m = true -> JS.startsWith m "image/" = true.
Proof.
  unfold SUPPORTED_MIME_has, SUPPORTED_MIME, MIME_TO_EXT. simpl.
  repeat rewrite orb_true_iff.
  intros H; repeat destruct H as [H|H];
    try (apply String.eqb_eq in H; subst m; reflexivity).
  discriminate.
Qed.

Lemma normaliseMime_is_image (header : option string) :
  JS.startsWith (normaliseMime header) "image/" = true.
Proof.
  unfold normaliseMime. destruct header as [m|]; [|reflexivity].
  destruct (JS.nonempty m); simpl; [|reflexivity].
  destruct (SUPPORTED_MIME_has _) eqn:Hs.
  - now apply supported_is_image.
  - destruct (JS.startsWith (JS.toLowerCase (JS.trim (JS.before_semicolon m))) "image/")
      eqn:Hp; [exact Hp|reflexivity].
Qed.

Lemma toBuffer_inv (E : Env) (animated : bool) (enc : Encoder) (input : list Byte.byte)
    (st st' : State) (r : Result (list Byte.byte)) :
  toBuffer E animated enc input st = (st', r) ->
  st' = emit (EvSharp animated enc input) st
  /\ match r with
     | Ok b => sharp_toBuffer E (now st) animated enc input = SharpOk b
     | Throw message => sharp_toBuffer E (now st) animated enc input = SharpError message
     end.
Proof.
  unfold toBuffer. destruct (sharp_toBuffer E (now st) animated enc input);
    intros H; inversion H; subst; split; reflexivity.
Qed.

Lemma resizeBuffer_unfold (E : Env) (input : list Byte.byte) (m : string) (st : State) :
  resizeBuffer E input m st =
    let '(enc, mime', ext) := encoder_for m in
    match toBuffer E (String.eqb m "image/gif") enc input st with
    | (st', Ok b) => (st', Ok (mkProcessed b mime' ext))
    | (st', Throw message) => (st', Throw message)
    end.
Proof.
  unfold resizeBuffer, encoder_for, SUPPORTED_MIME_has, SUPPORTED_MIME, MIME_TO_EXT.
  cbn [existsb map fst].
  destruct (String.eqb_spec m "image/jpeg") as [->|H1]; [reflexivity|].
  destruct (String.eqb_spec m "image/jpg") as [->|H2]; [reflexivity|].
  destruct (String.eqb_spec m "image/png") as [->|H3]; [reflexivity|].
  destruct (String.eqb_spec m "image/webp") as [->|H4]; [reflexivity|].
  destruct (String.eqb_spec m "image/gif") as [->|H5]; reflexivity.
Qed.

Lemma resizeBuffer_inv (E : Env) (input : list Byte.byte) (m : string)
    (st st' : State) (r : Result Processed) :
  resizeBuffer E input m st = (st', r) ->
  exists animated enc,
    st' = emit (EvSharp animated enc input) st
    /\ match r with
       | Ok p =>
           sharp_toBuffer E (now st) animated enc input = SharpOk (p_buffer p)
           /\ (enc, p_mime p, p_ext p) = encoder_for m
       | Throw message =>
           sharp_toBuffer E (now st) animated enc input = SharpError message
       end.
Proof.
  rewrite resizeBuffer_unfold.
  destruct (encoder_for m) as [[enc mime'] ext] eqn:He.
  destruct (toBuffer E _ enc input st) as [st1 [b|message]] eqn:Hb;
    intros H; inversion H; subst; clear H;
    apply toBuffer_inv in Hb; destruct Hb as [-> Hs];
    exists (String.eqb m "image/gif"), enc; split; auto.
Qed.

Lemma encoder_for_supported (m : string) :
  SUPPORTED_MIME_has (snd (fst (encoder_for m))) = true.
Proof.
  unfold encoder_for.
  repeat match goal with |- context [String.eqb m ?s] => destruct (String.eqb m s) end;
    reflexivity.
Qed.

(** C9, as stated, fails: an image type outside the supported set is handed
    on unchanged by [normaliseMime]. *)
Lemma normaliseMime_keeps_unsupported_image_type :
  normaliseMime (Some "image/bmp") = "image/bmp"
  /\ SUPPORTED_MIME_has (normaliseMime (Some "image/bmp")) = false.
Proof. split; reflexivity. Qed.

(** C9, amended: on a fresh fetch the type derived from the Content-Type
    header is the default image/jpeg when the header is missing or empty;
    otherwise it is the cleaned header value when that is supported or begins
    with image/, and the default when it is neither.  The type need not be
    supported, but it always begins with image/, and the type returned by the
    transcoder, the one stored and uploaded, is always a supported one. *)
Theorem normaliseMime_result_and_transcoded_type :
  forall (E : Env) (header : option string) (input : list Byte.byte) (st : State),
    normaliseMime header =
      match header with
      | None => "image/jpeg"
      | Some m =>
          let clean := JS.toLowerCase (JS.trim (JS.before_semicolon m)) in
          if JS.nonempty m && (SUPPORTED_MIME_has clean || JS.startsWith clean "image/")
          then clean else "image/jpeg"
      end
    /\ JS.startsWith (normaliseMime header) "image/" = true
    /\ match resizeBuffer E input (normaliseMime header) st with
       | (_, Ok processed) => SUPPORTED_MIME_has (p_mime processed) = true
       | (_, Throw _) => True
       end.
Proof.
  intros E header input st. split; [|split].
  - unfold normaliseMime. destruct header as [m|]; [|reflexivity].
    destruct (JS.nonempty m); simpl; [|reflexivity].
    destruct (SUPPORTED_MIME_has _); simpl; [reflexivity|].
    destruct (JS.startsWith _ "image/"); reflexivity.
  - apply normaliseMime_is_image.
  - destruct (resizeBuffer E input (normaliseMime header) st) as [st' [p|message]] eqn:Hr;
      [|exact I].
    apply resizeBuffer_inv in Hr. destruct Hr as (animated & enc & _ & _ & He).
    pose proof (encoder_for_supported (normaliseMime header)) as Hs.
    rewrite <- He in Hs. exact Hs.
Qed.

(** ** The steps of the pipeline *)

Lemma emit_trace (e : Event) (st : State) : trace (emit e st) = e :: trace st.
Proof. reflexivity. Qed.

Lemma headR2_inv (E : Env) (key : string) (st st' : State) (r : Result bool) :
  headR2 E key st = (st', r) -> st' = emit (EvHead key) st.
Proof.
  unfold headR2. destruct (s3_head E (now st) key) as [|code name message].
  - intros H; inversion H; reflexivity.
  - destruct (_ || _); intros H; inversion H; reflexivity.
Qed.

Lemma putR2_inv (E : Env) (key : string) (body : list Byte.byte) (contentType : string)
    (st st' : State) (r : Result unit) :
  putR2 E key body contentType st = (st', r) -> st' = emit (EvPut key body contentType) st.
Proof.
  unfold putR2. destruct (s3_put E (now st) key body contentType);
    intros H; inversion H; reflexivity.
Qed.

Lemma do_fetch_inv (E : Env) (url : string) (h : RequestHeaders) (st st' : State)
    (r : Result Response) :
  do_fetch E url h st = (st', r) ->
  st' = emit (EvFetch url h) st
  /\ match r with
     | Ok response => fetch E (now st) url h = FetchResponse response
     | Throw message => fetch E (now st) url h = FetchRejected message
     end.
Proof.
  unfold do_fetch. destruct (fetch E (now st) url h);
    intros H; inversion H; subst; split; reflexivity.
Qed.

(** A fresh response that goes through: what is stored and recorded. *)
Lemma fresh_path_ok (E : Env) (cfg : Config) (url : string) (resolved : list string)
    (response : Response) (st st' : State) (ctl : Control) :
  fresh_path E cfg url resolved response st = (st', Ok ctl) ->
  exists (source : list Byte.byte) (processed : Processed) (st1 : State) (new : list Event),
    arrayBuffer response = BodyOk source
    /\ resizeBuffer E source (normaliseMime (header_content_type response)) st
       = (st1, Ok processed)
    /\ nextManifest st'
       = manifest_set (nextManifest st) url
           (mkRecord (JS.or_undefined (header_etag response))
                     (JS.or_undefined (header_last_modified response))
                     (Some (stored_key E processed)) (Some (p_mime processed)))
    /\ ctl = CtlBreak (resolved ++ [public_url cfg (stored_key E processed)])
    /\ skipped (stats st') = skipped (stats st)
    /\ reused304 (stats st') = reused304 (stats st)
    /\ (uploaded (stats st') + reusedExisting (stats st')
        = S (uploaded (stats st) + reusedExisting (stats st)))%nat
    /\ trace st' = new ++ trace st
    /\ Forall pipeline_event new.
Proof.
  unfold fresh_path, bind, rethrow, read_body, ret, throw, modify.
  destruct (arrayBuffer response) as [source|message] eqn:Hbody; [|discriminate].
  destruct (resizeBuffer E source _ st) as [st1 [processed|message]] eqn:Hresize;
    [|discriminate].
  pose proof (resizeBuffer_inv _ _ _ _ _ _ Hresize) as (animated & enc & Hst1 & _).
  destruct (headR2 E (stored_key E processed) st1) as [st2 [found|message]] eqn:Hhead;
    [|discriminate].
  apply headR2_inv in Hhead.
  destruct found; simpl.
  - intros H; inversion H; subst; clear H.
    exists source, processed, (emit (EvSharp animated enc source) st),
      [EvHead (stored_key E processed); EvSharp animated enc source].
    unfold set_manifest, incr_reusedExisting, emit; simpl.
    repeat split; auto; try lia. repeat constructor.
  - destruct (putR2 E _ _ _ st2) as [st3 [[]|message]] eqn:Hput; [|discriminate].
    apply putR2_inv in Hput.
    intros H; inversion H; subst; clear H.
    exists source, processed, (emit (EvSharp animated enc source) st),
      [EvPut (stored_key E processed) (p_buffer processed) (p_mime processed);
       EvHead (stored_key E processed); EvSharp animated enc source].
    unfold set_manifest, incr_uploaded, emit; simpl.
    repeat split; auto; try lia. repeat constructor.
Qed.

(** A fresh response whose processing throws leaves the manifest and the
    counters as they were. *)
Lemma fresh_path_throw (E : Env) (cfg : Config) (url : string) (resolved : list string)
    (response : Response) (st st' : State) (message : string) :
  fresh_path E cfg url resolved response st = (st', Throw message) ->
  nextManifest st' = nextManifest st
  /\ stats st' = stats st
  /\ exists new, trace st' = new ++ trace st /\ Forall pipeline_event new.
Proof.
  unfold fresh_path, bind, rethrow, read_body, ret, throw, modify.
  destruct (arrayBuffer response) as [source|m0] eqn:Hbody.
  2:{ intros H; inversion H; subst. repeat split. exists []. split; [reflexivity|constructor]. }
  destruct (resizeBuffer E source _ st) as [st1 [processed|m1]] eqn:Hresize.
  2:{ apply resizeBuffer_inv in Hresize. destruct Hresize as (animated & enc & -> & _).
      intros H; inversion H; subst. repeat split.
      exists [EvSharp animated enc source]. split; [reflexivity|].
      repeat constructor. }
  pose proof (resizeBuffer_inv _ _ _ _ _ _ Hresize) as (animated & enc & Hst1 & _).
  destruct (headR2 E (stored_key E processed) st1) as [st2 [found|m2]] eqn:Hhead;
    apply headR2_inv in Hhead.
  2:{ intros H; inversion H; subst. repeat split.
      exists [EvHead (stored_key E processed); EvSharp animated enc source].
      split; [reflexivity|]. repeat constructor. }
  destruct found; simpl; [discriminate|].
  destruct (putR2 E _ _ _ st2) as [st3 [[]|m3]] eqn:Hput; [discriminate|].
  apply putR2_inv in Hput.
  intros H; inversion H; subst. repeat split.
  exists [EvPut (stored_key E processed) (p_buffer processed) (p_mime processed);
          EvHead (stored_key E processed); EvSharp animated enc source].
  split; [reflexivity|]. repeat constructor.
Qed.

(** ** One attempt (lines 139-208) *)

Section Attempts.

Variable E : Env.
Variable cfg : Config.
Variable url : string.
Variable prevMeta : ManifestRecord.

Lemma try_block_rejected (c : bool) (resolved : list string) (st : State) (message : string) :
  fetch E (now st) url (request_headers prevMeta c) = FetchRejected message ->
  try_block E cfg url prevMeta c resolved st
  = (emit (EvFetch url (request_headers prevMeta c)) st, Throw message).
Proof. intros H. unfold try_block, bind, do_fetch. rewrite H. reflexivity. Qed.

Lemma try_block_response (c : bool) (resolved : list string) (st : State) (response : Response) :
  fetch E (now st) url (request_headers prevMeta c) = FetchResponse response ->
  try_block E cfg url prevMeta c resolved st
  = let st1 := emit (EvFetch url (request_headers prevMeta c)) st in
    if Z.eqb (status response) 304 then
      match truthy_key (r2Key prevMeta) with
      | Some key =>
          (set_manifest url prevMeta (incr_reused304 st1),
           Ok (CtlBreak (resolved ++ [public_url cfg key])))
      | None => (st1, Ok CtlContinue)
      end
    else if negb (response_ok response) then
      (st1, Throw ("HTTP " ++ JS.number_to_string (status response)))
    else fresh_path E cfg url resolved response st1.
Proof.
  intros H. unfold try_block, bind, do_fetch. rewrite H. cbv zeta.
  destruct (Z.eqb (status response) 304).
  - destruct (truthy_key (r2Key prevMeta)); reflexivity.
  - destruct (negb (response_ok response)); reflexivity.
Qed.

Lemma response_ok_not_304 (response : Response) :
  response_ok response = true -> Z.eqb (status response) 304 = false.
Proof.
  unfold response_ok. rewrite andb_true_iff, !Z.leb_le. intros [H1 H2].
  apply Z.eqb_neq. lia.
Qed.

Lemma try_block_fresh (c : bool) (resolved : list string) (st : State) (response : Response) :
  fetch E (now st) url (request_headers prevMeta c) = FetchResponse response ->
  response_ok response = true ->
  try_block E cfg url prevMeta c resolved st
  = fresh_path E cfg url resolved response (emit (EvFetch url (request_headers prevMeta c)) st).
Proof.
  intros H Hok. rewrite (try_block_response _ _ _ _ H). cbv zeta.
  rewrite (response_ok_not_304 _ Hok), Hok. reflexivity.
Qed.

(** Whatever the outcome, an attempt starts with one request to the source
    and goes on with actions of the encoder and of the store only. *)
Lemma try_block_trace (c : bool) (resolved : list string) (st st' : State)
    (r : Result Control) :
  try_block E cfg url prevMeta c resolved st = (st', r) ->
  exists new,
    trace st' = new ++ EvFetch url (request_headers prevMeta c) :: trace st
    /\ Forall pipeline_event new.
Proof.
  destruct (fetch E (now st) url (request_headers prevMeta c)) as [message|response] eqn:Hf.
  - rewrite (try_block_rejected _ _ _ _ Hf). intros H; inversion H; subst.
    exists []. split; [reflexivity|constructor].
  - rewrite (try_block_response _ _ _ _ Hf). cbv zeta.
    destruct (Z.eqb (status response) 304).
    + destruct (truthy_key (r2Key prevMeta)); intros H; inversion H; subst;
        exists []; (split; [reflexivity|constructor]).
    + destruct (negb (response_ok response)).
      * intros H; inversion H; subst. exists []. split; [reflexivity|constructor].
      * destruct r as [ctl|message]; intros H.
        -- apply fresh_path_ok in H.
           destruct H as (source & processed & st1 & new & _ & _ & _ & _ & _ & _ & _ & Ht & Hn).
           exists new. split; [exact Ht|exact Hn].
        -- apply fresh_path_throw in H. destruct H as (_ & _ & new & Ht & Hn).
           exists new. split; [exact Ht|exact Hn].
Qed.

(** An attempt that throws writes no record and moves no counter. *)
Lemma try_block_throw (c : bool) (resolved : list string) (st st' : State)
    (message : string) :
  try_block E cfg url prevMeta c resolved st = (st', Throw message) ->
  nextManifest st' = nextManifest st /\ stats st' = stats st.
Proof.
  destruct (fetch E (now st) url (request_headers prevMeta c)) as [m|response] eqn:Hf.
  - rewrite (try_block_rejected _ _ _ _ Hf). intros H; inversion H; subst. split; reflexivity.
  - rewrite (try_block_response _ _ _ _ Hf). cbv zeta.
    destruct (Z.eqb (status response) 304).
    + destruct (truthy_key (r2Key prevMeta)); discriminate.
    + destruct (negb (response_ok response)).
      * intros H; inversion H; subst. split; reflexivity.
      * intros H. apply fresh_path_throw in H. destruct H as (Hm & Hs & _).
        split; assumption.
Qed.

Lemma attempt_loop_S (r : nat) (c : bool) (e : option string) (resolved : list string)
    (st : State) :
  attempt_loop E cfg url prevMeta (S r) c e resolved st =
    match iteration E cfg url prevMeta (max_attempts cfg - r) c resolved st with
    | Leave st' resolved' e' => (st', resolved', e')
    | Again st' c' e' => attempt_loop E cfg url prevMeta r c' e' resolved st'
    end.
Proof. reflexivity. Qed.

Lemma iteration_throw (k : nat) (c : bool) (resolved : list string) (st st' : State)
    (message : string) :
  try_block E cfg url prevMeta c resolved st = (st', Throw message) ->
  iteration E cfg url prevMeta k c resolved st =
    if Nat.leb (max_attempts cfg) k then Leave st' resolved (Some message)
    else Again (sleep (backoff k) st') false (Some message).
Proof. intros H. unfold iteration. rewrite H. reflexivity. Qed.

(** After any iteration that does not leave the loop, [conditional] is false. *)
Lemma iteration_again (k : nat) (c c' : bool) (resolved : list string) (st st' : State)
    (e' : option string) :
  iteration E cfg url prevMeta k c resolved st = Again st' c' e' -> c' = false.
Proof.
  unfold iteration.
  destruct (try_block E cfg url prevMeta c resolved st) as [st1 [[res|]|message]];
    try discriminate.
  - intros H; inversion H; reflexivity.
  - destruct (Nat.leb (max_attempts cfg) k); [discriminate|].
    intros H; inversion H; reflexivity.
Qed.

(** The trace of one iteration. *)
Lemma iteration_trace (k : nat) (c : bool) (resolved : list string) (st : State) :
  exists new,
    trace (match iteration E cfg url prevMeta k c resolved st with
           | Leave st' _ _ => st'
           | Again st' _ _ => st'
           end)
    = new ++ EvFetch url (request_headers prevMeta c) :: trace st
    /\ Forall unconditional new.
Proof.
  unfold iteration.
  destruct (try_block E cfg url prevMeta c resolved st) as [st1 r] eqn:Ht.
  destruct (try_block_trace _ _ _ _ _ Ht) as (new & Hnew & Hpipe).
  assert (Hu : Forall unconditional new).
  { eapply Forall_impl; [|exact Hpipe]. intros [] Hp; simpl in *; tauto. }
  destruct r as [[res|]|message].
  - exists new. split; assumption.
  - exists new. split; assumption.
  - destruct (Nat.leb (max_attempts cfg) k).
    + exists new. split; assumption.
    + exists (EvSleep (backoff k) :: new). split.
      * unfold sleep. rewrite emit_trace, Hnew. reflexivity.
      * constructor; [exact I|assumption].
Qed.

(** Once [conditional] is false, every request of the loop is unconditional. *)
Lemma attempt_loop_unconditional (r : nat) (e : option string) (resolved : list string)
    (st : State) :
  exists new,
    trace (fst (fst (attempt_loop E cfg url prevMeta r false e resolved st)))
    = new ++ trace st
    /\ Forall unconditional new.
Proof.
  revert e st. induction r as [|r IH]; intros e st.
  - exists []. split; [reflexivity|constructor].
  - rewrite attempt_loop_S.
    destruct (iteration_trace (max_attempts cfg - r) false resolved st) as (new & Hnew & Hu).
    destruct (iteration E cfg url prevMeta (max_attempts cfg - r) false resolved st)
      as [st' res' e'|st' c' e'] eqn:Hi.
    + exists (new ++ [EvFetch url no_headers]). simpl. rewrite Hnew, <- app_assoc.
      split; [reflexivity|]. apply Forall_app. split; [assumption|].
      repeat constructor.
    + pose proof (iteration_again _ _ _ _ _ _ _ Hi) as ->.
      destruct (IH e' st') as (later & Hlater & Hul).
      exists (later ++ new ++ [EvFetch url no_headers]).
      rewrite Hlater, Hnew, <- !app_assoc. split; [reflexivity|].
      apply Forall_app. split; [assumption|].
      apply Forall_app. split; [assumption|]. repeat constructor.
Qed.

(** The first action of a loop that still has an iteration left is a request. *)
Lemma attempt_loop_first_request (r : nat) (c : bool) (e : option string)
    (resolved : list string) (st : State) :
  exists later,
    trace (fst (fst (attempt_loop E cfg url prevMeta (S r) c e resolved st)))
    = later ++ EvFetch url (request_headers prevMeta c) :: trace st
    /\ Forall unconditional later.
Proof.
  rewrite attempt_loop_S.
  destruct (iteration_trace (max_attempts cfg - r) c resolved st) as (new & Hnew & Hu).
  destruct (iteration E cfg url prevMeta (max_attempts cfg - r) c resolved st)
    as [st' res' e'|st' c' e'] eqn:Hi.
  - exists new. split; assumption.
  - pose proof (iteration_again _ _ _ _ _ _ _ Hi) as ->.
    destruct (attempt_loop_unconditional r e' resolved st') as (later & Hlater & Hul).
    exists (later ++ new). rewrite Hlater, Hnew, <- app_assoc. split; [reflexivity|].
    apply Forall_app. split; assumption.
Qed.

End Attempts.

(** ** The retry loop *)

Section Retry.

Variable E : Env.
Variable cfg : Config.
Variable url : string.
Variable prevMeta : ManifestRecord.
Variable resolved : list string.

Lemma reaches_run (a b : Loop) :
  reaches E cfg url prevMeta resolved a b ->
  run E cfg url prevMeta resolved a = run E cfg url prevMeta resolved b.
Proof.
  induction 1 as [a|r c c' e e' st st' b Hi _ IH]; [reflexivity|].
  rewrite <- IH. unfold run. simpl. rewrite Hi. reflexivity.
Qed.

Lemma reaches_trans (a b c : Loop) :
  reaches E cfg url prevMeta resolved a b ->
  reaches E cfg url prevMeta resolved b c ->
  reaches E cfg url prevMeta resolved a c.
Proof.
  induction 1 as [a|r k k' e e' st st' b Hi _ IH]; intros Hbc; [exact Hbc|].
  eapply reaches_next; [exact Hi|]. apply IH, Hbc.
Qed.

Lemma reaches_step (a : Loop) (r : nat) (c c' : bool) (e e' : option string)
    (st st' : State) :
  reaches E cfg url prevMeta resolved a (mkLoop (S r) c e st) ->
  iteration E cfg url prevMeta (max_attempts cfg - r) c resolved st = Again st' c' e' ->
  reaches E cfg url prevMeta resolved a (mkLoop r c' e' st').
Proof.
  intros Ha Hi. eapply reaches_trans; [exact Ha|].
  eapply reaches_next; [exact Hi|apply reaches_here].
Qed.

(** An iteration that goes round again has written no record and moved no
    counter. *)
Lemma iteration_again_frame (k : nat) (c c' : bool) (e' : option string) (st st' : State) :
  iteration E cfg url prevMeta k c resolved st = Again st' c' e' ->
  nextManifest st' = nextManifest st /\ stats st' = stats st.
Proof.
  unfold iteration.
  destruct (try_block E cfg url prevMeta c resolved st) as [st1 [[res|]|message]] eqn:Ht;
    try discriminate.
  - intros H; inversion H; subst.
    destruct (fetch E (now st) url (request_headers prevMeta c)) as [m|response] eqn:Hf.
    + rewrite (try_block_rejected _ _ _ _ _ _ _ _ Hf) in Ht. discriminate.
    + rewrite (try_block_response _ _ _ _ _ _ _ _ Hf) in Ht. cbv zeta in Ht.
      destruct (Z.eqb (status response) 304).
      * destruct (truthy_key (r2Key prevMeta)); inversion Ht; subst. split; reflexivity.
      * destruct (negb (response_ok response)); [discriminate|].
        apply fresh_path_ok in Ht.
        destruct Ht as (? & ? & ? & ? & _ & _ & _ & Hc & _). discriminate.
  - destruct (Nat.leb (max_attempts cfg) k); [discriminate|].
    intros H; inversion H; subst.
    apply try_block_throw in Ht. exact Ht.
Qed.

Lemma reaches_frame (a b : Loop) :
  reaches E cfg url prevMeta resolved a b ->
  nextManifest (loop_state b) = nextManifest (loop_state a)
  /\ stats (loop_state b) = stats (loop_state a).
Proof.
  induction 1 as [a|r c c' e e' st st' b Hi _ IH]; [split; reflexivity|].
  apply iteration_again_frame in Hi. destruct Hi as [Hm Hs], IH as [Hm' Hs'].
  simpl in *. split; congruence.
Qed.

Lemma last_attempt_number : Nat.leb (max_attempts cfg) (max_attempts cfg - 0) = true.
Proof. rewrite Nat.sub_0_r. apply Nat.leb_refl. Qed.

Lemma earlier_attempt_number (r : nat) :
  Nat.leb (max_attempts cfg) (max_attempts cfg - S r) = false.
Proof. apply Nat.leb_gt. pose proof (max_attempts_pos cfg). lia. Qed.

End Retry.

Lemma manifest_get_set (m : Manifest) (k : string) (v : ManifestRecord) :
  manifest_get (manifest_set m k v) k = Some v.
Proof.
  induction m as [|[k' v'] m IH]; simpl.
  - now rewrite String.eqb_refl.
  - destruct (String.eqb k' k) eqn:Hk; simpl; rewrite Hk; [reflexivity|exact IH].
Qed.

(** C4: when attempt [k], not the last one allowed, fails, the next two
    actions are a pause of 200 * 2^(k-1) milliseconds and a request without
    conditional headers, and every later request for the URL is unconditional
    as well. *)
Theorem failed_attempt_sleeps_then_retries_unconditionally :
  forall (E : Env) (cfg : Config) (url : string) (prevMeta : ManifestRecord)
         (k : nat) (conditional : bool) (lastError : option string)
         (resolved : list string) (st st' : State) (message : string),
    (1 <= k)%nat ->
    (k < max_attempts cfg)%nat ->
    try_block E cfg url prevMeta conditional resolved st = (st', Throw message) ->
    exists later,
      trace (fst (fst (attempt_loop E cfg url prevMeta (S (max_attempts cfg - k))
                         conditional lastError resolved st)))
      = later ++ EvFetch url no_headers :: EvSleep (200 * 2 ^ (Z.of_nat k - 1)) :: trace st'
      /\ Forall unconditional later.
Proof.
  intros E cfg url prevMeta k conditional lastError resolved st st' message Hk1 Hk2 Ht.
  rewrite attempt_loop_S.
  replace (max_attempts cfg - (max_attempts cfg - k))%nat with k by lia.
  rewrite (iteration_throw _ _ _ _ _ _ _ _ _ _ Ht).
  replace (Nat.leb (max_attempts cfg) k) with false by (symmetry; apply Nat.leb_gt; lia).
  destruct (max_attempts cfg - k)%nat as [|r] eqn:Hr; [lia|].
  destruct (attempt_loop_first_request E cfg url prevMeta r false (Some message) resolved
              (sleep (backoff k) st')) as (later & Hlater & Hu).
  exists later. split; [exact Hlater|exact Hu].
Qed.

Lemma failed_attempt_sleeps_then_retries_unconditionally_witness :
  (1 <= 1)%nat /\ (1 < max_attempts Demo.defaults)%nat
  /\ exists later,
      trace (fst (fst (attempt_loop Demo.failing Demo.defaults Demo.src Demo.stored
                         (S (max_attempts Demo.defaults - 1)) true None [] Demo.start)))
      = later ++ EvFetch Demo.src no_headers :: EvSleep (200 * 2 ^ (Z.of_nat 1 - 1))
                 :: trace (emit (EvFetch Demo.src (request_headers Demo.stored true)) Demo.start)
      /\ Forall unconditional later.
Proof.
  split; [lia|]. split; [vm_compute; lia|].
  apply (failed_attempt_sleeps_then_retries_unconditionally
           Demo.failing Demo.defaults Demo.src Demo.stored 1 true None [] Demo.start
           (emit (EvFetch Demo.src (request_headers Demo.stored true)) Demo.start)
           "HTTP 500").
  - lia.
  - vm_compute; lia.
  - reflexivity.
Defined.

(** ** A 304 response (lines 151-160) *)

(** C2, as stated, fails: with a budget of one attempt, a 304 answer to a
    conditional request for a URL that has validators but no stored object
    ends the loop; the trace shows that single request and no retry. *)
Lemma stale_304_on_last_attempt_is_not_retried :
  max_attempts Demo.one_attempt = 1%nat
  /\ JS.truthy (etag Demo.orphan) = true
  /\ truthy_key (r2Key Demo.orphan) = None
  /\ fetch Demo.stale 0 Demo.src (request_headers Demo.orphan true)
     = FetchResponse Demo.not_modified
  /\ process_url Demo.stale Demo.one_attempt [(Demo.src, Demo.orphan)]
       (Demo.start, []) Demo.src
     = (mkState [] (mkStats 0 0 0 0) [EvFetch Demo.src (mkHeaders (Some "v1") None)], []).
Proof. repeat split. Qed.

(** C2, amended: when a request answers 304 and the prior record has a stored
    key, the loop ends at once: the prior record is written to the next
    manifest, the 304 counter goes up by one, the stored key is resolved and
    the only action is the request itself, so nothing is transcoded or
    uploaded.  When the prior record has no stored key, the 304 is not
    trusted and conditional mode is switched off; the answer has used up one
    attempt, and as long as an attempt remains the URL is requested again
    without conditional headers.  When none remains, no further request is
    made. *)
Theorem not_modified_reuses_stored_key_or_drops_validators :
  forall (E : Env) (cfg : Config) (url : string) (prevMeta : ManifestRecord)
         (r : nat) (c : bool) (e : option string) (resolved : list string)
         (st : State) (response : Response),
    fetch E (now st) url (request_headers prevMeta c) = FetchResponse response ->
    status response = 304 ->
    let st1 := emit (EvFetch url (request_headers prevMeta c)) st in
    let result := attempt_loop E cfg url prevMeta (S r) c e resolved st in
    match truthy_key (r2Key prevMeta) with
    | Some key =>
        result = (set_manifest url prevMeta (incr_reused304 st1),
                  resolved ++ [public_url cfg key], None)
        /\ manifest_get (nextManifest (fst (fst result))) url = Some prevMeta
        /\ reused304 (stats (fst (fst result))) = S (reused304 (stats st))
        /\ trace (fst (fst result)) = EvFetch url (request_headers prevMeta c) :: trace st
    | None =>
        result = attempt_loop E cfg url prevMeta r false None resolved st1
        /\ match r with
           | O => result = (st1, resolved, None)
           | S _ =>
               exists later,
                 trace (fst (fst result))
                 = later ++ EvFetch url no_headers
                      :: EvFetch url (request_headers prevMeta c) :: trace st
                 /\ Forall unconditional later
           end
    end.
Proof.
  intros E cfg url prevMeta r c e resolved st response Hf H304 st1 result.
  assert (Ht : try_block E cfg url prevMeta c resolved st =
               match truthy_key (r2Key prevMeta) with
               | Some key => (set_manifest url prevMeta (incr_reused304 st1),
                              Ok (CtlBreak (resolved ++ [public_url cfg key])))
               | None => (st1, Ok CtlContinue)
               end).
  { rewrite (try_block_response _ _ _ _ _ _ _ _ Hf). cbv zeta. rewrite H304. reflexivity. }
  subst result. rewrite attempt_loop_S. unfold iteration. rewrite Ht.
  destruct (truthy_key (r2Key prevMeta)) as [key|].
  - simpl. repeat split. apply manifest_get_set.
  - split; [reflexivity|]. destruct r as [|r]; [reflexivity|].
    destruct (attempt_loop_first_request E cfg url prevMeta r false None resolved st1)
      as (later & Hlater & Hu).
    exists later. split; [exact Hlater|exact Hu].
Qed.

Lemma not_modified_reuses_stored_key_or_drops_validators_witness :
  fetch Demo.stale (now Demo.start) Demo.src (request_headers Demo.stored true)
  = FetchResponse Demo.not_modified
  /\ status Demo.not_modified = 304
  /\ attempt_loop Demo.stale Demo.defaults Demo.src Demo.stored 3 true None [] Demo.start
     = (set_manifest Demo.src Demo.stored
          (incr_reused304 (emit (EvFetch Demo.src (request_headers Demo.stored true)) Demo.start)),
        [] ++ [public_url Demo.defaults "img/9.png"], None).
Proof.
  split; [reflexivity|]. split; [reflexivity|].
  exact (proj1 (not_modified_reuses_stored_key_or_drops_validators
                  Demo.stale Demo.defaults Demo.src Demo.stored 2 true None []
                  Demo.start Demo.not_modified eq_refl eq_refl)).
Defined.

(** ** One URL (lines 128-214) *)

Section OneUrl.

Variable E : Env.
Variable cfg : Config.
Variable previousManifest : Manifest.
Variable url : string.
Variable resolved : list string.
Variable st0 : State.

Let prevMeta : ManifestRecord := prevMeta_of previousManifest st0 url.
Let entry_point : Loop := first_attempt cfg previousManifest url st0.

Lemma process_url_unresolved :
  resolved_key st0 url = None ->
  process_url E cfg previousManifest (st0, resolved) url
  = fetch_and_store E cfg previousManifest url resolved st0.
Proof. intros H. unfold process_url. rewrite H. reflexivity. Qed.

Lemma fetch_and_store_run :
  fetch_and_store E cfg previousManifest url resolved st0 =
    match run E cfg url prevMeta resolved entry_point with
    | (st', resolved', Some message) =>
        (emit (EvWarn ("Skip " ++ url ++ ": " ++ message)) (incr_skipped st'), resolved')
    | (st', resolved', None) => (st', resolved')
    end.
Proof. reflexivity. Qed.

(** The loop seen from a point it reaches: the trace of the whole call ends
    with the trace of the rest of the loop. *)
Lemma fetch_and_store_trace (a : Loop) :
  reaches E cfg url prevMeta resolved entry_point a ->
  exists warning,
    trace (fst (fetch_and_store E cfg previousManifest url resolved st0))
    = warning ++ trace (fst (fst (run E cfg url prevMeta resolved a)))
    /\ Forall unconditional warning.
Proof.
  intros Ha. rewrite fetch_and_store_run, (reaches_run _ _ _ _ _ _ _ Ha).
  destruct (run E cfg url prevMeta resolved a) as [[st' resolved'] [message|]].
  - exists [EvWarn ("Skip " ++ url ++ ": " ++ message)]. split; [reflexivity|].
    repeat constructor.
  - exists []. split; [reflexivity|constructor].
Qed.

(** A last attempt that throws: the URL is skipped. *)
Lemma last_attempt_throws (c : bool) (e : option string) (st st' : State) (message : string) :
  reaches E cfg url prevMeta resolved entry_point (mkLoop 1 c e st) ->
  try_block E cfg url prevMeta c resolved st = (st', Throw message) ->
  fetch_and_store E cfg previousManifest url resolved st0
  = (emit (EvWarn ("Skip " ++ url ++ ": " ++ message)) (incr_skipped st'), resolved).
Proof.
  intros Ha Ht. rewrite fetch_and_store_run, (reaches_run _ _ _ _ _ _ _ Ha).
  unfold run. simpl. rewrite (iteration_throw _ _ _ _ _ _ _ _ _ _ Ht), last_attempt_number.
  reflexivity.
Qed.

(** An earlier attempt that throws: a pause, then an unconditional request. *)
Lemma earlier_attempt_throws (r : nat) (c : bool) (e : option string) (st st' : State)
    (message : string) :
  reaches E cfg url prevMeta resolved entry_point (mkLoop (S (S r)) c e st) ->
  try_block E cfg url prevMeta c resolved st = (st', Throw message) ->
  exists later,
    trace (fst (fetch_and_store E cfg previousManifest url resolved st0))
    = later ++ EvFetch url no_headers :: EvSleep (backoff (max_attempts cfg - S r)) :: trace st'
    /\ Forall unconditional later.
Proof.
  intros Ha Ht.
  assert (Hi : iteration E cfg url prevMeta (max_attempts cfg - S r) c resolved st
               = Again (sleep (backoff (max_attempts cfg - S r)) st') false (Some message)).
  { rewrite (iteration_throw _ _ _ _ _ _ _ _ _ _ Ht), earlier_attempt_number. reflexivity. }
  pose proof (reaches_step _ _ _ _ _ _ _ _ _ _ _ _ _ Ha Hi) as Hb.
  destruct (fetch_and_store_trace _ Hb) as (warning & Hw & Huw).
  destruct (attempt_loop_first_request E cfg url prevMeta r false (Some message) resolved
              (sleep (backoff (max_attempts cfg - S r)) st')) as (later & Hlater & Hu).
  exists (warning ++ later). rewrite Hw. unfold run.
  cbn [remaining loop_conditional loop_lastError loop_state].
  rewrite Hlater, <- app_assoc. split; [reflexivity|].
  apply Forall_app. split; assumption.
Qed.

(** When every attempt the loop makes throws, the loop ends with an error
    and has changed neither the manifest nor the counters. *)
Lemma every_attempt_throws (a : Loop) :
  (1 <= remaining a)%nat ->
  (forall r c e st,
      reaches E cfg url prevMeta resolved a (mkLoop (S r) c e st) ->
      exists st' message,
        try_block E cfg url prevMeta c resolved st = (st', Throw message)) ->
  exists st' message,
    run E cfg url prevMeta resolved a = (st', resolved, Some message)
    /\ nextManifest st' = nextManifest (loop_state a)
    /\ stats st' = stats (loop_state a).
Proof.
  destruct a as [n c e st]. simpl. revert c e st.
  induction n as [|r IH]; intros c e st Hn Hall; [lia|].
  destruct (Hall r c e st (reaches_here _ _ _ _ _ _)) as (st' & message & Ht).
  pose proof (try_block_throw _ _ _ _ _ _ _ _ _ Ht) as [Hm Hs].
  pose proof (iteration_throw E cfg url prevMeta (max_attempts cfg - r) _ _ _ _ _ Ht) as Hi.
  destruct r as [|r].
  - rewrite last_attempt_number in Hi.
    exists st', message. unfold run. simpl. rewrite Hi. repeat split; assumption.
  - rewrite earlier_attempt_number in Hi.
    destruct (IH false (Some message) (sleep (backoff (max_attempts cfg - S r)) st'))
      as (st2 & message2 & Hrun & Hm2 & Hs2); [lia| |].
    + intros r' c' e' s' Hreach. apply (Hall r' c' e' s').
      eapply reaches_next; [exact Hi|exact Hreach].
    + exists st2, message2. unfold run in *. simpl in *. rewrite Hi.
      repeat split; [exact Hrun| |]; congruence.
Qed.

(** When every attempt the loop makes answers 304 and the prior record has no
    stored key, the loop runs out of attempts without an error. *)
Lemma every_attempt_304 (a : Loop) :
  truthy_key (r2Key prevMeta) = None ->
  (forall r c e st,
      reaches E cfg url prevMeta resolved a (mkLoop (S r) c e st) ->
      exists response,
        fetch E (now st) url (request_headers prevMeta c) = FetchResponse response
        /\ status response = 304) ->
  exists new,
    run E cfg url prevMeta resolved a
    = (mkState (nextManifest (loop_state a)) (stats (loop_state a))
         (new ++ trace (loop_state a)),
       resolved,
       match remaining a with O => loop_lastError a | S _ => None end)
    /\ Forall (fun ev => exists headers, ev = EvFetch url headers) new
    /\ List.length new = remaining a.
Proof.
  intros Hkey. destruct a as [n c e st]. simpl. revert c e st.
  induction n as [|r IH]; intros c e st Hall.
  - exists []. unfold run. simpl. destruct st. repeat split. constructor.
  - destruct (Hall r c e st (reaches_here _ _ _ _ _ _)) as (response & Hf & H304).
    assert (Hi : iteration E cfg url prevMeta (max_attempts cfg - r) c resolved st
                 = Again (emit (EvFetch url (request_headers prevMeta c)) st) false None).
    { unfold iteration. rewrite (try_block_response _ _ _ _ _ _ _ _ Hf). cbv zeta.
      rewrite H304, Hkey. reflexivity. }
    destruct (IH false None (emit (EvFetch url (request_headers prevMeta c)) st))
      as (new & Hrun & Hnew & Hlen).
    + intros r' c' e' s' Hreach. apply (Hall r' c' e' s').
      eapply reaches_next; [exact Hi|exact Hreach].
    + exists (new ++ [EvFetch url (request_headers prevMeta c)]).
      unfold run in *. simpl in *. rewrite Hi, Hrun, <- app_assoc. simpl.
      split; [|split].
      * destruct r; reflexivity.
      * apply Forall_app. split; [exact Hnew|]. repeat constructor. eexists; reflexivity.
      * rewrite length_app. simpl. lia.
Qed.

End OneUrl.

(** ** Failures after a successful fetch (lines 166-207) *)

(** C1, as stated, fails: the source answers 200, the existence check fails
    on the first attempt, and the URL is requested a second time; it ends up
    resolved, and the skip counter stays at 0. *)
Lemma store_error_after_fetch_is_retried :
  response_ok (Demo.ok_response "image/png") = true
  /\ (exists st',
        try_block Demo.flaky_store Demo.defaults Demo.src empty_record false [] Demo.start
        = (st', Throw "HEAD failed: store unavailable"))
  /\ process_url Demo.flaky_store Demo.defaults [] (Demo.start, []) Demo.src
     = (mkState
          [(Demo.src, mkRecord (Some "v2") None (Some "img/2.png") (Some "image/png"))]
          (mkStats 0 0 1 0)
          [EvHead "img/2.png"; EvSharp false Png [Demo.x01]; EvFetch Demo.src no_headers;
           EvSleep 200;
           EvHead "img/2.png"; EvSharp false Png [Demo.x01]; EvFetch Demo.src no_headers],
        ["https://cdn.example/img/2.png"]).
Proof.
  split; [reflexivity|]. split; [eexists; vm_compute; reflexivity|reflexivity].
Qed.

(** C1, amended: a failure of the transcoder, of the existence check or of
    the upload after a successful fetch writes no record and moves no counter,
    and counts as a failed attempt like a failed fetch.  On the last attempt
    allowed it is final: no further request is made, the skip counter goes up
    by one, a warning is logged and the entry's next URL is processed.  On an
    earlier attempt the loop pauses for 200 * 2^(k-1) milliseconds and
    requests the URL again, without conditional headers. *)
Theorem failure_after_fetch_is_retried_until_budget_is_spent :
  forall (E : Env) (cfg : Config) (previousManifest : Manifest) (url : string)
         (resolved : list string) (st0 : State)
         (r : nat) (c : bool) (e : option string) (st : State)
         (response : Response) (st' : State) (message : string),
    let prevMeta := prevMeta_of previousManifest st0 url in
    resolved_key st0 url = None ->
    reaches E cfg url prevMeta resolved (first_attempt cfg previousManifest url st0)
      (mkLoop (S r) c e st) ->
    fetch E (now st) url (request_headers prevMeta c) = FetchResponse response ->
    response_ok response = true ->
    fresh_path E cfg url resolved response (emit (EvFetch url (request_headers prevMeta c)) st)
    = (st', Throw message) ->
    nextManifest st' = nextManifest st0
    /\ stats st' = stats st0
    /\ match r with
       | O =>
           forall rest,
             fold_left (process_url E cfg previousManifest) (url :: rest) (st0, resolved)
             = fold_left (process_url E cfg previousManifest) rest
                 (emit (EvWarn ("Skip " ++ url ++ ": " ++ message)) (incr_skipped st'),
                  resolved)
       | S _ =>
           exists later,
             trace (fst (process_url E cfg previousManifest (st0, resolved) url))
             = later ++ EvFetch url no_headers
                  :: EvSleep (200 * 2 ^ (Z.of_nat (max_attempts cfg - r) - 1)) :: trace st'
             /\ Forall unconditional later
       end.
Proof.
  intros E cfg previousManifest url resolved st0 r c e st response st' message prevMeta
    Hkey Hreach Hf Hok Hfresh.
  assert (Ht : try_block E cfg url prevMeta c resolved st = (st', Throw message)).
  { rewrite (try_block_fresh _ _ _ _ _ _ _ _ Hf Hok). exact Hfresh. }
  pose proof (try_block_throw _ _ _ _ _ _ _ _ _ Ht) as [Hm Hs].
  pose proof (reaches_frame _ _ _ _ _ _ _ Hreach) as [Hm0 Hs0]. simpl in Hm0, Hs0.
  split; [congruence|]. split; [congruence|].
  destruct r as [|r].
  - intros rest. cbn [fold_left]. rewrite (process_url_unresolved _ _ _ _ _ _ Hkey).
    rewrite (last_attempt_throws _ _ _ _ _ _ _ _ _ _ _ Hreach Ht). reflexivity.
  - rewrite (process_url_unresolved _ _ _ _ _ _ Hkey).
    exact (earlier_attempt_throws _ _ _ _ _ _ _ _ _ _ _ _ Hreach Ht).
Qed.

Lemma failure_after_fetch_is_retried_until_budget_is_spent_witness :
  resolved_key Demo.start Demo.src = None
  /\ response_ok (Demo.ok_response "image/png") = true
  /\ exists later,
       trace (fst (process_url Demo.undecodable Demo.defaults [] (Demo.start, []) Demo.src))
       = later ++ EvFetch Demo.src no_headers
            :: EvSleep (200 * 2 ^ (Z.of_nat (max_attempts Demo.defaults - 2) - 1))
            :: trace (emit (EvSharp false Png [Demo.x01])
                        (emit (EvFetch Demo.src no_headers) Demo.start))
       /\ Forall unconditional later.
Proof.
  split; [reflexivity|]. split; [reflexivity|].
  exact (proj2 (proj2 (failure_after_fetch_is_retried_until_budget_is_spent
           Demo.undecodable Demo.defaults [] Demo.src [] Demo.start
           2 false None Demo.start (Demo.ok_response "image/png")
           (emit (EvSharp false Png [Demo.x01]) (emit (EvFetch Demo.src no_headers) Demo.start))
           "unsupported image format"
           eq_refl (reaches_here _ _ _ _ _ _) eq_refl eq_refl eq_refl))).
Defined.

(** ** Exhausted attempts (lines 210-219) *)

Lemma processOffer_single_unresolved (E : Env) (cfg : Config) (previousManifest : Manifest)
    (entry : Entry) (url : string) (st0 : State) :
  uniqueUrls (urls entry) = [url] ->
  snd (process_url E cfg previousManifest (st0, []) url) = [] ->
  snd (processOffer E cfg previousManifest entry st0) = None.
Proof.
  intros Hu Hr. unfold processOffer.
  destruct (negb (JS.nonempty (offerId entry)) || Nat.eqb (List.length (urls entry)) 0);
    [reflexivity|].
  rewrite Hu. cbn [List.length Nat.eqb fold_left].
  destruct (process_url E cfg previousManifest (st0, []) url) as [st' resolved'].
  simpl in Hr. subst resolved'. reflexivity.
Qed.

Lemma worker_turn_none (E : Env) (cfg : Config) (previousManifest : Manifest)
    (entry : Entry) (st0 : State) (offerResults : list Entry) :
  snd (processOffer E cfg previousManifest entry st0) = None ->
  snd (worker_turn E cfg previousManifest entry (st0, offerResults)) = offerResults.
Proof.
  unfold worker_turn.
  destruct (processOffer E cfg previousManifest entry st0) as [st' [result|]];
    simpl; [discriminate|reflexivity].
Qed.

(** C5: when every attempt for a URL fails, up to the budget, the skip
    counter goes up by exactly one and no other counter moves, no record is
    written, and nothing is appended to the entry's resolved URLs; when the
    URL is the entry's only one, [processOffer] returns nothing and the entry
    adds no element to the results from which the output is made. *)
Theorem exhausted_url_is_skipped_once_and_left_out :
  forall (E : Env) (cfg : Config) (previousManifest : Manifest) (url : string)
         (resolved : list string) (st0 : State),
    let prevMeta := prevMeta_of previousManifest st0 url in
    let after := process_url E cfg previousManifest (st0, resolved) url in
    resolved_key st0 url = None ->
    (forall r c e st,
        reaches E cfg url prevMeta resolved (first_attempt cfg previousManifest url st0)
          (mkLoop (S r) c e st) ->
        exists st' message,
          try_block E cfg url prevMeta c resolved st = (st', Throw message)) ->
    snd after = resolved
    /\ nextManifest (fst after) = nextManifest st0
    /\ stats (fst after)
       = mkStats (uploaded (stats st0)) (reused304 (stats st0))
           (reusedExisting (stats st0)) (S (skipped (stats st0)))
    /\ forall (entry : Entry) (offerResults : list Entry),
         resolved = [] ->
         uniqueUrls (urls entry) = [url] ->
         snd (processOffer E cfg previousManifest entry st0) = None
         /\ snd (worker_turn E cfg previousManifest entry (st0, offerResults)) = offerResults
         /\ sortedOffers E (snd (worker_turn E cfg previousManifest entry (st0, offerResults)))
            = sortedOffers E offerResults.
Proof.
  intros E cfg previousManifest url resolved st0 prevMeta after Hkey Hall.
  subst prevMeta after.
  destruct (every_attempt_throws E cfg previousManifest url resolved st0
              (first_attempt cfg previousManifest url st0))
    as (st' & message & Hrun & Hm & Hs).
  { simpl. apply max_attempts_pos. }
  { exact Hall. }
  assert (Hafter : process_url E cfg previousManifest (st0, resolved) url
                   = (emit (EvWarn ("Skip " ++ url ++ ": " ++ message)) (incr_skipped st'),
                      resolved)).
  { rewrite (process_url_unresolved _ _ _ _ _ _ Hkey), fetch_and_store_run.
    rewrite Hrun. reflexivity. }
  simpl in Hm, Hs. rewrite Hafter.
  split; [reflexivity|]. split; [exact Hm|].
  split; [simpl; rewrite Hs; reflexivity|].
  intros entry offerResults Hnil Hu. subst resolved.
  assert (Hnone : snd (processOffer E cfg previousManifest entry st0) = None).
  { eapply processOffer_single_unresolved; [exact Hu|]. rewrite Hafter. reflexivity. }
  split; [exact Hnone|].
  pose proof (worker_turn_none _ _ _ _ _ offerResults Hnone) as Hw.
  split; [exact Hw|]. rewrite Hw. reflexivity.
Qed.

Lemma exhausted_url_is_skipped_once_and_left_out_witness :
  resolved_key Demo.start Demo.src = None
  /\ snd (process_url Demo.failing Demo.defaults [] (Demo.start, []) Demo.src) = []
  /\ nextManifest (fst (process_url Demo.failing Demo.defaults [] (Demo.start, []) Demo.src))
     = nextManifest Demo.start
  /\ stats (fst (process_url Demo.failing Demo.defaults [] (Demo.start, []) Demo.src))
     = mkStats 0 0 0 1
  /\ snd (processOffer Demo.failing Demo.defaults [] (mkEntry "A1" [Demo.src]) Demo.start)
     = None.
Proof.
  pose proof (exhausted_url_is_skipped_once_and_left_out
                Demo.failing Demo.defaults [] Demo.src [] Demo.start eq_refl) as H.
  cbv zeta in H.
  destruct H as (H1 & H2 & H3 & H4).
  - intros r c e st _. eexists. eexists.
    rewrite (try_block_response Demo.failing Demo.defaults Demo.src _ c [] st
               Demo.server_error eq_refl).
    reflexivity.
  - split; [reflexivity|]. split; [exact H1|]. split; [exact H2|]. split; [exact H3|].
    exact (proj1 (H4 (mkEntry "A1" [Demo.src]) [] eq_refl eq_refl)).
Defined.

(** ** Attempts that all answer 304 (lines 139-214) *)

Lemma prevMeta_without_key (previousManifest : Manifest) (st0 : State) (url : string) :
  manifest_key (nextManifest st0) url = None ->
  manifest_key previousManifest url = None ->
  truthy_key (r2Key (prevMeta_of previousManifest st0 url)) = None.
Proof.
  unfold manifest_key, prevMeta_of. intros Hn Hp.
  destruct (manifest_get (nextManifest st0) url); [exact Hn|].
  destruct (manifest_get previousManifest url); [exact Hp|reflexivity].
Qed.

(** C10: when neither the next manifest nor the previous one holds a stored
    key for a URL and every attempt in the budget is answered 304, the call
    makes one request per attempt and nothing else: no resolved URL is
    appended, no record is written, no counter moves (the skip counter
    included) and no warning is logged. *)
Theorem repeated_304_without_stored_key_vanishes :
  forall (E : Env) (cfg : Config) (previousManifest : Manifest) (url : string)
         (resolved : list string) (st0 : State),
    let prevMeta := prevMeta_of previousManifest st0 url in
    manifest_key (nextManifest st0) url = None ->
    manifest_key previousManifest url = None ->
    (forall r c e st,
        reaches E cfg url prevMeta resolved (first_attempt cfg previousManifest url st0)
          (mkLoop (S r) c e st) ->
        exists response,
          fetch E (now st) url (request_headers prevMeta c) = FetchResponse response
          /\ status response = 304) ->
    exists requests,
      process_url E cfg previousManifest (st0, resolved) url
      = (mkState (nextManifest st0) (stats st0) (requests ++ trace st0), resolved)
      /\ Forall (fun ev => exists headers, ev = EvFetch url headers) requests
      /\ List.length requests = max_attempts cfg.
Proof.
  intros E cfg previousManifest url resolved st0 prevMeta Hnext Hprev Hall.
  subst prevMeta.
  pose proof (prevMeta_without_key _ _ _ Hnext Hprev) as Hkey.
  destruct (every_attempt_304 E cfg previousManifest url resolved st0
              (first_attempt cfg previousManifest url st0) Hkey Hall)
    as (requests & Hrun & Hreq & Hlen).
  exists requests. split; [|split; [exact Hreq|exact Hlen]].
  rewrite (process_url_unresolved _ _ _ _ _ _ Hnext), fetch_and_store_run.
  rewrite Hrun. simpl.
  pose proof (max_attempts_pos cfg). destruct (max_attempts cfg); [lia|reflexivity].
Qed.

Lemma repeated_304_without_stored_key_vanishes_witness :
  manifest_key (nextManifest Demo.start) Demo.src = None
  /\ manifest_key [(Demo.src, Demo.orphan)] Demo.src = None
  /\ exists requests,
       process_url Demo.stale Demo.defaults [(Demo.src, Demo.orphan)] (Demo.start, []) Demo.src
       = (mkState (nextManifest Demo.start) (stats Demo.start) (requests ++ trace Demo.start),
          [])
       /\ Forall (fun ev => exists headers, ev = EvFetch Demo.src headers) requests
       /\ List.length requests = max_attempts Demo.defaults.
Proof.
  split; [reflexivity|]. split; [reflexivity|].
  apply (repeated_304_without_stored_key_vanishes
           Demo.stale Demo.defaults [(Demo.src, Demo.orphan)] Demo.src [] Demo.start
           eq_refl eq_refl).
  intros r c e st _. exists Demo.not_modified. split; reflexivity.
Defined.

(** ** Content addressing (lines 172-174) *)

Lemma encoder_for_ext (m1 m2 : string) :
  fst (fst (encoder_for m1)) = fst (fst (encoder_for m2)) ->
  snd (encoder_for m1) = snd (encoder_for m2).
Proof.
  unfold encoder_for.
  repeat match goal with |- context [String.eqb ?m ?s] => destruct (String.eqb m s) end;
    simpl; intros H; try reflexivity; discriminate.
Qed.

Lemma demo_formats_disjoint : formats_disjoint Demo.healthy.
Proof.
  intros t1 t2 a1 a2 enc1 enc2 i1 i2 out H1 H2. simpl in H1, H2.
  unfold Demo.encode in H1, H2. inversion H1; subst out. inversion H2 as [[Hs Hi]].
  destruct enc1, enc2; simpl in Hs; try reflexivity; discriminate.
Qed.

(** C3: after a fresh fetch that goes through, the key recorded for the URL
    is img/<hash>.<ext>, where <hash> is the digest of the bytes that the
    encoder selected for the content type returned when run on the bytes
    fetched (not the digest of the bytes fetched) and <ext> is the extension
    of that encoder's format; the resolved URL is the public base followed by
    that key.  Two URLs whose transcoded bytes are identical get the same key
    when the two formats have the same extension, which is always the case
    when different encoders never return the same bytes. *)
Theorem stored_key_is_digest_of_transcoded_bytes :
  forall (E : Env) (cfg : Config)
         (url1 url2 : string) (resolved1 resolved2 : list string)
         (response1 response2 : Response) (st1 st2 st1' st2' : State) (ctl1 ctl2 : Control),
    fresh_path E cfg url1 resolved1 response1 st1 = (st1', Ok ctl1) ->
    fresh_path E cfg url2 resolved2 response2 st2 = (st2', Ok ctl2) ->
    let type1 := normaliseMime (header_content_type response1) in
    let type2 := normaliseMime (header_content_type response2) in
    exists (source1 source2 out1 out2 : list Byte.byte),
      arrayBuffer response1 = BodyOk source1
      /\ arrayBuffer response2 = BodyOk source2
      /\ sharp_toBuffer E (now st1) (String.eqb type1 "image/gif")
           (fst (fst (encoder_for type1))) source1 = SharpOk out1
      /\ sharp_toBuffer E (now st2) (String.eqb type2 "image/gif")
           (fst (fst (encoder_for type2))) source2 = SharpOk out2
      /\ recorded_key (nextManifest st1') url1
         = Some ("img/" ++ sha1_hex E out1 ++ "." ++ snd (encoder_for type1))%string
      /\ recorded_key (nextManifest st2') url2
         = Some ("img/" ++ sha1_hex E out2 ++ "." ++ snd (encoder_for type2))%string
      /\ ctl1 = CtlBreak (resolved1 ++ [(publicBase cfg ++ "/" ++ "img/" ++ sha1_hex E out1
                                          ++ "." ++ snd (encoder_for type1))%string])
      /\ ctl2 = CtlBreak (resolved2 ++ [(publicBase cfg ++ "/" ++ "img/" ++ sha1_hex E out2
                                          ++ "." ++ snd (encoder_for type2))%string])
      /\ (out1 = out2 ->
          snd (encoder_for type1) = snd (encoder_for type2) ->
          recorded_key (nextManifest st1') url1 = recorded_key (nextManifest st2') url2)
      /\ (formats_disjoint E ->
          out1 = out2 ->
          recorded_key (nextManifest st1') url1 = recorded_key (nextManifest st2') url2).
Proof.
  intros E cfg url1 url2 resolved1 resolved2 response1 response2 st1 st2 st1' st2'
    ctl1 ctl2 H1 H2 type1 type2.
  apply fresh_path_ok in H1.
  destruct H1 as (source1 & p1 & s1 & new1 & Hb1 & Hr1 & Hm1 & Hc1 & _).
  apply fresh_path_ok in H2.
  destruct H2 as (source2 & p2 & s2 & new2 & Hb2 & Hr2 & Hm2 & Hc2 & _).
  fold type1 in Hr1. fold type2 in Hr2.
  rewrite resizeBuffer_unfold in Hr1, Hr2.
  destruct (encoder_for type1) as [[enc1 mime1] ext1] eqn:He1.
  destruct (encoder_for type2) as [[enc2 mime2] ext2] eqn:He2.
  destruct (toBuffer E (String.eqb type1 "image/gif") enc1 source1 st1)
    as [t1 [out1|m1]] eqn:Ht1; [|discriminate].
  destruct (toBuffer E (String.eqb type2 "image/gif") enc2 source2 st2)
    as [t2 [out2|m2]] eqn:Ht2; [|discriminate].
  apply toBuffer_inv in Ht1. destruct Ht1 as [_ Hs1].
  apply toBuffer_inv in Ht2. destruct Ht2 as [_ Hs2].
  inversion Hr1; subst s1 p1; clear Hr1. inversion Hr2; subst s2 p2; clear Hr2.
  unfold stored_key in Hm1, Hm2, Hc1, Hc2. cbn [p_buffer p_ext p_mime] in Hm1, Hm2, Hc1, Hc2.
  assert (K1 : recorded_key (nextManifest st1') url1
               = Some ("img/" ++ sha1_hex E out1 ++ "." ++ ext1)%string).
  { unfold recorded_key. rewrite Hm1, manifest_get_set. reflexivity. }
  assert (K2 : recorded_key (nextManifest st2') url2
               = Some ("img/" ++ sha1_hex E out2 ++ "." ++ ext2)%string).
  { unfold recorded_key. rewrite Hm2, manifest_get_set. reflexivity. }
  exists source1, source2, out1, out2. cbn [fst snd].
  split; [exact Hb1|]. split; [exact Hb2|]. split; [exact Hs1|]. split; [exact Hs2|].
  split; [exact K1|]. split; [exact K2|]. split; [exact Hc1|]. split; [exact Hc2|].
  split.
  - intros Hout Hext. rewrite K1, K2, Hout, Hext. reflexivity.
  - intros Hdisjoint Hout. rewrite K1, K2, Hout. rewrite Hout in Hs1.
    pose proof (Hdisjoint _ _ _ _ _ _ _ _ _ Hs1 Hs2) as Henc.
    pose proof (encoder_for_ext type1 type2) as Hext.
    rewrite He1, He2 in Hext. cbn [fst snd] in Hext. rewrite (Hext Henc). reflexivity.
Qed.

Lemma stored_key_is_digest_of_transcoded_bytes_witness :
  formats_disjoint Demo.healthy
  /\ sharp_toBuffer Demo.healthy (now Demo.start) false Png [Demo.x01]
     = SharpOk [Byte.x89; Demo.x01]
  /\ recorded_key
       (nextManifest (fst (fresh_path Demo.healthy Demo.defaults Demo.src []
                             (Demo.ok_response "image/png") Demo.start))) Demo.src
     = Some "img/2.png"
  /\ recorded_key
       (nextManifest (fst (fresh_path Demo.healthy Demo.defaults Demo.src []
                             (Demo.ok_response "image/png") Demo.start))) Demo.src
     = recorded_key
         (nextManifest (fst (fresh_path Demo.healthy Demo.defaults Demo.src2 []
                               (Demo.ok_response "IMAGE/PNG; q=1") Demo.start))) Demo.src2.
Proof.
  destruct (stored_key_is_digest_of_transcoded_bytes
              Demo.healthy Demo.defaults Demo.src Demo.src2 [] []
              (Demo.ok_response "image/png") (Demo.ok_response "IMAGE/PNG; q=1")
              Demo.start Demo.start
              (fst (fresh_path Demo.healthy Demo.defaults Demo.src []
                      (Demo.ok_response "image/png") Demo.start))
              (fst (fresh_path Demo.healthy Demo.defaults Demo.src2 []
                      (Demo.ok_response "IMAGE/PNG; q=1") Demo.start))
              (CtlBreak ["https://cdn.example/img/2.png"])
              (CtlBreak ["https://cdn.example/img/2.png"])
              eq_refl eq_refl)
    as (source1 & source2 & out1 & out2 & B1 & B2 & S1 & S2 & K1 & _ & _ & _ & _ & H).
  inversion B1; subst source1. inversion B2; subst source2.
  inversion S1; subst out1. inversion S2; subst out2.
  split; [exact demo_formats_disjoint|]. split; [reflexivity|]. split; [exact K1|].
  apply H; [exact demo_formats_disjoint|reflexivity].
Defined.

(** ** Sets and sorting (lines 123, 284-289) *)

Lemma set_has_In (s : list string) (x : string) : JS.set_has s x = true <-> In x s.
Proof.
  unfold JS.set_has. rewrite existsb_exists. split.
  - intros (y & Hy & He). apply String.eqb_eq in He. now subst.
  - intros H. exists x. split; [exact H|apply String.eqb_refl].
Qed.

Lemma fold_set_add (l acc : list string) :
  NoDup acc ->
  NoDup (fold_left JS.set_add l acc)
  /\ forall x, In x (fold_left JS.set_add l acc) <-> In x acc \/ In x l.
Proof.
  revert acc. induction l as [|y l IH]; intros acc Hacc; simpl.
  - split; [exact Hacc|]. intros x. tauto.
  - assert (Hnd : NoDup (JS.set_add acc y)).
    { unfold JS.set_add. destruct (JS.set_has acc y) eqn:Hh; [exact Hacc|].
      apply NoDup_app; [exact Hacc|repeat constructor; simpl; tauto|].
      intros x Hx [Hy|[]]. subst x.
      apply set_has_In in Hx. congruence. }
    destruct (IH _ Hnd) as [H1 H2]. split; [exact H1|].
    intros x. rewrite H2. unfold JS.set_add.
    destruct (JS.set_has acc y) eqn:Hh.
    + apply set_has_In in Hh. split; [intros [H|H]; auto|].
      intros [H|[H|H]]; auto. subst. auto.
    + rewrite in_app_iff. simpl. tauto.
Qed.

Lemma new_Set_NoDup (l : list string) : NoDup (JS.new_Set l).
Proof. apply (fold_set_add l []). constructor. Qed.

Lemma new_Set_In (l : list string) (x : string) : In x (JS.new_Set l) <-> In x l.
Proof.
  unfold JS.new_Set. rewrite (proj2 (fold_set_add l [] (NoDup_nil _))). simpl. tauto.
Qed.

Section Sorting.

Context {A : Type}.
Variable le : A -> A -> bool.
Hypothesis le_total : forall x y, le x y = true \/ le y x = true.
Hypothesis le_trans : forall x y z, le x y = true -> le y z = true -> le x z = true.

Lemma insert_perm (x : A) (l : list A) : Permutation (JS.insert le x l) (x :: l).
Proof.
  induction l as [|y l IH]; simpl; [reflexivity|].
  destruct (le x y); [reflexivity|].
  rewrite IH. apply perm_swap.
Qed.

Lemma sort_perm (l : list A) : Permutation (JS.sort le l) l.
Proof.
  induction l as [|x l IH]; simpl; [reflexivity|].
  unfold JS.sort in *. simpl. rewrite insert_perm. now constructor.
Qed.

Lemma insert_sorted (x : A) (l : list A) :
  StronglySorted (fun a b => le a b = true) l ->
  StronglySorted (fun a b => le a b = true) (JS.insert le x l).
Proof.
  induction 1 as [|y l Hl IH Hy]; simpl.
  - repeat constructor.
  - destruct (le x y) eqn:Hxy.
    + constructor; [constructor; assumption|].
      constructor; [exact Hxy|].
      eapply Forall_impl; [|exact Hy]. intros z Hz. eapply le_trans; eassumption.
    + constructor; [exact IH|].
      assert (Hyx : le y x = true) by (destruct (le_total x y); congruence).
      eapply Permutation_Forall; [symmetry; apply insert_perm|].
      constructor; assumption.
Qed.

Lemma sort_sorted (l : list A) : StronglySorted (fun a b => le a b = true) (JS.sort le l).
Proof.
  induction l as [|x l IH]; [constructor|].
  unfold JS.sort in *. simpl. now apply insert_sorted.
Qed.

End Sorting.

(** The order of code units on strings. *)

Lemma ascii_compare_refl (a : ascii) : Ascii.compare a a = Eq.
Proof. unfold Ascii.compare. apply N.compare_refl. Qed.

Lemma ascii_compare_lt_trans (a b c : ascii) :
  Ascii.compare a b = Lt -> Ascii.compare b c = Lt -> Ascii.compare a c = Lt.
Proof.
  unfold Ascii.compare. rewrite !N.compare_lt_iff. apply N.lt_trans.
Qed.

Lemma string_compare_refl (s : string) : String.compare s s = Eq.
Proof. induction s as [|a s IH]; simpl; [reflexivity|]. now rewrite ascii_compare_refl. Qed.

Lemma string_compare_lt_trans (s1 s2 s3 : string) :
  String.compare s1 s2 = Lt -> String.compare s2 s3 = Lt -> String.compare s1 s3 = Lt.
Proof.
  revert s2 s3. induction s1 as [|a s1 IH]; intros [|b s2] [|c s3]; simpl;
    try discriminate; try reflexivity.
  destruct (Ascii.compare a b) eqn:Hab; try discriminate;
    destruct (Ascii.compare b c) eqn:Hbc; try discriminate.
  - apply Ascii.compare_eq_iff in Hab, Hbc. subst. rewrite ascii_compare_refl. apply IH.
  - apply Ascii.compare_eq_iff in Hab. subst. now rewrite Hbc.
  - apply Ascii.compare_eq_iff in Hbc. subst. now rewrite Hab.
  - now rewrite (ascii_compare_lt_trans _ _ _ Hab Hbc).
Qed.

Lemma string_leb_cases (s1 s2 : string) :
  String.leb s1 s2 = true <-> String.compare s1 s2 = Lt \/ s1 = s2.
Proof.
  unfold String.leb. split.
  - destruct (String.compare s1 s2) eqn:Hc; try discriminate; intros _.
    + right. now apply String.compare_eq_iff.
    + now left.
  - intros [H| ->]; [now rewrite H|now rewrite string_compare_refl].
Qed.

Lemma string_leb_trans (s1 s2 s3 : string) :
  String.leb s1 s2 = true -> String.leb s2 s3 = true -> String.leb s1 s3 = true.
Proof.
  rewrite !string_leb_cases. intros [H1| ->] [H2| ->]; auto.
  left. eapply string_compare_lt_trans; eassumption.
Qed.

Lemma sort_default_sorted (l : list string) :
  StronglySorted (fun a b => String.leb a b = true) (JS.sort_default l).
Proof. apply sort_sorted; [apply String.leb_total|apply string_leb_trans]. Qed.

Lemma sort_default_perm (l : list string) : Permutation (JS.sort_default l) l.
Proof. apply sort_perm. Qed.

Lemma compare_code_units_le (a b : string) :
  Demo.compare_code_units a b <= 0 <-> String.leb a b = true.
Proof.
  unfold Demo.compare_code_units, String.leb.
  destruct (String.compare a b); split; intros H; try reflexivity; try lia; discriminate.
Qed.

Lemma compare_code_units_total (a b : string) :
  Demo.compare_code_units a b <= 0 \/ Demo.compare_code_units b a <= 0.
Proof. rewrite !compare_code_units_le. apply String.leb_total. Qed.

Lemma compare_code_units_trans (a b c : string) :
  Demo.compare_code_units a b <= 0 -> Demo.compare_code_units b c <= 0 ->
  Demo.compare_code_units a c <= 0.
Proof. rewrite !compare_code_units_le. apply string_leb_trans. Qed.

Lemma processOffer_loop (E : Env) (cfg : Config) (previousManifest : Manifest)
    (entry : Entry) (st : State) :
  JS.nonempty (offerId entry) = true ->
  uniqueUrls (urls entry) <> [] ->
  fst (processOffer E cfg previousManifest entry st)
  = fst (fold_left (process_url E cfg previousManifest) (uniqueUrls (urls entry)) (st, [])).
Proof.
  intros Hid Hu. unfold processOffer. rewrite Hid.
  destruct (urls entry) as [|u us] eqn:Hurls; [now elim Hu|].
  cbn [negb orb List.length Nat.eqb].
  destruct (uniqueUrls (u :: us)) as [|x xs] eqn:Hx; [now elim Hu|].
  cbn [List.length Nat.eqb].
  destruct (fold_left _ (x :: xs) (st, [])) as [st' resolved'].
  destruct (negb _); reflexivity.
Qed.

(** C8: the URLs an entry is processed for are its trimmed, non-empty
    candidates, each taken once, and the procedure runs its loop once per
    such URL.  Whatever the order in which the results were appended, the
    final list is ordered by identifier (as [localeCompare] orders them) and
    holds the same identifiers, and the URLs of each of its entries are
    without duplicates and in lexicographic order. *)
Theorem entries_deduplicated_and_output_sorted :
  forall (E : Env) (cfg : Config) (previousManifest : Manifest) (entry : Entry)
         (st : State) (offerResults : list Entry),
    (forall a b, localeCompare E a b <= 0 \/ localeCompare E b a <= 0) ->
    (forall a b c, localeCompare E a b <= 0 -> localeCompare E b c <= 0 ->
                   localeCompare E a c <= 0) ->
    NoDup (uniqueUrls (urls entry))
    /\ (forall u, In u (uniqueUrls (urls entry))
                  <-> In u (filter JS.nonempty (map JS.trim (urls entry))))
    /\ (JS.nonempty (offerId entry) = true ->
        uniqueUrls (urls entry) <> [] ->
        fst (processOffer E cfg previousManifest entry st)
        = fst (fold_left (process_url E cfg previousManifest)
                 (uniqueUrls (urls entry)) (st, [])))
    /\ forall completed,
         Permutation offerResults completed ->
         StronglySorted (fun a b => localeCompare E (offerId a) (offerId b) <= 0)
           (sortedOffers E completed)
         /\ Permutation (map offerId (sortedOffers E completed)) (map offerId offerResults)
         /\ Forall (fun o => NoDup (urls o)
                             /\ StronglySorted (fun a b => String.leb a b = true) (urls o))
              (sortedOffers E completed).
Proof.
  intros E cfg previousManifest entry st offerResults Htotal Htrans.
  split; [apply new_Set_NoDup|]. split; [intros u; apply new_Set_In|].
  split; [apply processOffer_loop|].
  intros completed Hperm.
  set (normal := fun o => mkEntry (offerId o) (JS.sort_default (JS.Array_from_Set (urls o)))).
  assert (Hsorted : StronglySorted (fun a b => offer_le E a b = true)
                      (sortedOffers E completed)).
  { apply sort_sorted.
    - intros x y. unfold offer_le. rewrite !Z.leb_le. apply Htotal.
    - intros x y z. unfold offer_le. rewrite !Z.leb_le. apply Htrans. }
  assert (Hp : Permutation (sortedOffers E completed) (map normal completed)).
  { apply sort_perm. }
  split; [|split].
  - clear -Hsorted. induction Hsorted as [|o l Hl IH Ho]; constructor; [exact IH|].
    eapply Forall_impl; [|exact Ho]. intros b Hb. unfold offer_le in Hb.
    now apply Z.leb_le in Hb.
  - rewrite Hp, map_map. simpl. now apply Permutation_map, Permutation_sym.
  - eapply Permutation_Forall; [symmetry; exact Hp|].
    apply Forall_forall. intros o Ho. apply in_map_iff in Ho.
    destruct Ho as (o' & <- & _). simpl. split.
    + eapply Permutation_NoDup; [symmetry; apply sort_default_perm|apply new_Set_NoDup].
    + apply sort_default_sorted.
Qed.

Lemma entries_deduplicated_and_output_sorted_witness :
  NoDup (uniqueUrls [Demo.src; (" " ++ Demo.src)%string; Demo.src2])
  /\ sortedOffers Demo.healthy
       [mkEntry "b" ["https://cdn.example/img/7.png"; "https://cdn.example/img/2.png";
                     "https://cdn.example/img/7.png"];
        mkEntry "a" ["https://cdn.example/img/2.png"]]
     = [mkEntry "a" ["https://cdn.example/img/2.png"];
        mkEntry "b" ["https://cdn.example/img/2.png"; "https://cdn.example/img/7.png"]]
  /\ StronglySorted
       (fun a b => localeCompare Demo.healthy (offerId a) (offerId b) <= 0)
       (sortedOffers Demo.healthy
          [mkEntry "b" ["https://cdn.example/img/7.png"; "https://cdn.example/img/2.png";
                        "https://cdn.example/img/7.png"];
           mkEntry "a" ["https://cdn.example/img/2.png"]]).
Proof.
  pose proof (entries_deduplicated_and_output_sorted
                Demo.healthy Demo.defaults []
                (mkEntry "A1" [Demo.src; (" " ++ Demo.src)%string; Demo.src2]) Demo.start
                [mkEntry "a" ["https://cdn.example/img/2.png"];
                 mkEntry "b" ["https://cdn.example/img/7.png"; "https://cdn.example/img/2.png";
                              "https://cdn.example/img/7.png"]]
                compare_code_units_total compare_code_units_trans) as (H1 & _ & _ & H4).
  split; [exact H1|]. split; [reflexivity|].
  refine (proj1 (H4 _ _)). apply perm_swap.
Defined.

(** ** Canonical form of the manifest (lines 107-116, 291-306) *)

Lemma distinct_NoDup (l : list string) : distinct l = true <-> NoDup l.
Proof.
  induction l as [|x l IH]; simpl.
  - split; [constructor|reflexivity].
  - rewrite andb_true_iff, negb_true_iff, IH. split.
    + intros [Hx Hl]. constructor; [|exact Hl].
      intros Hin. apply set_has_In in Hin. unfold JS.set_has in Hin. congruence.
    + intros H. inversion H as [|y l' Hx Hl]; subst. split; [|exact Hl].
      destruct (existsb (String.eqb x) l) eqn:He; [|reflexivity].
      elim Hx. now apply set_has_In.
Qed.

Lemma obj_get_In (props : list (string * value)) (k : string) (v : value) :
  obj_get props k = Some v -> In (k, v) props.
Proof.
  induction props as [|[k' v'] props IH]; simpl; [discriminate|].
  destruct (String.eqb_spec k' k) as [->|Hk].
  - intros H; inversion H; subst. now left.
  - intros H. right. now apply IH.
Qed.

Lemma In_obj_get (props : list (string * value)) (k : string) (v : value) :
  NoDup (map fst props) -> In (k, v) props -> obj_get props k = Some v.
Proof.
  induction props as [|[k' v'] props IH]; simpl; [tauto|].
  intros Hnd [H|H].
  - inversion H; subst. now rewrite String.eqb_refl.
  - inversion Hnd as [|x l Hx Hl]; subst.
    destruct (String.eqb_spec k' k) as [->|Hk].
    + elim Hx. apply in_map_iff. exists (k, v). split; [reflexivity|exact H].
    + now apply IH.
Qed.

Lemma obj_set_fresh (props : list (string * value)) (k : string) (v : value) :
  ~ In k (map fst props) -> obj_set props k v = props ++ [(k, v)].
Proof.
  induction props as [|[k' v'] props IH]; simpl; [reflexivity|].
  intros Hk. destruct (String.eqb_spec k' k) as [->|Hne]; [tauto|].
  rewrite IH; [reflexivity|tauto].
Qed.

(** Assigning distinct new keys in turn appends them in that order. *)
Lemma fold_obj_set (f : string -> value) (ks : list string) (acc : list (string * value)) :
  NoDup ks ->
  (forall k, In k ks -> ~ In k (map fst acc)) ->
  fold_left (fun a k => obj_set a k (f k)) ks acc = acc ++ map (fun k => (k, f k)) ks.
Proof.
  revert acc. induction ks as [|k ks IH]; intros acc Hnd Hfresh; simpl.
  - now rewrite app_nil_r.
  - inversion Hnd as [|x l Hk Hks]; subst.
    rewrite obj_set_fresh by (apply Hfresh; now left).
    rewrite IH; [now rewrite <- app_assoc|exact Hks|].
    intros k' Hk'. rewrite map_app, in_app_iff. simpl.
    intros [H|[H|[]]].
    + apply (Hfresh k'); [now right|exact H].
    + subst. tauto.
Qed.

Lemma sortObjectDeep_object (props : list (string * value)) :
  NoDup (map fst props) ->
  sortObjectDeep (VObject props)
  = VObject (map (fun k => (k, obj_get_or_undefined
                                 (map (fun kv => (fst kv, sortObjectDeep (snd kv))) props) k))
               (JS.sort_default (Object_keys props))).
Proof.
  intros Hnd. cbn [sortObjectDeep]. f_equal.
  rewrite fold_obj_set; [reflexivity| |intros k _ []].
  eapply Permutation_NoDup; [symmetry; apply sort_default_perm|exact Hnd].
Qed.

Lemma sorted_lookup (props : list (string * value)) (k : string) (v : value) :
  NoDup (map fst props) ->
  In (k, v) props ->
  obj_get_or_undefined (map (fun kv => (fst kv, sortObjectDeep (snd kv))) props) k
  = sortObjectDeep v.
Proof.
  intros Hnd Hin. unfold obj_get_or_undefined.
  rewrite (In_obj_get _ k (sortObjectDeep v)); [reflexivity| |].
  - now rewrite map_map.
  - apply in_map_iff. exists (k, v). split; [reflexivity|exact Hin].
Qed.

Lemma string_ltb_leb (x y : string) :
  String.leb x y = true -> x <> y -> String.ltb x y = true.
Proof.
  rewrite string_leb_cases. unfold String.ltb. intros [H|H] Hne; [now rewrite H|contradiction].
Qed.

Lemma ascending_sorted (l : list string) :
  StronglySorted (fun a b => String.leb a b = true) l -> NoDup l -> ascending l = true.
Proof.
  induction 1 as [|x l Hl IH Hx]; intros Hnd; [reflexivity|].
  inversion Hnd as [|x' l' Hnin Hnd']; subst.
  destruct l as [|y l]; [reflexivity|].
  change (String.ltb x y && ascending (y :: l) = true).
  rewrite IH by exact Hnd'. rewrite andb_true_r.
  inversion Hx as [|y' l' Hxy _]; subst.
  apply string_ltb_leb; [exact Hxy|]. intros ->. apply Hnin. now left.
Qed.

(** A list has one sorted arrangement only. *)
Lemma sorted_unique (l1 l2 : list string) :
  StronglySorted (fun a b => String.leb a b = true) l1 ->
  StronglySorted (fun a b => String.leb a b = true) l2 ->
  Permutation l1 l2 -> l1 = l2.
Proof.
  intros H1. revert l2. induction H1 as [|x l1 Hl1 IH Hx]; intros l2 H2 Hp.
  - apply Permutation_nil in Hp. now subst.
  - destruct H2 as [|y l2 Hl2 Hy].
    + symmetry in Hp. apply Permutation_nil in Hp. discriminate.
    + assert (Hxy : x = y).
      { assert (Hin1 : In x (y :: l2)) by (eapply Permutation_in; [exact Hp|now left]).
        assert (Hin2 : In y (x :: l1))
          by (eapply Permutation_in; [symmetry; exact Hp|now left]).
        destruct Hin1 as [->|Hin1]; [reflexivity|].
        destruct Hin2 as [->|Hin2]; [reflexivity|].
        rewrite Forall_forall in Hx, Hy.
        apply String.leb_antisym; [apply Hx, Hin2|apply Hy, Hin1]. }
      subst y. f_equal. apply IH; [exact Hl2|].
      eapply Permutation_cons_inv; exact Hp.
Qed.

Lemma sort_default_of_permutation (l1 l2 : list string) :
  Permutation l1 l2 -> JS.sort_default l1 = JS.sort_default l2.
Proof.
  intros Hp. apply sorted_unique; try apply sort_default_sorted.
  rewrite !sort_default_perm. exact Hp.
Qed.

Lemma plain_object (props : list (string * value)) :
  plain (VObject props) = true ->
  NoDup (map fst props) /\ Forall (fun kv => plain (snd kv) = true) props.
Proof.
  cbn [plain]. rewrite !andb_true_iff. intros [[Hd _] Hp]. split.
  - now apply distinct_NoDup.
  - apply Forall_forall. rewrite forallb_forall in Hp. exact Hp.
Qed.

Lemma key_has_value (props : list (string * value)) (k : string) :
  In k (map fst props) -> exists v, In (k, v) props.
Proof.
  intros H. apply in_map_iff in H. destruct H as ([k' v] & Hk & Hin).
  simpl in Hk. subst. now exists v.
Qed.

(** Every object of the sorted value lists its keys in ascending order. *)
Lemma sortObjectDeep_keys_sorted (v : value) :
  plain v = true -> keys_sorted (sortObjectDeep v) = true.
Proof.
  induction v as [| | | | |items IH|props IH] using value_induction; try reflexivity.
  - cbn [plain sortObjectDeep keys_sorted]. rewrite !forallb_forall.
    intros Hp x Hx. apply in_map_iff in Hx. destruct Hx as (y & <- & Hy).
    rewrite Forall_forall in IH. apply IH; [exact Hy|apply Hp, Hy].
  - intros Hp. destruct (plain_object _ Hp) as [Hnd Hpl].
    rewrite (sortObjectDeep_object _ Hnd). cbn [keys_sorted].
    rewrite map_map. cbn [fst]. rewrite map_id. apply andb_true_iff. split.
    + apply ascending_sorted; [apply sort_default_sorted|].
      eapply Permutation_NoDup; [symmetry; apply sort_default_perm|exact Hnd].
    + rewrite forallb_forall. intros kv Hkv. apply in_map_iff in Hkv.
      destruct Hkv as (k & <- & Hk). cbn [snd].
      assert (Hk' : In k (map fst props)).
      { eapply Permutation_in; [apply sort_default_perm|exact Hk]. }
      destruct (key_has_value _ _ Hk') as (v & Hv).
      rewrite (sorted_lookup _ _ _ Hnd Hv).
      rewrite Forall_forall in IH, Hpl.
      apply (IH (k, v) Hv), (Hpl (k, v) Hv).
Qed.

Lemma Forall2_fst (ps qs : list (string * value)) (R : value -> value -> Prop) :
  Forall2 (fun p q => fst p = fst q /\ R (snd p) (snd q)) ps qs ->
  map fst ps = map fst qs.
Proof. induction 1 as [|p q ps qs [Hk _] _ IH]; simpl; congruence. Qed.

Lemma Forall2_partner (ps qs : list (string * value)) (R : value -> value -> Prop)
    (k : string) (v : value) :
  Forall2 (fun p q => fst p = fst q /\ R (snd p) (snd q)) ps qs ->
  In (k, v) ps -> exists w, In (k, w) qs /\ R v w.
Proof.
  induction 1 as [|p q ps qs [Hk Hr] _ IH]; simpl; [tauto|].
  intros [H|H].
  - subst p. destruct q as [k' w]. simpl in *. subst k'. exists w. split; [now left|exact Hr].
  - destruct (IH H) as (w & Hw & Hr'). exists w. split; [now right|exact Hr'].
Qed.

(** Two values with the same content have the same sorted form. *)
Lemma sortObjectDeep_canonical (v1 : value) :
  forall v2, plain v1 = true -> plain v2 = true -> same_content v1 v2 ->
             sortObjectDeep v1 = sortObjectDeep v2.
Proof.
  induction v1 as [| | | | |items IH|props IH] using value_induction;
    intros v2 Hp1 Hp2 Hs; inversion Hs; subst; try reflexivity.
  - (* arrays *)
    cbn [sortObjectDeep]. f_equal.
    cbn [plain] in Hp1, Hp2. rewrite forallb_forall in Hp1, Hp2.
    rewrite Forall_forall in IH.
    match goal with H : Forall2 same_content _ _ |- _ => rename H into HF end.
    clear Hs. induction HF as [|x y xs ys Hxy _ IHF]; [reflexivity|].
    simpl. f_equal.
    + apply IH; [now left|apply Hp1; now left|apply Hp2; now left|exact Hxy].
    + apply IHF; intros; [apply IH|apply Hp1|apply Hp2]; simpl; auto.
  - (* objects *)
    match goal with
    | Hperm : Permutation props ?ps', HF : Forall2 _ ?ps' ?qs |- _ =>
        rename Hperm into Hpm; rename HF into Hf2; rename ps' into mid; rename qs into other
    end.
    destruct (plain_object _ Hp1) as [Hnd1 Hpl1].
    destruct (plain_object _ Hp2) as [Hnd2 Hpl2].
    rewrite (sortObjectDeep_object _ Hnd1), (sortObjectDeep_object _ Hnd2).
    assert (Hkeys : Permutation (Object_keys props) (Object_keys other)).
    { unfold Object_keys. rewrite <- (Forall2_fst _ _ _ Hf2). now apply Permutation_map. }
    rewrite <- (sort_default_of_permutation _ _ Hkeys). f_equal.
    apply map_ext_in. intros k Hk. f_equal.
    assert (Hk' : In k (map fst props)).
    { eapply Permutation_in; [apply sort_default_perm|exact Hk]. }
    destruct (key_has_value _ _ Hk') as (v & Hv).
    assert (Hmid : In (k, v) mid) by (eapply Permutation_in; eassumption).
    destruct (Forall2_partner _ _ _ _ _ Hf2 Hmid) as (w & Hw & Hvw).
    rewrite (sorted_lookup _ _ _ Hnd1 Hv), (sorted_lookup _ _ _ Hnd2 Hw).
    rewrite Forall_forall in IH, Hpl1, Hpl2.
    apply (IH (k, v) Hv); [apply (Hpl1 (k, v) Hv)|apply (Hpl2 (k, w) Hw)|exact Hvw].
Qed.

Lemma object_by_keys (props : list (string * value)) (ks : list string) :
  NoDup (map fst props) ->
  Permutation (map fst props) ks ->
  Permutation props (map (fun k => (k, obj_get_or_undefined props k)) ks).
Proof.
  intros Hnd Hp.
  assert (Hself : map (fun k => (k, obj_get_or_undefined props k)) (map fst props) = props).
  { rewrite map_map. rewrite <- (map_id props) at 2. apply map_ext_in.
    intros [k v] Hin. unfold obj_get_or_undefined. cbn [fst].
    now rewrite (In_obj_get _ _ _ Hnd Hin). }
  rewrite <- Hself at 1. now apply Permutation_map.
Qed.

(** Sorting keeps the content. *)
Lemma sortObjectDeep_same_content (v : value) :
  plain v = true -> same_content v (sortObjectDeep v).
Proof.
  induction v as [| | | | |items IH|props IH] using value_induction;
    try (intros _; apply same_refl).
  - cbn [plain sortObjectDeep]. rewrite forallb_forall. intros Hp.
    apply same_array. induction items as [|x items IHi]; [constructor|].
    inversion IH as [|x' l' Hx Hitems]; subst. simpl. constructor.
    + apply Hx, Hp. now left.
    + apply IHi; [exact Hitems|]. intros y Hy. apply Hp. now right.
  - intros Hp. destruct (plain_object _ Hp) as [Hnd Hpl].
    rewrite (sortObjectDeep_object _ Hnd).
    assert (Hks : Permutation (map fst props) (JS.sort_default (Object_keys props))).
    { symmetry. apply sort_default_perm. }
    eapply same_object; [exact (object_by_keys _ _ Hnd Hks)|].
    assert (Hin : forall k, In k (JS.sort_default (Object_keys props)) ->
                            In k (map fst props)).
    { intros k Hk. eapply Permutation_in; [symmetry; exact Hks|exact Hk]. }
    clear Hks.
    induction (JS.sort_default (Object_keys props)) as [|k ks IHk]; [constructor|].
    simpl. constructor.
    + cbn [fst snd]. split; [reflexivity|].
      destruct (key_has_value _ _ (Hin k (or_introl eq_refl))) as (v & Hv).
      rewrite (sorted_lookup _ _ _ Hnd Hv). unfold obj_get_or_undefined.
      rewrite (In_obj_get _ _ _ Hnd Hv).
      rewrite Forall_forall in IH, Hpl.
      apply (IH (k, v) Hv), (Hpl (k, v) Hv).
    + apply IHk. intros k' Hk'. apply Hin. now right.
Qed.

Lemma manifestChanged_iff (stringify : value -> string) (previousManifest nextManifest : value) :
  manifestChanged stringify previousManifest nextManifest = true
  <-> stringify (sortObjectDeep nextManifest) <> stringify (sortObjectDeep previousManifest).
Proof.
  unfold manifestChanged, manifestString. rewrite negb_true_iff. apply String.eqb_neq.
Qed.

(** C6: for manifests whose objects have ordinary, distinct keys, the
    serialised form is that of a value with the same content in which every
    object, the manifest itself and each record in it, lists its keys in
    ascending lexicographic order; two manifests with the same content have
    the same serialised form; and the manifest is sent to the store exactly
    when its serialised form differs from that of the previous manifest. *)
Theorem manifest_form_is_canonical_and_mirrored_iff_changed :
  forall (E : Env) (JSON_stringify : value -> string) (offerResults : list Entry)
         (previousManifest nextManifest : value),
    plain previousManifest = true ->
    plain nextManifest = true ->
    keys_sorted (sortObjectDeep nextManifest) = true
    /\ same_content nextManifest (sortObjectDeep nextManifest)
    /\ (forall other,
           plain other = true -> same_content nextManifest other ->
           manifestString JSON_stringify other = manifestString JSON_stringify nextManifest)
    /\ (forall body,
           In (PutManifestToR2 body)
              (main_finish E JSON_stringify offerResults previousManifest nextManifest)
           <-> body = JSON_stringify (sortObjectDeep nextManifest)
               /\ JSON_stringify (sortObjectDeep nextManifest)
                  <> JSON_stringify (sortObjectDeep previousManifest))
    /\ (same_content previousManifest nextManifest ->
        main_finish E JSON_stringify offerResults previousManifest nextManifest
        = [ FileWrite LOCAL_R2_MANIFEST_PATH
              (JSON_stringify (offers_value (sortedOffers E offerResults)));
            FileWrite LOCAL_IMAGE_MANIFEST_PATH (JSON_stringify (sortObjectDeep nextManifest)) ]).
Proof.
  intros E JSON_stringify offerResults previousManifest nextManifest Hprev Hnext.
  split; [now apply sortObjectDeep_keys_sorted|].
  split; [now apply sortObjectDeep_same_content|].
  split; [|split].
  - intros other Hother Hsame. unfold manifestString. f_equal. symmetry.
    now apply sortObjectDeep_canonical.
  - intros body. unfold main_finish.
    rewrite in_app_iff. cbn [In].
    destruct (manifestChanged JSON_stringify previousManifest nextManifest) eqn:Hc.
    + apply manifestChanged_iff in Hc. cbn [In]. unfold manifestString. split.
      * intros [[H|[H|[]]]|[H|[]]]; try discriminate. inversion H. split; [reflexivity|exact Hc].
      * intros [-> _]. right. now left.
    + split.
      * intros [[H|[H|[]]]|[]]; discriminate.
      * intros [_ Hne]. apply manifestChanged_iff in Hne. congruence.
  - intros Hsame. unfold main_finish.
    replace (manifestChanged JSON_stringify previousManifest nextManifest) with false.
    + rewrite app_nil_r. reflexivity.
    + symmetry. unfold manifestChanged, manifestString.
      rewrite (sortObjectDeep_canonical _ _ Hprev Hnext Hsame), String.eqb_refl. reflexivity.
Qed.

Lemma manifest_form_is_canonical_and_mirrored_iff_changed_witness :
  plain Demo.read_back = true
  /\ plain Demo.written = true
  /\ sortObjectDeep Demo.written = Demo.read_back
  /\ keys_sorted (sortObjectDeep Demo.written) = true
  /\ same_content Demo.written (sortObjectDeep Demo.written).
Proof.
  split; [reflexivity|]. split; [reflexivity|]. split; [reflexivity|].
  destruct (manifest_form_is_canonical_and_mirrored_iff_changed
              Demo.healthy Demo.print [] Demo.read_back Demo.written eq_refl eq_refl)
    as (H1 & H2 & _).
  split; [exact H1|exact H2].
Defined.

(** A manifest read back unchanged is not sent to the store again. *)
Example unchanged_manifest_is_not_mirrored :
  main_finish Demo.healthy Demo.print [] Demo.read_back Demo.written
  = [ FileWrite "public/manifest-r2.json" "[]";
      FileWrite "public/images-manifest.json"
        (Demo.print Demo.read_back) ].
Proof. reflexivity. Qed.

(** * Further properties *)

(** ** What one URL can do to the shared state (lines 128-214) *)

Lemma manifest_get_set_other (m : Manifest) (k k' : string) (v : ManifestRecord) :
  k' <> k -> manifest_get (manifest_set m k v) k' = manifest_get m k'.
Proof.
  intros Hne. induction m as [|[k0 v0] m IH]; simpl.
  - destruct (String.eqb_spec k k'); [congruence|reflexivity].
  - destruct (String.eqb_spec k0 k) as [->|H0]; simpl.
    + destruct (String.eqb_spec k k'); [congruence|reflexivity].
    + destruct (String.eqb_spec k0 k'); [reflexivity|exact IH].
Qed.

Lemma stored_key_truthy (E : Env) (p : Processed) :
  truthy_key (Some (stored_key E p)) = Some (stored_key E p).
Proof. reflexivity. Qed.

Lemma manifest_key_set (m : Manifest) (url : string) (r : ManifestRecord) :
  manifest_key (manifest_set m url r) url = truthy_key (r2Key r).
Proof. unfold manifest_key. now rewrite manifest_get_set. Qed.

(** An attempt that ends with [break] has resolved the URL. *)
Lemma try_block_break (E : Env) (cfg : Config) (url : string) (prevMeta : ManifestRecord)
    (c : bool) (resolved resolved' : list string) (st st' : State) :
  try_block E cfg url prevMeta c resolved st = (st', Ok (CtlBreak resolved')) ->
  resolves cfg url st resolved st' resolved'.
Proof.
  destruct (fetch E (now st) url (request_headers prevMeta c)) as [m|response] eqn:Hf.
  - rewrite (try_block_rejected _ _ _ _ _ _ _ _ Hf). discriminate.
  - rewrite (try_block_response _ _ _ _ _ _ _ _ Hf). cbv zeta.
    destruct (Z.eqb (status response) 304).
    + destruct (truthy_key (r2Key prevMeta)) as [key|] eqn:Hk; [|discriminate].
      intros H; inversion H; subst; clear H. exists key.
      unfold set_manifest, incr_reused304, emit, served; simpl.
      split; [reflexivity|]. split; [now rewrite manifest_key_set|].
      split; [intros u Hu; now apply manifest_get_set_other|].
      split; [reflexivity|lia].
    + destruct (negb (response_ok response)); [discriminate|].
      intros H. apply fresh_path_ok in H.
      destruct H as (source & p & st1 & new & _ & _ & Hm & Hc & Hsk & H304 & Hup & _).
      inversion Hc; subst resolved'. exists (stored_key E p).
      split; [reflexivity|]. rewrite Hm. simpl.
      split; [now rewrite manifest_key_set|].
      split; [intros u Hu; now apply manifest_get_set_other|].
      split; [exact Hsk|]. unfold served. simpl in *. lia.
Qed.

(** The loop either resolves the URL, without an error left, or leaves the
    manifest, the counters and the resolved URLs as they were. *)
Lemma attempt_loop_outcome (E : Env) (cfg : Config) (url : string) (prevMeta : ManifestRecord)
    (resolved : list string) (n : nat) :
  forall (c : bool) (e : option string) (st st' : State) (resolved' : list string)
         (err : option string),
    attempt_loop E cfg url prevMeta n c e resolved st = (st', resolved', err) ->
    (err = None /\ resolves cfg url st resolved st' resolved')
    \/ (resolved' = resolved /\ nextManifest st' = nextManifest st /\ stats st' = stats st).
Proof.
  induction n as [|r IH]; intros c e st st' resolved' err.
  - simpl. intros H; inversion H; subst. right. repeat split.
  - rewrite attempt_loop_S.
    destruct (iteration E cfg url prevMeta (max_attempts cfg - r) c resolved st)
      as [s1 r1 e1|s1 c1 e1] eqn:Hi.
    + intros H; inversion H; subst; clear H. unfold iteration in Hi.
      destruct (try_block E cfg url prevMeta c resolved st) as [s2 [[res|]|message]] eqn:Ht.
      * inversion Hi; subst. left. split; [reflexivity|]. now apply try_block_break in Ht.
      * discriminate.
      * destruct (Nat.leb (max_attempts cfg) (max_attempts cfg - r)); [|discriminate].
        inversion Hi; subst. apply try_block_throw in Ht. destruct Ht as [Hm Hs].
        right. repeat split; assumption.
    + intros H. pose proof (iteration_again_frame _ _ _ _ _ _ _ _ _ _ _ Hi) as [Hm Hs].
      destruct (IH _ _ _ _ _ _ H) as [[He Hres]|(Hr & Hm' & Hs')].
      * left. split; [exact He|].
        destruct Hres as (key & H1 & H2 & H3 & H4 & H5). exists key.
        repeat split; try assumption.
        -- intros u Hu. rewrite (H3 u Hu). now rewrite Hm.
        -- now rewrite H4, Hs.
        -- now rewrite H5, Hs.
      * right. repeat split; congruence.
Qed.

(** The four ways in which the processing of one URL can end. *)
Lemma process_url_cases :
  forall (E : Env) (cfg : Config) (previousManifest : Manifest) (url : string)
         (st : State) (resolved : list string),
    let after := process_url E cfg previousManifest (st, resolved) url in
    (exists key,
        manifest_key (nextManifest st) url = Some key
        /\ after = (st, resolved ++ [public_url cfg key]))
    \/ (manifest_key (nextManifest st) url = None
        /\ resolves cfg url st resolved (fst after) (snd after))
    \/ (manifest_key (nextManifest st) url = None
        /\ snd after = resolved
        /\ nextManifest (fst after) = nextManifest st
        /\ stats (fst after)
           = mkStats (uploaded (stats st)) (reused304 (stats st))
               (reusedExisting (stats st)) (S (skipped (stats st)))
        /\ exists message earlier,
             trace (fst after) = EvWarn ("Skip " ++ url ++ ": " ++ message) :: earlier)
    \/ (manifest_key (nextManifest st) url = None
        /\ snd after = resolved
        /\ nextManifest (fst after) = nextManifest st
        /\ stats (fst after) = stats st).
Proof.
  intros E cfg previousManifest url st resolved after. subst after.
  unfold process_url, resolved_key.
  destruct (manifest_key (nextManifest st) url) as [key|] eqn:Hk.
  - left. exists key. split; reflexivity.
  - right. unfold fetch_and_store.
    destruct (attempt_loop E cfg url (prevMeta_of previousManifest st url) (max_attempts cfg)
                (JS.truthy (etag (prevMeta_of previousManifest st url))
                 || JS.truthy (lastModified (prevMeta_of previousManifest st url)))
                None resolved st) as [[st' resolved'] err] eqn:Hloop.
    destruct (attempt_loop_outcome _ _ _ _ _ _ _ _ _ _ _ _ Hloop)
      as [[-> Hres]|(-> & Hm & Hs)].
    + left. split; [reflexivity|exact Hres].
    + right. destruct err as [message|].
      * left. split; [reflexivity|]. simpl. split; [reflexivity|].
        split; [exact Hm|]. split; [now rewrite Hs|].
        exists message, (trace st'). reflexivity.
      * right. repeat split; assumption.
Qed.

(** An attempt that ends with [continue] was answered 304 for a record
    without a stored key. *)
Lemma try_block_continue (E : Env) (cfg : Config) (url : string) (prevMeta : ManifestRecord)
    (c : bool) (resolved : list string) (st st' : State) :
  try_block E cfg url prevMeta c resolved st = (st', Ok CtlContinue) ->
  (exists response,
      fetch E (now st) url (request_headers prevMeta c) = FetchResponse response
      /\ status response = 304)
  /\ truthy_key (r2Key prevMeta) = None
  /\ st' = emit (EvFetch url (request_headers prevMeta c)) st.
Proof.
  destruct (fetch E (now st) url (request_headers prevMeta c)) as [m|response] eqn:Hf.
  - rewrite (try_block_rejected _ _ _ _ _ _ _ _ Hf). discriminate.
  - rewrite (try_block_response _ _ _ _ _ _ _ _ Hf). cbv zeta.
    destruct (Z.eqb_spec (status response) 304) as [H304|H304].
    + destruct (truthy_key (r2Key prevMeta)); [discriminate|].
      intros H; inversion H; subst. split; [now exists response|]. split; reflexivity.
    + destruct (negb (response_ok response)); [discriminate|].
      intros H. apply fresh_path_ok in H.
      destruct H as (? & ? & ? & ? & _ & _ & _ & Hc & _). discriminate.
Qed.

(** The loop is decided by one attempt: an attempt that ends with [break],
    or the last attempt the budget allows. *)
Lemma attempt_loop_decided (E : Env) (cfg : Config) (url : string) (prevMeta : ManifestRecord)
    (resolved : list string) (n : nat) :
  forall (c : bool) (e : option string) (st : State),
  exists (r : nat) (c' : bool) (e' : option string) (s s' : State) (res : Result Control),
    reaches E cfg url prevMeta resolved (mkLoop (S n) c e st) (mkLoop (S r) c' e' s)
    /\ try_block E cfg url prevMeta c' resolved s = (s', res)
    /\ match res with
       | Ok (CtlBreak resolved') =>
           attempt_loop E cfg url prevMeta (S n) c e resolved st = (s', resolved', None)
       | Ok CtlContinue =>
           r = O
           /\ attempt_loop E cfg url prevMeta (S n) c e resolved st = (s', resolved, None)
       | Throw message =>
           r = O
           /\ attempt_loop E cfg url prevMeta (S n) c e resolved st
              = (s', resolved, Some message)
       end.
Proof.
  induction n as [|n IH]; intros c e st.
  - destruct (try_block E cfg url prevMeta c resolved st) as [s' res] eqn:Ht.
    exists O, c, e, st, s', res. split; [apply reaches_here|]. split; [exact Ht|].
    rewrite attempt_loop_S. unfold iteration. rewrite Ht, last_attempt_number.
    destruct res as [[resolved'|]|message]; [reflexivity|split; reflexivity..].
  - destruct (iteration E cfg url prevMeta (max_attempts cfg - S n) c resolved st)
      as [s1 r1 e1|s1 c1 e1] eqn:Hi.
    + destruct (try_block E cfg url prevMeta c resolved st) as [s' res] eqn:Ht.
      exists (S n), c, e, st, s', res. split; [apply reaches_here|]. split; [exact Ht|].
      rewrite attempt_loop_S, Hi. unfold iteration in Hi. rewrite Ht in Hi.
      destruct res as [[resolved'|]|message].
      * inversion Hi; subst. reflexivity.
      * discriminate.
      * rewrite earlier_attempt_number in Hi. discriminate.
    + destruct (IH c1 e1 s1) as (r & c' & e' & s & s' & res & Hreach & Ht & Hres).
      exists r, c', e', s, s', res.
      split; [eapply reaches_next; [exact Hi|exact Hreach]|]. split; [exact Ht|].
      rewrite (attempt_loop_S _ _ _ _ (S n)), Hi. exact Hres.
Qed.

(** X1: the processing of one URL ends in one of four ways, and a single
    attempt decides which.  The URL already has a stored key in the next
    manifest: nothing is done and its public URL is appended.  An attempt
    ends with a reuse or a store: the call returns what that attempt left,
    one public URL is appended, its key is now recorded for the URL, no other
    record changes, the skip counter stays and one more URL is counted as
    served.  The last attempt that the budget allows is answered 304 while
    the prior record has no stored key: nothing is appended, written, counted
    or logged.  The last attempt that the budget allows throws: nothing is
    appended or written, the skip counter alone goes up by one and the
    warning carries the message of that attempt. *)
Theorem process_url_outcome :
  forall (E : Env) (cfg : Config) (previousManifest : Manifest) (url : string)
         (st : State) (resolved : list string),
    let after := process_url E cfg previousManifest (st, resolved) url in
    let prevMeta := prevMeta_of previousManifest st url in
    (exists key,
        manifest_key (nextManifest st) url = Some key
        /\ after = (st, resolved ++ [public_url cfg key]))
    \/ (manifest_key (nextManifest st) url = None
        /\ exists (r : nat) (c : bool) (e : option string) (s s' : State)
                  (res : Result Control),
             reaches E cfg url prevMeta resolved (first_attempt cfg previousManifest url st)
               (mkLoop (S r) c e s)
             /\ try_block E cfg url prevMeta c resolved s = (s', res)
             /\ match res with
                | Ok (CtlBreak resolved') =>
                    after = (s', resolved')
                    /\ resolves cfg url st resolved s' resolved'
                | Ok CtlContinue =>
                    r = O
                    /\ (exists response,
                           fetch E (now s) url (request_headers prevMeta c)
                           = FetchResponse response
                           /\ status response = 304)
                    /\ truthy_key (r2Key prevMeta) = None
                    /\ after = (s', resolved)
                    /\ nextManifest s' = nextManifest st
                    /\ stats s' = stats st
                | Throw message =>
                    r = O
                    /\ after = (emit (EvWarn ("Skip " ++ url ++ ": " ++ message))
                                  (incr_skipped s'), resolved)
                    /\ nextManifest s' = nextManifest st
                    /\ stats s' = stats st
                end).
Proof.
  intros E cfg previousManifest url st resolved after prevMeta. subst after.
  destruct (manifest_key (nextManifest st) url) as [key|] eqn:Hk.
  - left. exists key. split; [reflexivity|].
    unfold process_url, resolved_key. now rewrite Hk.
  - right. split; [reflexivity|].
    rewrite (process_url_unresolved _ _ _ _ _ _ Hk). unfold fetch_and_store.
    fold prevMeta. unfold first_attempt. fold prevMeta.
    pose proof (max_attempts_pos cfg) as Hpos.
    destruct (max_attempts cfg) as [|n] eqn:Hmax; [lia|]. rewrite <- Hmax.
    destruct (attempt_loop_decided E cfg url prevMeta resolved n
                (JS.truthy (etag prevMeta) || JS.truthy (lastModified prevMeta)) None st)
      as (r & c & e & s & s' & res & Hreach & Ht & Hres).
    rewrite Hmax. exists r, c, e, s, s', res.
    rewrite <- Hmax in Hreach |- *. split; [exact Hreach|]. split; [exact Ht|].
    pose proof (reaches_frame _ _ _ _ _ _ _ Hreach) as [Hm Hs].
    cbn [loop_state] in Hm, Hs. rewrite Hmax.
    destruct res as [[resolved'|]|message].
    + rewrite Hres. split; [reflexivity|].
      apply try_block_break in Ht. destruct Ht as (key & H1 & H2 & H3 & H4 & H5).
      exists key. split; [exact H1|]. split; [exact H2|].
      split; [intros u Hu; now rewrite (H3 u Hu), Hm|].
      split; [now rewrite H4, Hs|now rewrite H5, Hs].
    + destruct Hres as [Hr Hres]. rewrite Hres.
      apply try_block_continue in Ht. destruct Ht as (Hresp & Hkey & ->).
      split; [exact Hr|]. split; [exact Hresp|]. split; [exact Hkey|].
      split; [reflexivity|]. split; [exact Hm|exact Hs].
    + destruct Hres as [Hr Hres]. rewrite Hres.
      apply try_block_throw in Ht. destruct Ht as [Hm' Hs'].
      split; [exact Hr|]. split; [reflexivity|]. split; congruence.
Qed.

(** X2: once an attempt succeeds, the failures of the earlier attempts leave
    no mark: the call returns what that attempt produced, the URL is resolved
    and the skip counter is as it was before the call. *)
Theorem success_after_failures_is_not_skipped :
  forall (E : Env) (cfg : Config) (previousManifest : Manifest) (url : string)
         (resolved : list string) (st0 : State)
         (r : nat) (c : bool) (e : option string) (st st' : State)
         (resolved' : list string),
    let prevMeta := prevMeta_of previousManifest st0 url in
    resolved_key st0 url = None ->
    reaches E cfg url prevMeta resolved (first_attempt cfg previousManifest url st0)
      (mkLoop (S r) c e st) ->
    try_block E cfg url prevMeta c resolved st = (st', Ok (CtlBreak resolved')) ->
    process_url E cfg previousManifest (st0, resolved) url = (st', resolved')
    /\ skipped (stats st') = skipped (stats st0)
    /\ served (stats st') = S (served (stats st0))
    /\ exists key,
         resolved' = resolved ++ [public_url cfg key]
         /\ manifest_key (nextManifest st') url = Some key.
Proof.
  intros E cfg previousManifest url resolved st0 r c e st st' resolved' prevMeta
    Hkey Hreach Ht. subst prevMeta.
  pose proof (reaches_frame _ _ _ _ _ _ _ Hreach) as [Hm0 Hs0]. simpl in Hm0, Hs0.
  pose proof (try_block_break _ _ _ _ _ _ _ _ _ Ht) as (key & H1 & H2 & _ & H4 & H5).
  split; [|split; [congruence|split; [congruence|exists key; split; assumption]]].
  rewrite (process_url_unresolved _ _ _ _ _ _ Hkey), fetch_and_store_run.
  rewrite (reaches_run _ _ _ _ _ _ _ Hreach). unfold run.
  cbn [remaining loop_conditional loop_lastError loop_state].
  rewrite attempt_loop_S. unfold iteration. rewrite Ht. reflexivity.
Qed.

Lemma success_after_failures_is_not_skipped_witness :
  resolved_key Demo.start Demo.src = None
  /\ (exists st', try_block Demo.flaky_store Demo.defaults Demo.src empty_record false []
                    Demo.start = (st', Throw "HEAD failed: store unavailable"))
  /\ skipped (stats (fst (process_url Demo.flaky_store Demo.defaults []
                            (Demo.start, []) Demo.src))) = 0%nat
  /\ snd (process_url Demo.flaky_store Demo.defaults [] (Demo.start, []) Demo.src)
     = ["https://cdn.example/img/2.png"].
Proof.
  split; [reflexivity|]. split; [eexists; vm_compute; reflexivity|].
  pose proof (success_after_failures_is_not_skipped
                Demo.flaky_store Demo.defaults [] Demo.src [] Demo.start
                1 false (Some "HEAD failed: store unavailable")
                (sleep 200
                   (emit (EvHead "img/2.png")
                      (emit (EvSharp false Png [Demo.x01])
                         (emit (EvFetch Demo.src no_headers) Demo.start))))
                (fst (process_url Demo.flaky_store Demo.defaults [] (Demo.start, []) Demo.src))
                ["https://cdn.example/img/2.png"]
                eq_refl) as H.
  cbv zeta in H.
  destruct H as (H1 & H2 & _).
  - eapply reaches_next; [vm_compute; reflexivity|apply reaches_here].
  - vm_compute. reflexivity.
  - rewrite H1. split; [exact H2|reflexivity].
Defined.

(** X3: a URL whose record in the next manifest has a stored key is not
    requested again.  Processing it performs no action and leaves the state
    as it is; the URL appended is the public base, a slash and that key.
    Processing any URL from such a state leaves the key of the first URL in
    place. *)
Theorem resolved_url_is_not_fetched_again :
  forall (E : Env) (cfg : Config) (previousManifest : Manifest) (url key : string)
         (record : ManifestRecord) (st : State),
    manifest_get (nextManifest st) url = Some record ->
    r2Key record = Some key ->
    key <> "" ->
    (forall resolved,
        process_url E cfg previousManifest (st, resolved) url
        = (st, resolved ++ [(publicBase cfg ++ "/" ++ key)%string]))
    /\ (forall other resolved,
          manifest_key
            (nextManifest (fst (process_url E cfg previousManifest (st, resolved) other))) url
          = Some key).
Proof.
  intros E cfg previousManifest url key record st Hget Hkey Hne.
  assert (Hk : manifest_key (nextManifest st) url = Some key).
  { unfold manifest_key. rewrite Hget, Hkey. unfold truthy_key, JS.nonempty.
    destruct key; [congruence|reflexivity]. }
  assert (Hsame : forall resolved,
             process_url E cfg previousManifest (st, resolved) url
             = (st, resolved ++ [(publicBase cfg ++ "/" ++ key)%string])).
  { intros resolved. unfold process_url, resolved_key. rewrite Hk. reflexivity. }
  split; [exact Hsame|].
  intros other resolved. destruct (String.eqb_spec other url) as [->|Hother].
  - rewrite Hsame. exact Hk.
  - pose proof (process_url_cases E cfg previousManifest other st resolved) as H.
    cbv zeta in H.
    destruct (process_url E cfg previousManifest (st, resolved) other) as [st' resolved'].
    cbn [fst snd] in *. unfold manifest_key in *.
    destruct H as [(k & _ & Ha)|[(_ & k & _ & _ & Ho & _)|[(_ & _ & Hm & _)|(_ & _ & Hm & _)]]].
    + inversion Ha; subst. exact Hk.
    + rewrite (Ho url); [exact Hk|congruence].
    + rewrite Hm. exact Hk.
    + rewrite Hm. exact Hk.
Qed.

Lemma resolved_url_is_not_fetched_again_witness :
  process_url Demo.failing Demo.defaults []
    (mkState [(Demo.src, Demo.stored)] (stats Demo.start) [], []) Demo.src
  = (mkState [(Demo.src, Demo.stored)] (stats Demo.start) [],
     ["https://cdn.example/img/9.png"]).
Proof.
  exact (proj1 (resolved_url_is_not_fetched_again Demo.failing Demo.defaults [] Demo.src
                  "img/9.png" Demo.stored
                  (mkState [(Demo.src, Demo.stored)] (stats Demo.start) [])
                  eq_refl eq_refl ltac:(discriminate)) []).
Defined.

(** ** Requests and pauses per URL (lines 139-208) *)

Lemma requests_app (l1 l2 : list Event) :
  requests (l1 ++ l2) = (requests l1 + requests l2)%nat.
Proof. unfold requests. now rewrite filter_app, length_app. Qed.

Lemma paused_app (l1 l2 : list Event) : paused (l1 ++ l2) = paused l1 + paused l2.
Proof.
  induction l1 as [|e l1 IH]; simpl; [reflexivity|].
  destruct e; rewrite ?IH; lia.
Qed.

Lemma pipeline_events_measure (l : list Event) :
  Forall pipeline_event l -> requests l = O /\ paused l = 0.
Proof.
  induction 1 as [|e l He _ [IH1 IH2]]; [split; reflexivity|].
  destruct e; simpl in He; try contradiction; split; assumption.
Qed.

Lemma backoff_nonneg (k : nat) : 0 <= backoff k.
Proof. unfold backoff. pose proof (Z.pow_nonneg 2 (Z.of_nat k - 1)). lia. Qed.

(** One iteration makes one request, and pauses only when it fails before
    the last attempt. *)
Lemma iteration_measure (E : Env) (cfg : Config) (url : string) (prevMeta : ManifestRecord)
    (k : nat) (c : bool) (resolved : list string) (st : State) :
  exists new,
    trace (match iteration E cfg url prevMeta k c resolved st with
           | Leave st' _ _ => st'
           | Again st' _ _ => st'
           end) = new ++ trace st
    /\ requests new = 1%nat
    /\ 0 <= paused new
    /\ paused new <= (if Nat.leb (max_attempts cfg) k then 0 else backoff k).
Proof.
  unfold iteration.
  destruct (try_block E cfg url prevMeta c resolved st) as [st1 r] eqn:Ht.
  destruct (try_block_trace _ _ _ _ _ _ _ _ _ Ht) as (new & Hnew & Hpipe).
  destruct (pipeline_events_measure _ Hpipe) as [Hr Hp].
  assert (Hone : requests (new ++ [EvFetch url (request_headers prevMeta c)]) = 1%nat).
  { rewrite requests_app, Hr. reflexivity. }
  assert (Hzero : paused (new ++ [EvFetch url (request_headers prevMeta c)]) = 0).
  { rewrite paused_app, Hp. reflexivity. }
  pose proof (backoff_nonneg k) as Hb.
  assert (Hbudget : 0 <= (if Nat.leb (max_attempts cfg) k then 0 else backoff k)).
  { destruct (Nat.leb (max_attempts cfg) k); lia. }
  assert (Hplain : exists new0,
             trace st1 = new0 ++ trace st /\ requests new0 = 1%nat /\ 0 <= paused new0
             /\ paused new0 <= (if Nat.leb (max_attempts cfg) k then 0 else backoff k)).
  { exists (new ++ [EvFetch url (request_headers prevMeta c)]).
    split; [rewrite Hnew, <- app_assoc; reflexivity|].
    rewrite Hone, Hzero. repeat split; try assumption; lia. }
  destruct r as [[res|]|message]; try exact Hplain.
  destruct (Nat.leb (max_attempts cfg) k) eqn:Hk; [exact Hplain|].
  exists (EvSleep (backoff k) :: new ++ [EvFetch url (request_headers prevMeta c)]).
  split; [unfold sleep; rewrite emit_trace, Hnew, <- app_comm_cons, <- app_assoc;
          reflexivity|].
  change (requests (EvSleep (backoff k) :: new ++ [EvFetch url (request_headers prevMeta c)]))
    with (requests (new ++ [EvFetch url (request_headers prevMeta c)])).
  change (paused (EvSleep (backoff k) :: new ++ [EvFetch url (request_headers prevMeta c)]))
    with (backoff k + paused (new ++ [EvFetch url (request_headers prevMeta c)])).
  rewrite Hone, Hzero. repeat split; lia.
Qed.

Lemma pause_budget_nonneg (cfg : Config) (n : nat) : 0 <= pause_budget cfg n.
Proof.
  induction n as [|r IH]; simpl; [lia|].
  pose proof (backoff_nonneg (max_attempts cfg - r)).
  destruct (Nat.leb _ _); lia.
Qed.

Lemma attempt_loop_measure (E : Env) (cfg : Config) (url : string) (prevMeta : ManifestRecord)
    (resolved : list string) (n : nat) :
  forall (c : bool) (e : option string) (st : State),
  exists new,
    trace (fst (fst (attempt_loop E cfg url prevMeta n c e resolved st))) = new ++ trace st
    /\ (requests new <= n)%nat
    /\ (n <> O -> 1 <= requests new)%nat
    /\ 0 <= paused new <= pause_budget cfg n.
Proof.
  induction n as [|r IH]; intros c e st.
  - exists []. split; [reflexivity|]. split; [apply Nat.le_refl|].
    split; [intros H; now elim H|]. simpl. lia.
  - rewrite attempt_loop_S.
    destruct (iteration_measure E cfg url prevMeta (max_attempts cfg - r) c resolved st)
      as (new & Hnew & Hreq & Hp0 & Hp1).
    pose proof (pause_budget_nonneg cfg r) as Hb.
    destruct (iteration E cfg url prevMeta (max_attempts cfg - r) c resolved st)
      as [s1 r1 e1|s1 c1 e1].
    + exists new. simpl fst. cbn [pause_budget]. repeat split; try lia. exact Hnew.
    + destruct (IH c1 e1 s1) as (later & Hlater & Hr1 & _ & Hq0 & Hq1).
      exists (later ++ new). rewrite Hlater, Hnew, <- app_assoc.
      rewrite requests_app, paused_app. cbn [pause_budget].
      repeat split; try lia.
Qed.

Lemma pause_budget_closed (cfg : Config) (n : nat) :
  (1 <= n <= max_attempts cfg)%nat ->
  pause_budget cfg n
  = 200 * (2 ^ (Z.of_nat (max_attempts cfg) - 1)
           - 2 ^ (Z.of_nat (max_attempts cfg) - Z.of_nat n)).
Proof.
  induction n as [|r IH]; [lia|]. intros Hn. cbn [pause_budget].
  destruct r as [|r].
  - rewrite last_attempt_number. simpl pause_budget.
    replace (Z.of_nat (max_attempts cfg) - Z.of_nat 1)
      with (Z.of_nat (max_attempts cfg) - 1) by lia. lia.
  - rewrite earlier_attempt_number, IH by lia. unfold backoff.
    replace (Z.of_nat (max_attempts cfg - S r) - 1)
      with (Z.of_nat (max_attempts cfg) - Z.of_nat (S (S r))) by lia.
    replace (Z.of_nat (max_attempts cfg) - Z.of_nat (S r))
      with (Z.succ (Z.of_nat (max_attempts cfg) - Z.of_nat (S (S r)))) by lia.
    rewrite Z.pow_succ_r by lia. lia.
Qed.

(** X4: let N be MAX_FETCH_ATTEMPTS rounded up to an integer.  For one URL
    the script makes at most N requests to the source, at least one unless
    the next manifest already has a stored key for it, in which case it does
    nothing at all; the pauses between the attempts add up to at most
    200 * (2^(N - 1) - 1) milliseconds. *)
Theorem requests_and_pauses_are_bounded :
  forall (E : Env) (cfg : Config) (previousManifest : Manifest) (url : string)
         (st : State) (resolved : list string),
  exists new,
    trace (fst (process_url E cfg previousManifest (st, resolved) url)) = new ++ trace st
    /\ (requests new <= max_attempts cfg)%nat
    /\ 0 <= paused new <= 200 * (2 ^ (Z.of_nat (max_attempts cfg) - 1) - 1)
    /\ Z.of_nat (max_attempts cfg) = Qceiling (MAX_FETCH_ATTEMPTS cfg)
    /\ match manifest_key (nextManifest st) url with
       | Some _ => new = []
       | None => (1 <= requests new)%nat
       end.
Proof.
  intros E cfg previousManifest url st resolved.
  pose proof (max_attempts_pos cfg) as Hpos.
  pose proof (max_attempts_ceiling cfg) as Hceiling.
  assert (Hpow : 0 < 2 ^ (Z.of_nat (max_attempts cfg) - 1)).
  { apply Z.pow_pos_nonneg; lia. }
  unfold process_url, resolved_key.
  destruct (manifest_key (nextManifest st) url) as [key|].
  - exists []. split; [reflexivity|]. split; [apply Nat.le_0_l|].
    split; [|split; [exact Hceiling|reflexivity]]. change (paused []) with 0. lia.
  - unfold fetch_and_store.
    destruct (attempt_loop_measure E cfg url (prevMeta_of previousManifest st url) resolved
                (max_attempts cfg)
                (JS.truthy (etag (prevMeta_of previousManifest st url))
                 || JS.truthy (lastModified (prevMeta_of previousManifest st url)))
                None st) as (new & Hnew & Hr & Hr1 & Hp0 & Hp1).
    rewrite pause_budget_closed in Hp1 by lia.
    replace (Z.of_nat (max_attempts cfg) - Z.of_nat (max_attempts cfg)) with 0 in Hp1 by lia.
    change (2 ^ 0) with 1 in Hp1.
    destruct (attempt_loop E cfg url _ _ _ None resolved st) as [[st' resolved'] [message|]].
    + cbn [fst] in Hnew. exists (EvWarn ("Skip " ++ url ++ ": " ++ message) :: new).
      change (requests (EvWarn ("Skip " ++ url ++ ": " ++ message) :: new))
        with (requests new).
      change (paused (EvWarn ("Skip " ++ url ++ ": " ++ message) :: new))
        with (paused new).
      split; [cbn [fst]; rewrite emit_trace; cbn [incr_skipped trace]; now rewrite Hnew|].
      split; [exact Hr|]. split; [lia|]. split; [exact Hceiling|]. apply Hr1. lia.
    + cbn [fst] in Hnew. exists new. cbn [fst].
      split; [exact Hnew|]. split; [exact Hr|]. split; [lia|]. split; [exact Hceiling|].
      apply Hr1. lia.
Qed.

(** ** One entry (lines 118-220) *)

Lemma processOffer_cases (E : Env) (cfg : Config) (previousManifest : Manifest)
    (entry : Entry) (st : State) :
  ((JS.nonempty (offerId entry) = false \/ uniqueUrls (urls entry) = [])
   /\ processOffer E cfg previousManifest entry st = (st, None))
  \/ (JS.nonempty (offerId entry) = true
      /\ uniqueUrls (urls entry) <> []
      /\ processOffer E cfg previousManifest entry st
         = (fst (fold_left (process_url E cfg previousManifest)
                   (uniqueUrls (urls entry)) (st, [])),
            match snd (fold_left (process_url E cfg previousManifest)
                         (uniqueUrls (urls entry)) (st, [])) with
            | [] => None
            | resolved => Some (mkEntry (offerId entry) resolved)
            end)).
Proof.
  unfold processOffer.
  destruct (JS.nonempty (offerId entry)) eqn:Hid; [|left; split; [now left|reflexivity]].
  destruct (urls entry) as [|u us] eqn:Hurls; [left; split; [now right|reflexivity]|].
  cbn [negb orb List.length Nat.eqb].
  destruct (uniqueUrls (u :: us)) as [|x xs] eqn:Hx; [left; split; [now right|reflexivity]|].
  right. split; [reflexivity|]. split; [discriminate|].
  cbn [List.length Nat.eqb].
  destruct (fold_left _ (x :: xs) (st, [])) as [st' [|r rs]]; reflexivity.
Qed.

(** A property of the shared state and of the resolved URLs that every URL
    keeps is kept by the loop over the URLs. *)
Lemma fold_process_url (E : Env) (cfg : Config) (previousManifest : Manifest)
    (Inv : list string -> State * list string -> Prop) :
  (forall done acc url,
      Inv done acc -> ~ In url done ->
      Inv (done ++ [url]) (process_url E cfg previousManifest acc url)) ->
  forall todo done acc,
    NoDup (done ++ todo) -> Inv done acc ->
    Inv (done ++ todo) (fold_left (process_url E cfg previousManifest) todo acc).
Proof.
  intros Hstep todo. induction todo as [|url todo IH]; intros done acc Hnd Hinv.
  - now rewrite app_nil_r.
  - cbn [fold_left].
    replace (done ++ url :: todo) with ((done ++ [url]) ++ todo)
      by (rewrite <- app_assoc; reflexivity).
    apply IH.
    + rewrite <- app_assoc. exact Hnd.
    + apply Hstep; [exact Hinv|].
      apply NoDup_remove_2 in Hnd. intros Hin. apply Hnd, in_or_app. now left.
Qed.

(** X5: if every record of the next manifest has a stored key before an
    entry is processed, the same holds afterwards, and the records of the
    URLs that are not among the entry's candidates are untouched. *)
Theorem processOffer_keeps_manifest_keyed :
  forall (E : Env) (cfg : Config) (previousManifest : Manifest) (entry : Entry) (st : State),
    keyed (nextManifest st) ->
    keyed (nextManifest (fst (processOffer E cfg previousManifest entry st)))
    /\ forall u,
         ~ In u (uniqueUrls (urls entry)) ->
         manifest_get (nextManifest (fst (processOffer E cfg previousManifest entry st))) u
         = manifest_get (nextManifest st) u.
Proof.
  intros E cfg previousManifest entry st Hkeyed.
  destruct (processOffer_cases E cfg previousManifest entry st)
    as [[_ ->]|(_ & _ & ->)]; [split; [exact Hkeyed|reflexivity]|].
  cbn [fst].
  pose proof (fold_process_url E cfg previousManifest
                (fun done acc =>
                   keyed (nextManifest (fst acc))
                   /\ forall u, ~ In u done ->
                                manifest_get (nextManifest (fst acc)) u
                                = manifest_get (nextManifest st) u)) as Hfold.
  apply (Hfold) with (todo := uniqueUrls (urls entry)) (done := []) (acc := (st, [])).
  - clear Hfold. intros done [s resolved] url [Hk Hframe] Hnew.
    pose proof (process_url_cases E cfg previousManifest url s resolved) as H.
    cbv zeta in H.
    destruct (process_url E cfg previousManifest (s, resolved) url) as [s' resolved'].
    cbn [fst snd] in *.
    assert (Hothers : forall u, u <> url ->
                                manifest_get (nextManifest s') u = manifest_get (nextManifest s) u).
    { destruct H as [(key & _ & Ha)|[(_ & key & _ & _ & Ho & _)|[(_ & _ & Hm & _)|(_ & _ & Hm & _)]]].
      - inversion Ha; subst. reflexivity.
      - exact Ho.
      - intros; now rewrite Hm.
      - intros; now rewrite Hm. }
    split.
    + intros u r Hget. destruct (String.eqb_spec u url) as [->|Hne].
      * destruct H as [(key & _ & Ha)|[(_ & key & _ & Hk' & _)|[(_ & _ & Hm & _)|(_ & _ & Hm & _)]]].
        -- inversion Ha; subst. now apply (Hk url r).
        -- unfold manifest_key in Hk'. rewrite Hget in Hk'. congruence.
        -- rewrite Hm in Hget. now apply (Hk url r).
        -- rewrite Hm in Hget. now apply (Hk url r).
      * rewrite (Hothers u Hne) in Hget. now apply (Hk u r).
    + intros u Hu. rewrite in_app_iff in Hu.
      rewrite Hothers; [apply Hframe; tauto|]. intros ->. apply Hu. right. now left.
  - simpl. apply new_Set_NoDup.
  - split; [exact Hkeyed|reflexivity].
Qed.

Lemma processOffer_keeps_manifest_keyed_witness :
  keyed (nextManifest Demo.start)
  /\ keyed (nextManifest (fst (processOffer Demo.healthy Demo.defaults []
                                 (mkEntry "A1" [Demo.src; Demo.src2]) Demo.start))).
Proof.
  assert (H : keyed (nextManifest Demo.start)) by (intros u r Hget; discriminate).
  split; [exact H|].
  exact (proj1 (processOffer_keeps_manifest_keyed Demo.healthy Demo.defaults []
                  (mkEntry "A1" [Demo.src; Demo.src2]) Demo.start H)).
Defined.

Lemma manifest_key_nonempty (m : Manifest) (url key : string) :
  manifest_key m url = Some key -> key <> "".
Proof.
  unfold manifest_key, truthy_key.
  destruct (manifest_get m url) as [r|]; [|discriminate].
  destruct (r2Key r) as [k|]; [|discriminate].
  destruct k; simpl; intros H; inversion H; discriminate.
Qed.

(** X6: when [processOffer] returns an entry, it carries the identifier of
    the input entry and at least one URL, no more URLs than the entry has
    distinct candidates, and each of its URLs is the public base, a slash and
    a key that is not empty. *)
Theorem processOffer_result_is_under_the_public_base :
  forall (E : Env) (cfg : Config) (previousManifest : Manifest) (entry : Entry)
         (st st' : State) (result : Entry),
    processOffer E cfg previousManifest entry st = (st', Some result) ->
    offerId result = offerId entry
    /\ urls result <> []
    /\ (List.length (urls result) <= List.length (uniqueUrls (urls entry)))%nat
    /\ Forall (fun public =>
                 exists key, key <> "" /\ public = (publicBase cfg ++ "/" ++ key)%string)
              (urls result).
Proof.
  intros E cfg previousManifest entry st st' result Hres.
  destruct (processOffer_cases E cfg previousManifest entry st)
    as [[_ Hnone]|(_ & _ & Hsome)]; [congruence|].
  rewrite Hsome in Hres. clear Hsome.
  pose proof (fold_process_url E cfg previousManifest
                (fun done acc =>
                   (List.length (snd acc) <= List.length done)%nat
                   /\ Forall (fun public =>
                                exists key, key <> "" /\ public = public_url cfg key)
                             (snd acc))) as Hfold.
  specialize (Hfold) with (todo := uniqueUrls (urls entry)) (done := []) (acc := (st, [])).
  cbn [app] in Hfold.
  destruct (fold_left (process_url E cfg previousManifest) (uniqueUrls (urls entry)) (st, []))
    as [s resolved].
  cbn [fst snd] in *.
  destruct resolved as [|r rs]; [discriminate|].
  inversion Hres; subst st' result; clear Hres. cbn [offerId urls].
  split; [reflexivity|]. split; [discriminate|].
  apply Hfold.
  - clear. intros done [s resolved] url [Hlen Hall] Hnew.
    pose proof (process_url_cases E cfg previousManifest url s resolved) as H.
    cbv zeta in H.
    destruct (process_url E cfg previousManifest (s, resolved) url) as [s' resolved'].
    cbn [fst snd] in *. rewrite length_app. simpl.
    destruct H as [(key & Hk & Ha)|[(_ & key & Hr & Hk & _)|[(_ & Hr & _)|(_ & Hr & _)]]].
    + inversion Ha; subst. rewrite length_app. simpl. split; [lia|].
      apply Forall_app. split; [exact Hall|]. constructor; [|constructor].
      exists key. split; [now apply manifest_key_nonempty in Hk|reflexivity].
    + subst resolved'. rewrite length_app. simpl. split; [lia|].
      apply Forall_app. split; [exact Hall|]. constructor; [|constructor].
      exists key. split; [now apply manifest_key_nonempty in Hk|reflexivity].
    + subst resolved'. split; [lia|exact Hall].
    + subst resolved'. split; [lia|exact Hall].
  - apply new_Set_NoDup.
  - split; [apply Nat.le_refl|constructor].
Qed.

Lemma processOffer_result_is_under_the_public_base_witness :
  processOffer Demo.healthy Demo.defaults [] (mkEntry "A1" [Demo.src; Demo.src2]) Demo.start
  = (fst (processOffer Demo.healthy Demo.defaults [] (mkEntry "A1" [Demo.src; Demo.src2])
            Demo.start),
     Some (mkEntry "A1" ["https://cdn.example/img/2.png"; "https://cdn.example/img/2.png"]))
  /\ Forall (fun public =>
               exists key,
                 key <> "" /\ public = (publicBase Demo.defaults ++ "/" ++ key)%string)
            ["https://cdn.example/img/2.png"; "https://cdn.example/img/2.png"].
Proof.
  split; [reflexivity|].
  exact (proj2 (proj2 (proj2 (processOffer_result_is_under_the_public_base
           Demo.healthy Demo.defaults [] (mkEntry "A1" [Demo.src; Demo.src2]) Demo.start
           _ _ eq_refl)))).
Defined.

(** X7: an entry accounts for each of its distinct candidates at most once:
    the URLs it resolves and the URLs it skips together are no more than
    the distinct candidates, no counter goes down, and the URLs counted as
    served are no more than the URLs resolved. *)
Theorem processOffer_counts_each_candidate_once :
  forall (E : Env) (cfg : Config) (previousManifest : Manifest) (entry : Entry) (st : State),
    let after := processOffer E cfg previousManifest entry st in
    let resolved := match snd after with
                    | Some result => List.length (urls result)
                    | None => O
                    end in
    (resolved + skipped (stats (fst after))
     <= List.length (uniqueUrls (urls entry)) + skipped (stats st))%nat
    /\ (skipped (stats st) <= skipped (stats (fst after)))%nat
    /\ (served (stats st) <= served (stats (fst after)))%nat
    /\ (served (stats (fst after)) <= served (stats st) + resolved)%nat.
Proof.
  intros E cfg previousManifest entry st after resolved. subst resolved after.
  destruct (processOffer_cases E cfg previousManifest entry st)
    as [[_ ->]|(_ & _ & ->)]; [cbn [fst snd]; lia|].
  cbn [fst snd].
  pose proof (fold_process_url E cfg previousManifest
                (fun done acc =>
                   (List.length (snd acc) + skipped (stats (fst acc))
                    <= List.length done + skipped (stats st))%nat
                   /\ (skipped (stats st) <= skipped (stats (fst acc)))%nat
                   /\ (served (stats st) <= served (stats (fst acc)))%nat
                   /\ (served (stats (fst acc))
                       <= served (stats st) + List.length (snd acc))%nat)) as Hfold.
  specialize (Hfold) with (todo := uniqueUrls (urls entry)) (done := []) (acc := (st, [])).
  cbn [app] in Hfold.
  assert (H : (List.length (snd (fold_left (process_url E cfg previousManifest)
                                   (uniqueUrls (urls entry)) (st, [])))
               + skipped (stats (fst (fold_left (process_url E cfg previousManifest)
                                        (uniqueUrls (urls entry)) (st, []))))
               <= List.length (uniqueUrls (urls entry)) + skipped (stats st))%nat
              /\ (skipped (stats st)
                  <= skipped (stats (fst (fold_left (process_url E cfg previousManifest)
                                            (uniqueUrls (urls entry)) (st, [])))))%nat
              /\ (served (stats st)
                  <= served (stats (fst (fold_left (process_url E cfg previousManifest)
                                           (uniqueUrls (urls entry)) (st, [])))))%nat
              /\ (served (stats (fst (fold_left (process_url E cfg previousManifest)
                                        (uniqueUrls (urls entry)) (st, []))))
                  <= served (stats st)
                     + List.length (snd (fold_left (process_url E cfg previousManifest)
                                           (uniqueUrls (urls entry)) (st, []))))%nat).
  { apply Hfold.
    - clear. intros done [s resolved] url (H1 & H2 & H3 & H4) _.
      pose proof (process_url_cases E cfg previousManifest url s resolved) as H.
      cbv zeta in H.
      destruct (process_url E cfg previousManifest (s, resolved) url) as [s' resolved'].
      cbn [fst snd] in *. rewrite length_app. simpl.
      destruct H as [(key & _ & Ha)|[(_ & key & Hr & _ & _ & Hsk & Hsv)|[(_ & Hr & _ & Hs & _)|(_ & Hr & _ & Hs)]]].
      + inversion Ha; subst. rewrite length_app. simpl. lia.
      + subst resolved'. rewrite length_app. simpl. lia.
      + subst resolved'. rewrite Hs. unfold served in *. simpl. lia.
      + subst resolved'. rewrite Hs. lia.
    - apply new_Set_NoDup.
    - cbn [fst snd List.length]. lia. }
  destruct (fold_left (process_url E cfg previousManifest) (uniqueUrls (urls entry)) (st, []))
    as [s [|r rs]]; cbn [fst snd urls List.length] in *; lia.
Qed.

Lemma blank_candidates (l : list string) :
  Forall (fun u => JS.trim u = "") l -> uniqueUrls l = [].
Proof.
  intros H. unfold uniqueUrls.
  replace (filter JS.nonempty (map JS.trim l)) with (@nil string); [reflexivity|].
  induction H as [|u l Hu _ IH]; simpl; [reflexivity|]. now rewrite Hu.
Qed.

(** X8: an entry without identifier, or whose candidate URLs are all blank,
    is dropped at once: nothing is returned, no action is performed and the
    shared state is left as it is. *)
Theorem entry_without_id_or_urls_is_dropped :
  forall (E : Env) (cfg : Config) (previousManifest : Manifest) (entry : Entry) (st : State),
    offerId entry = "" \/ Forall (fun u => JS.trim u = "") (urls entry) ->
    processOffer E cfg previousManifest entry st = (st, None).
Proof.
  intros E cfg previousManifest entry st H.
  destruct (processOffer_cases E cfg previousManifest entry st)
    as [[_ Hnone]|(Hid & Hu & _)]; [exact Hnone|].
  destruct H as [H|H].
  - rewrite H in Hid. discriminate.
  - elim Hu. now apply blank_candidates.
Qed.

Lemma entry_without_id_or_urls_is_dropped_witness :
  Forall (fun u => JS.trim u = "") ["  "; ""]
  /\ processOffer Demo.healthy Demo.defaults [] (mkEntry "A1" ["  "; ""]) Demo.start
     = (Demo.start, None).
Proof.
  assert (H : Forall (fun u => JS.trim u = "") ["  "; ""]) by (repeat constructor).
  split; [exact H|].
  apply (entry_without_id_or_urls_is_dropped Demo.healthy Demo.defaults []
           (mkEntry "A1" ["  "; ""]) Demo.start).
  right. exact H.
Defined.

(** ** The store and the encoder (lines 59-95, 172-201) *)

(** X9: once the bytes fetched are transcoded, the object store is asked
    whether the content key exists, and the answer decides the rest of the
    attempt.  Found: nothing is uploaded, the found-in-store counter goes up
    and the record is written.  Status 404 or error name NotFound: the
    transcoded bytes are uploaded under the content key with the transcoder's
    media type; if that succeeds the upload counter goes up and the record
    is written, and if it fails the attempt throws "Upload failed: ..." and
    neither counts nor records anything.  Any other error: the attempt
    throws "HEAD failed: ..." and uploads, counts and records nothing. *)
Theorem upload_happens_exactly_when_the_store_lacks_the_object :
  forall (E : Env) (cfg : Config) (url : string) (resolved : list string)
         (response : Response) (st st1 : State) (source : list Byte.byte) (p : Processed),
    arrayBuffer response = BodyOk source ->
    resizeBuffer E source (normaliseMime (header_content_type response)) st = (st1, Ok p) ->
    let key := stored_key E p in
    let asked := emit (EvHead key) st1 in
    let sent := emit (EvPut key (p_buffer p) (p_mime p)) asked in
    let record := mkRecord (JS.or_undefined (header_etag response))
                    (JS.or_undefined (header_last_modified response))
                    (Some key) (Some (p_mime p)) in
    let done := CtlBreak (resolved ++ [(publicBase cfg ++ "/" ++ key)%string]) in
    fresh_path E cfg url resolved response st =
      match s3_head E (now st1) key with
      | SendOk => (set_manifest url record (incr_reusedExisting asked), Ok done)
      | SendError code name message =>
          if match code with Some c => Z.eqb c 404 | None => false end
             || String.eqb name "NotFound"
          then
            match s3_put E (now asked) key (p_buffer p) (p_mime p) with
            | SendOk => (set_manifest url record (incr_uploaded sent), Ok done)
            | SendError _ _ message' => (sent, Throw ("Upload failed: " ++ message'))
            end
          else (asked, Throw ("HEAD failed: " ++ message))
      end.
Proof.
  intros E cfg url resolved response st st1 source p Hbody Hresize key asked sent record done.
  subst key asked sent record done.
  unfold fresh_path, bind, rethrow, read_body, ret, throw, modify.
  rewrite Hbody, Hresize. unfold headR2.
  destruct (s3_head E (now st1) (stored_key E p)) as [|code name message]; [reflexivity|].
  destruct (match code with Some c => Z.eqb c 404 | None => false end
            || String.eqb name "NotFound"); [|reflexivity].
  cbn [negb]. unfold putR2.
  destruct (s3_put E (now (emit (EvHead (stored_key E p)) st1)) (stored_key E p)
              (p_buffer p) (p_mime p)); reflexivity.
Qed.

Lemma upload_happens_exactly_when_the_store_lacks_the_object_witness :
  s3_head Demo.flaky_store 2 "img/2.png"
  = SendError (Some 500) "InternalError" "store unavailable"
  /\ fresh_path Demo.flaky_store Demo.defaults Demo.src [] (Demo.ok_response "image/png")
       (emit (EvFetch Demo.src no_headers) Demo.start)
     = (emit (EvHead "img/2.png")
          (emit (EvSharp false Png [Demo.x01])
             (emit (EvFetch Demo.src no_headers) Demo.start)),
        Throw "HEAD failed: store unavailable").
Proof.
  split; [reflexivity|].
  exact (upload_happens_exactly_when_the_store_lacks_the_object
           Demo.flaky_store Demo.defaults Demo.src [] (Demo.ok_response "image/png")
           (emit (EvFetch Demo.src no_headers) Demo.start)
           (emit (EvSharp false Png [Demo.x01])
              (emit (EvFetch Demo.src no_headers) Demo.start))
           [Demo.x01] (mkProcessed [Byte.x89; Demo.x01] "image/png" "png")
           eq_refl eq_refl).
Defined.

Lemma encoder_for_table (m : string) :
  let '(enc, mime', ext) := encoder_for m in
  assoc_get MIME_TO_EXT mime' = Some ext
  /\ match assoc_get MIME_TO_EXT m with
     | Some e => ext = e
     | None => enc = Jpeg90 /\ mime' = "image/jpeg" /\ ext = "jpg"
     end
  /\ (enc = Gif <-> m = "image/gif").
Proof.
  unfold encoder_for, MIME_TO_EXT. cbn [assoc_get].
  destruct (String.eqb_spec "image/jpeg" m) as [<-|H1];
    [repeat split; try reflexivity; discriminate|].
  destruct (String.eqb_spec "image/jpg" m) as [<-|H2];
    [repeat split; try reflexivity; discriminate|].
  destruct (String.eqb_spec "image/png" m) as [<-|H3];
    [repeat split; try reflexivity; discriminate|].
  destruct (String.eqb_spec "image/webp" m) as [<-|H4];
    [repeat split; try reflexivity; discriminate|].
  destruct (String.eqb_spec "image/gif" m) as [<-|H5];
    [repeat split; reflexivity|].
  destruct (String.eqb_spec m "image/png"); [congruence|].
  destruct (String.eqb_spec m "image/webp"); [congruence|].
  destruct (String.eqb_spec m "image/gif"); [congruence|].
  repeat split; try reflexivity; try discriminate. congruence.
Qed.

(** X10: a successful [resizeBuffer] has run one encoder on the input, in
    animated mode exactly when the declared type is image/gif, and has
    touched neither the manifest nor the counters.  The encoder is the PNG,
    WebP or GIF encoder for the declared types image/png, image/webp and
    image/gif, and the JPEG encoder at quality 90 for every other declared
    type; the bytes returned are the output of that encoder, and the type and
    the extension returned are those of its format, a pair of the MIME_TO_EXT
    table. *)
Theorem resizeBuffer_returns_a_pair_of_the_table :
  forall (E : Env) (inputBuffer : list Byte.byte) (declared : string) (st st' : State)
         (p : Processed),
    resizeBuffer E inputBuffer declared st = (st', Ok p) ->
    let animated := String.eqb declared "image/gif" in
    let enc := if String.eqb declared "image/png" then Png
               else if String.eqb declared "image/webp" then Webp
               else if String.eqb declared "image/gif" then Gif
               else Jpeg90 in
    sharp_toBuffer E (now st) animated enc inputBuffer = SharpOk (p_buffer p)
    /\ (p_mime p, p_ext p)
       = match enc with
         | Png => ("image/png", "png")
         | Webp => ("image/webp", "webp")
         | Gif => ("image/gif", "gif")
         | Jpeg90 => ("image/jpeg", "jpg")
         end
    /\ assoc_get MIME_TO_EXT (p_mime p) = Some (p_ext p)
    /\ st' = mkState (nextManifest st) (stats st)
               (EvSharp animated enc inputBuffer :: trace st).
Proof.
  intros E inputBuffer declared st st' p. rewrite resizeBuffer_unfold.
  pose proof (encoder_for_table declared) as Ht. unfold encoder_for in *.
  intros H. cbv zeta.
  destruct (String.eqb declared "image/png");
    [|destruct (String.eqb declared "image/webp");
      [|destruct (String.eqb declared "image/gif")]];
    destruct Ht as (Hpair & _);
    (destruct (toBuffer E _ _ inputBuffer st) as [s1 [b|message]] eqn:Hb; [|discriminate]);
    apply toBuffer_inv in Hb; destruct Hb as [-> Hs];
    inversion H; subst; clear H; cbn [p_mime p_ext p_buffer];
    (split; [exact Hs|]); (split; [reflexivity|]); (split; [exact Hpair|reflexivity]).
Qed.

Lemma resizeBuffer_returns_a_pair_of_the_table_witness :
  resizeBuffer Demo.healthy [Demo.x01] "image/bmp" Demo.start
  = (emit (EvSharp false Jpeg90 [Demo.x01]) Demo.start,
     Ok (mkProcessed [Byte.xff; Demo.x01] "image/jpeg" "jpg"))
  /\ sharp_toBuffer Demo.healthy (now Demo.start) false Jpeg90 [Demo.x01]
     = SharpOk [Byte.xff; Demo.x01].
Proof.
  split; [reflexivity|].
  exact (proj1 (resizeBuffer_returns_a_pair_of_the_table
                  Demo.healthy [Demo.x01] "image/bmp" Demo.start _ _ eq_refl)).
Defined.

Lemma before_semicolon_app (m p : string) :
  JS.before_semicolon (m ++ ";" ++ p) = JS.before_semicolon m.
Proof.
  induction m as [|c m IH]; [reflexivity|].
  change ((String c m ++ ";" ++ p)%string) with (String c (m ++ ";" ++ p)%string).
  cbn [JS.before_semicolon].
  destruct (Ascii.eqb c ";"); [reflexivity|]. now rewrite IH.
Qed.

(** X11: whatever follows a semicolon in the Content-Type header has no
    effect on the media type derived from it. *)
Theorem normaliseMime_ignores_parameters :
  forall (m parameters : string),
    normaliseMime (Some (m ++ ";" ++ parameters)%string) = normaliseMime (Some m).
Proof.
  intros m parameters. unfold normaliseMime. rewrite before_semicolon_app.
  destruct m as [|c m]; [reflexivity|]. reflexivity.
Qed.

(** ** Sorting twice (lines 107-116, 284-289) *)

Lemma sort_fixed {A : Type} (le : A -> A -> bool) (l : list A) :
  StronglySorted (fun a b => le a b = true) l -> JS.sort le l = l.
Proof.
  induction 1 as [|x l Hl IH Hx]; [reflexivity|].
  unfold JS.sort in *. cbn [fold_right]. rewrite IH.
  destruct l as [|y l]; [reflexivity|].
  inversion Hx as [|y' l' Hxy _]; subst. cbn [JS.insert]. now rewrite Hxy.
Qed.

Lemma ascending_strongly_sorted (l : list string) :
  ascending l = true -> StronglySorted (fun a b => String.leb a b = true) l.
Proof.
  induction l as [|x l IH]; [constructor|].
  destruct l as [|y l]; [intros _; repeat constructor|].
  change (ascending (x :: y :: l)) with (String.ltb x y && ascending (y :: l)).
  rewrite andb_true_iff. intros [Hxy Hrest].
  specialize (IH Hrest). constructor; [exact IH|].
  assert (Hle : String.leb x y = true).
  { apply string_leb_cases. left. unfold String.ltb in Hxy.
    destruct (String.compare x y); try discriminate. reflexivity. }
  constructor; [exact Hle|].
  inversion IH as [|y' l' _ Hy]; subst.
  eapply Forall_impl; [|exact Hy]. intros z Hz. eapply string_leb_trans; eassumption.
Qed.

Lemma ascending_distinct (l : list string) : ascending l = true -> NoDup l.
Proof.
  intros H. pose proof (ascending_strongly_sorted l H) as Hs.
  induction l as [|x l IH]; [constructor|].
  inversion Hs as [|x' l' Hl Hx]; subst.
  assert (Hrest : ascending l = true).
  { destruct l as [|y l]; [reflexivity|].
    change (ascending (x :: y :: l)) with (String.ltb x y && ascending (y :: l)) in H.
    now apply andb_true_iff in H. }
  constructor; [|now apply IH].
  destruct l as [|y l]; [tauto|].
  change (ascending (x :: y :: l)) with (String.ltb x y && ascending (y :: l)) in H.
  apply andb_true_iff in H. destruct H as [Hxy _].
  intros Hin. rewrite Forall_forall in Hx.
  assert (Hyx : String.leb y x = true).
  { destruct Hin as [->|Hin]; [apply string_leb_cases; now right|].
    inversion Hl as [|y' l' _ Hy]; subst. rewrite Forall_forall in Hy. now apply Hy. }
  assert (Hxy' : String.leb x y = true) by (apply Hx; now left).
  pose proof (String.leb_antisym _ _ Hxy' Hyx) as ->.
  unfold String.ltb in Hxy. rewrite string_compare_refl in Hxy. discriminate.
Qed.

(** A value whose objects are in order already is its own sorted form. *)
Lemma sortObjectDeep_fixed (v : value) :
  keys_sorted v = true -> sortObjectDeep v = v.
Proof.
  induction v as [| | | | |items IH|props IH] using value_induction; try reflexivity.
  - cbn [keys_sorted sortObjectDeep]. rewrite forallb_forall. intros Hk. f_equal.
    etransitivity; [|apply map_id]. apply map_ext_in. intros x Hx.
    rewrite Forall_forall in IH. apply IH; [exact Hx|now apply Hk].
  - cbn [keys_sorted]. rewrite andb_true_iff, forallb_forall. intros [Hasc Hvals].
    pose proof (ascending_distinct _ Hasc) as Hnd.
    rewrite (sortObjectDeep_object _ Hnd). f_equal.
    assert (Hkeys : JS.sort_default (Object_keys props) = map fst props).
    { apply sort_fixed. now apply ascending_strongly_sorted. }
    rewrite Hkeys, map_map. etransitivity; [|apply map_id]. apply map_ext_in.
    intros [k v] Hin. cbn [fst]. rewrite (sorted_lookup _ _ _ Hnd Hin).
    rewrite Forall_forall in IH. f_equal. apply (IH (k, v) Hin), (Hvals (k, v) Hin).
Qed.

(** X12: sorting a manifest's value twice gives what sorting it once gives,
    and a value in which every object already lists its keys in ascending
    order is returned as it is. *)
Theorem sortObjectDeep_is_idempotent :
  forall (v : value),
    plain v = true ->
    sortObjectDeep (sortObjectDeep v) = sortObjectDeep v
    /\ (keys_sorted v = true -> sortObjectDeep v = v).
Proof.
  intros v Hplain. split; [|apply sortObjectDeep_fixed].
  apply sortObjectDeep_fixed. now apply sortObjectDeep_keys_sorted.
Qed.

Lemma sortObjectDeep_is_idempotent_witness :
  plain Demo.written = true
  /\ sortObjectDeep (sortObjectDeep Demo.written) = sortObjectDeep Demo.written.
Proof.
  split; [reflexivity|].
  exact (proj1 (sortObjectDeep_is_idempotent Demo.written eq_refl)).
Defined.

Lemma new_Set_fixed_aux (l acc : list string) :
  NoDup (acc ++ l) -> fold_left JS.set_add l acc = acc ++ l.
Proof.
  revert acc. induction l as [|x l IH]; intros acc Hnd; simpl.
  - now rewrite app_nil_r.
  - assert (Hx : JS.set_has acc x = false).
    { destruct (JS.set_has acc x) eqn:Hh; [|reflexivity].
      apply set_has_In in Hh. apply NoDup_remove_2 in Hnd.
      elim Hnd. apply in_or_app. now left. }
    unfold JS.set_add at 2. rewrite Hx.
    rewrite IH; rewrite <- app_assoc; [reflexivity|exact Hnd].
Qed.

Lemma new_Set_fixed (l : list string) : NoDup l -> JS.new_Set l = l.
Proof. intros H. apply (new_Set_fixed_aux l []). exact H. Qed.

(** X13: the final list holds each result exactly once, with its URLs
    deduplicated and sorted by code units: it is a permutation of the results
    so rewritten.  A rewritten result has the identifier of the result and
    the same URLs, each once.  Applying the final sort to its own output
    changes nothing. *)
Theorem sortedOffers_keeps_results_and_is_idempotent :
  forall (E : Env) (offerResults : list Entry),
    let rewritten :=
      fun o => mkEntry (offerId o) (JS.sort_default (JS.Array_from_Set (urls o))) in
    (forall a b, localeCompare E a b <= 0 \/ localeCompare E b a <= 0) ->
    (forall a b c, localeCompare E a b <= 0 -> localeCompare E b c <= 0 ->
                   localeCompare E a c <= 0) ->
    Permutation (sortedOffers E offerResults) (map rewritten offerResults)
    /\ (forall o,
          offerId (rewritten o) = offerId o
          /\ NoDup (urls (rewritten o))
          /\ forall u, In u (urls (rewritten o)) <-> In u (urls o))
    /\ sortedOffers E (sortedOffers E offerResults) = sortedOffers E offerResults.
Proof.
  intros E offerResults rewritten Htotal Htrans.
  assert (Hp : Permutation (sortedOffers E offerResults) (map rewritten offerResults))
    by apply sort_perm.
  split; [exact Hp|split].
  - intros o. split; [reflexivity|]. cbn [rewritten urls]. split.
    + eapply Permutation_NoDup; [symmetry; apply sort_default_perm|apply new_Set_NoDup].
    + intros u. split; intros Hu.
      * apply new_Set_In. eapply Permutation_in; [apply sort_default_perm|exact Hu].
      * eapply Permutation_in; [symmetry; apply sort_default_perm|]. now apply new_Set_In.
  - assert (Hid : map rewritten (sortedOffers E offerResults) = sortedOffers E offerResults).
    { etransitivity; [|apply map_id]. apply map_ext_in.
      intros o Ho. pose proof (Permutation_in _ Hp Ho) as Ho'.
      apply in_map_iff in Ho'. destruct Ho' as (o0 & <- & _).
      unfold rewritten at 1. cbn [offerId urls]. unfold rewritten. f_equal.
      unfold JS.Array_from_Set at 1. rewrite new_Set_fixed.
      - apply sort_fixed, sort_default_sorted.
      - eapply Permutation_NoDup; [symmetry; apply sort_default_perm|apply new_Set_NoDup]. }
    unfold sortedOffers at 1. fold rewritten. rewrite Hid.
    apply sort_fixed. apply sort_sorted.
    + intros x y. unfold offer_le. rewrite !Z.leb_le. apply Htotal.
    + intros x y z. unfold offer_le. rewrite !Z.leb_le. apply Htrans.
Qed.

Lemma sortedOffers_keeps_results_and_is_idempotent_witness :
  sortedOffers Demo.healthy
    [mkEntry "b" ["u7"; "u2"; "u7"]; mkEntry "a" ["u9"]]
  = [mkEntry "a" ["u9"]; mkEntry "b" ["u2"; "u7"]]
  /\ Permutation
       (sortedOffers Demo.healthy [mkEntry "b" ["u7"; "u2"; "u7"]; mkEntry "a" ["u9"]])
       [mkEntry "b" ["u2"; "u7"]; mkEntry "a" ["u9"]].
Proof.
  split; [reflexivity|].
  exact (proj1 (sortedOffers_keeps_results_and_is_idempotent Demo.healthy
                  [mkEntry "b" ["u7"; "u2"; "u7"]; mkEntry "a" ["u9"]]
                  compare_code_units_total compare_code_units_trans)).
Defined.

(** ** Conditional requests (lines 134-149) *)

Lemma request_headers_validators (prevMeta : ManifestRecord) :
  request_headers prevMeta (JS.truthy (etag prevMeta) || JS.truthy (lastModified prevMeta))
  = mkHeaders (if JS.truthy (etag prevMeta) then etag prevMeta else None)
              (if JS.truthy (lastModified prevMeta) then lastModified prevMeta else None).
Proof.
  unfold request_headers.
  destruct (JS.truthy (etag prevMeta)), (JS.truthy (lastModified prevMeta)); reflexivity.
Qed.

(** The first request of a call and the requests after it. *)
Lemma first_request_headers :
  forall (E : Env) (cfg : Config) (previousManifest : Manifest) (url : string)
         (st : State) (resolved : list string),
    manifest_key (nextManifest st) url = None ->
    let prior :=
      match manifest_get (nextManifest st) url with
      | Some r => r
      | None =>
          match manifest_get previousManifest url with
          | Some r => r
          | None => empty_record
          end
      end in
    exists later,
      trace (fst (process_url E cfg previousManifest (st, resolved) url))
      = later
        ++ EvFetch url
             (mkHeaders (if JS.truthy (etag prior) then etag prior else None)
                        (if JS.truthy (lastModified prior) then lastModified prior else None))
        :: trace st
      /\ Forall unconditional later.
Proof.
  intros E cfg previousManifest url st resolved Hkey prior.
  change prior with (prevMeta_of previousManifest st url).
  rewrite <- request_headers_validators.
  rewrite (process_url_unresolved _ _ _ _ _ _ Hkey).
  destruct (fetch_and_store_trace E cfg previousManifest url resolved st
              (first_attempt cfg previousManifest url st) (reaches_here _ _ _ _ _ _))
    as (warning & Hw & Huw).
  rewrite Hw. unfold run, first_attempt.
  cbn [remaining loop_conditional loop_lastError loop_state].
  pose proof (max_attempts_pos cfg) as Hpos.
  destruct (max_attempts cfg) as [|r] eqn:Hmax; [lia|].
  destruct (attempt_loop_first_request E cfg url (prevMeta_of previousManifest st url) r
              (JS.truthy (etag (prevMeta_of previousManifest st url))
               || JS.truthy (lastModified (prevMeta_of previousManifest st url)))
              None resolved st) as (later & Hlater & Hu).
  exists (warning ++ later). rewrite Hlater, <- app_assoc. split; [reflexivity|].
  apply Forall_app. split; assumption.
Qed.

(** X14: for a URL without a stored key in the next manifest, the first
    request carries exactly the validators of the prior record (the record of
    the next manifest if there is one, else that of the previous manifest):
    If-None-Match when it has an etag, If-Modified-Since when it has a
    lastModified.  Every later request for the URL is unconditional. *)
Theorem only_the_first_request_is_conditional :
  forall (E : Env) (cfg : Config) (previousManifest : Manifest) (url : string)
         (st : State) (resolved : list string),
    manifest_key (nextManifest st) url = None ->
    let prior :=
      match manifest_get (nextManifest st) url with
      | Some r => r
      | None =>
          match manifest_get previousManifest url with
          | Some r => r
          | None => empty_record
          end
      end in
    exists later,
      trace (fst (process_url E cfg previousManifest (st, resolved) url))
      = later
        ++ EvFetch url
             (mkHeaders (if JS.truthy (etag prior) then etag prior else None)
                        (if JS.truthy (lastModified prior) then lastModified prior else None))
        :: trace st
      /\ Forall unconditional later.
Proof. exact first_request_headers. Qed.

Lemma only_the_first_request_is_conditional_witness :
  manifest_key (nextManifest Demo.start) Demo.src = None
  /\ exists later,
       trace (fst (process_url Demo.failing Demo.defaults [(Demo.src, Demo.stored)]
                     (Demo.start, []) Demo.src))
       = later ++ EvFetch Demo.src (mkHeaders (Some "v1") None) :: trace Demo.start
       /\ Forall unconditional later.
Proof.
  split; [reflexivity|].
  exact (only_the_first_request_is_conditional Demo.failing Demo.defaults
           [(Demo.src, Demo.stored)] Demo.src Demo.start [] eq_refl).
Defined.

(** ** The public base (line 227) *)

Lemma string_of_list_ascii_app (l1 l2 : list ascii) :
  string_of_list_ascii (l1 ++ l2)
  = (string_of_list_ascii l1 ++ string_of_list_ascii l2)%string.
Proof. induction l1 as [|c l1 IH]; simpl; [reflexivity|]. now rewrite IH. Qed.

Lemma list_ascii_of_string_app (s1 s2 : string) :
  list_ascii_of_string (s1 ++ s2) = list_ascii_of_string s1 ++ list_ascii_of_string s2.
Proof. induction s1 as [|c s1 IH]; simpl; [reflexivity|]. now rewrite IH. Qed.

Lemma reverse_app (s1 s2 : string) :
  JS.reverse (s1 ++ s2) = (JS.reverse s2 ++ JS.reverse s1)%string.
Proof.
  unfold JS.reverse. now rewrite list_ascii_of_string_app, rev_app_distr, string_of_list_ascii_app.
Qed.

Lemma reverse_involutive (s : string) : JS.reverse (JS.reverse s) = s.
Proof.
  unfold JS.reverse.
  now rewrite list_ascii_of_string_of_list_ascii, rev_involutive, string_of_list_ascii_of_string.
Qed.

Lemma slashes_snoc (n : nat) : (slashes n ++ "/")%string = String "/" (slashes n).
Proof. induction n as [|n IH]; simpl; [reflexivity|]. now rewrite IH. Qed.

Lemma reverse_slashes (n : nat) : JS.reverse (slashes n) = slashes n.
Proof.
  induction n as [|n IH]; [reflexivity|].
  change (slashes (S n)) with ("/" ++ slashes n)%string at 1.
  rewrite reverse_app, IH. apply slashes_snoc.
Qed.

Lemma strip_leading_slashes_spec (s : string) :
  exists n,
    s = (slashes n ++ JS.strip_leading_slashes s)%string
    /\ forall rest, JS.strip_leading_slashes s <> String "/" rest.
Proof.
  induction s as [|c s IH].
  - exists O. split; [reflexivity|]. intros rest; discriminate.
  - destruct (Ascii.eqb_spec c "/") as [->|Hc].
    + destruct IH as (n & Hs & Hno). exists (S n).
      change (JS.strip_leading_slashes (String "/" s)) with (JS.strip_leading_slashes s).
      split; [simpl; now rewrite <- Hs|exact Hno].
    + exists O.
      assert (Hkeep : JS.strip_leading_slashes (String c s) = String c s).
      { destruct c as [[] [] [] [] [] [] [] []]; try reflexivity. now elim Hc. }
      rewrite Hkeep. split; [reflexivity|]. intros rest H. inversion H. contradiction.
Qed.

(** X15: the public base under which resolved URLs are built is the
    configured R2_PUBLIC_BASE without its trailing slashes: putting a number
    of slashes back after it gives the configured value, and it does not end
    with a slash itself. *)
Theorem publicBase_has_no_trailing_slash :
  forall (cfg : Config),
    (exists n, R2_PUBLIC_BASE cfg = (publicBase cfg ++ slashes n)%string)
    /\ forall s, publicBase cfg <> (s ++ "/")%string.
Proof.
  intros cfg. unfold publicBase, JS.strip_trailing_slashes.
  destruct (strip_leading_slashes_spec (JS.reverse (R2_PUBLIC_BASE cfg))) as (n & Hs & Hno).
  split.
  - exists n. rewrite <- (reverse_involutive (R2_PUBLIC_BASE cfg)) at 1.
    rewrite Hs at 1. now rewrite reverse_app, reverse_slashes.
  - intros s H. apply (f_equal JS.reverse) in H.
    rewrite reverse_involutive, reverse_app in H. apply (Hno (JS.reverse s)). exact H.
Qed.

(** ** The start of [main] (lines 222-244) *)

Lemma assertEnv_truthy (name : string) (value : option string) :
  JS.truthy value = true -> exists v, value = Some v /\ Main.assertEnv name value = Ok v.
Proof.
  unfold Main.assertEnv, JS.truthy. destruct value as [v|]; [|discriminate].
  intros H. rewrite H. now exists v.
Qed.

Lemma assertEnv_falsy (name : string) (value : option string) :
  JS.truthy value = false ->
  Main.assertEnv name value = Throw ("Missing required environment variable: " ++ name).
Proof.
  unfold Main.assertEnv, JS.truthy. destruct value as [v|]; [|reflexivity].
  intros H. now rewrite H.
Qed.

(** X16: when a required variable is missing or empty, [main] fails with
    the message that names the first such variable in the order
    CF_ACCOUNT_ID, CF_R2_ACCESS_KEY_ID, CF_R2_SECRET_ACCESS_KEY, R2_BUCKET,
    R2_PUBLIC_BASE, whatever is on disk, and before reading, writing or
    logging anything. *)
Theorem main_reports_the_first_missing_variable :
  forall (env : Main.ProcessEnv) (before after : list (string * option string))
         (name : string) (value : option string),
    Main.required env = before ++ (name, value) :: after ->
    Forall (fun nv => JS.truthy (snd nv) = true) before ->
    JS.truthy value = false ->
    forall d : Main.Disk,
      Main.main_start env d
      = Main.Throws [] ("Missing required environment variable: " ++ name).
Proof.
  intros env before after name value Hreq Hbefore Hvalue d.
  unfold Main.required in Hreq. unfold Main.main_start.
  do 5 (destruct before as [|[? ?] before];
        [ cbn [app] in Hreq; inversion Hreq; subst; clear Hreq;
          repeat match goal with
                 | H : Forall _ (_ :: _) |- _ => inversion H; subst; clear H
                 end;
          cbn [snd] in *;
          repeat match goal with
                 | H : JS.truthy ?v = true |- context [Main.assertEnv ?n ?v] =>
                     destruct (assertEnv_truthy n v H) as (? & ? & ->)
                 end;
          now rewrite (assertEnv_falsy _ _ Hvalue)
        | ]).
  cbn [app] in Hreq. destruct before; discriminate.
Qed.

Lemma main_reports_the_first_missing_variable_witness :
  Main.main_start Samples.no_bucket Samples.nothing_to_do
  = Main.Throws [] "Missing required environment variable: CF_R2_ACCESS_KEY_ID".
Proof.
  apply (main_reports_the_first_missing_variable Samples.no_bucket
           [("CF_ACCOUNT_ID", Some "account")]
           [("CF_R2_SECRET_ACCESS_KEY", Some "secret"); ("R2_BUCKET", Some "");
            ("R2_PUBLIC_BASE", None)]
           "CF_R2_ACCESS_KEY_ID" None).
  - reflexivity.
  - repeat constructor.
  - reflexivity.
Defined.

Lemma main_start_configured (env : Main.ProcessEnv) (d : Main.Disk) :
  Forall (fun nv => JS.truthy (snd nv) = true) (Main.required env) ->
  exists base,
    Main.R2_PUBLIC_BASE env = Some base
    /\ Main.main_start env d =
       if negb (Main.existsSync d Main.IMAGES_LIST_PATH)
       then Main.Throws [] ("images list not found: "
                            ++ Main.path_resolve d Main.IMAGES_LIST_PATH)
       else
         match Main.readJsonSafe d Main.IMAGES_LIST_PATH (VArray []) with
         | Throw message => Main.Throws [] message
         | Ok (VArray (first :: others)) =>
             Main.perform d (Main.Mkdir Main.manifest_directory) [] (fun attempted =>
             match Main.readJsonSafe d LOCAL_IMAGE_MANIFEST_PATH (VObject []) with
             | Throw message => Main.Throws attempted message
             | Ok previousManifest =>
                 Main.Proceeds attempted (JS.strip_trailing_slashes base) (first :: others)
                   previousManifest
             end)
         | Ok _ =>
             Main.perform d (Main.Mkdir Main.manifest_directory)
               [Main.ConsoleLog "No images to process."] (fun attempted =>
             Main.perform d (Main.WriteFile LOCAL_R2_MANIFEST_PATH "[]") attempted
               (fun attempted =>
             Main.perform d (Main.WriteFile LOCAL_IMAGE_MANIFEST_PATH "{}") attempted
               (fun attempted => Main.Returns attempted)))
         end.
Proof.
  intros H. unfold Main.required in H.
  repeat match goal with
         | H : Forall _ (_ :: _) |- _ => inversion H; subst; clear H
         end.
  cbn [snd] in *. unfold Main.main_start.
  repeat match goal with
         | H : JS.truthy ?v = true |- context [Main.assertEnv ?n ?v] =>
             destruct (assertEnv_truthy n v H) as (? & ? & ->)
         end.
  match goal with Hb : Main.R2_PUBLIC_BASE env = Some ?b |- _ => exists b end.
  split; [assumption|reflexivity].
Qed.

(** X17: with the five variables set, [main] needs the images list.  If the
    file does not exist, [main] throws "images list not found: " followed by
    the absolute path of the list, and has written and logged nothing.  If
    the file exists and its content is an empty list, or is not an array,
    [main] logs a message, creates the directory and writes an empty result
    list and an empty manifest, then returns: the manifest of an earlier run
    is not read, it is replaced by the empty one, and no image is
    processed. *)
Theorem empty_images_list_resets_the_manifest :
  forall (env : Main.ProcessEnv) (d : Main.Disk),
    Forall (fun nv => JS.truthy (snd nv) = true) (Main.required env) ->
    (Main.existsSync d "images.json" = false ->
     Main.main_start env d
     = Main.Throws [] ("images list not found: " ++ Main.path_resolve d "images.json"))
    /\ (forall images : value,
          Main.existsSync d "images.json" = true ->
          Main.readJsonSafe d "images.json" (VArray []) = Ok images ->
          match images with VArray (_ :: _) => False | _ => True end ->
          (forall n a, Main.fs_error d n a = None) ->
          Main.main_start env d
          = Main.Returns [ Main.ConsoleLog "No images to process.";
                           Main.Mkdir "public";
                           Main.WriteFile "public/manifest-r2.json" "[]";
                           Main.WriteFile "public/images-manifest.json" "{}" ]).
Proof.
  intros env d Henv.
  destruct (main_start_configured env d Henv) as (base & _ & ->).
  change Main.IMAGES_LIST_PATH with "images.json". split.
  - intros ->. reflexivity.
  - intros images Hexists Hread Hempty Hfs.
    rewrite Hexists, Hread. cbn [negb]. unfold Main.perform. rewrite !Hfs.
    destruct images as [| | | | |[|first others]|]; try reflexivity. contradiction.
Qed.

Lemma empty_images_list_resets_the_manifest_witness :
  Main.main_start Samples.complete Samples.no_list
  = Main.Throws [] "images list not found: /work/images.json"
  /\ Main.main_start Samples.complete Samples.nothing_to_do
     = Main.Returns [ Main.ConsoleLog "No images to process.";
                      Main.Mkdir "public";
                      Main.WriteFile "public/manifest-r2.json" "[]";
                      Main.WriteFile "public/images-manifest.json" "{}" ].
Proof.
  split.
  - exact (proj1 (empty_images_list_resets_the_manifest Samples.complete Samples.no_list
                    ltac:(repeat constructor)) eq_refl).
  - exact (proj2 (empty_images_list_resets_the_manifest Samples.complete
                    Samples.nothing_to_do ltac:(repeat constructor))
             (VArray []) eq_refl eq_refl I (fun _ _ => eq_refl)).
Defined.

(** X18: with the five variables set, a non-empty images list and the
    directory created, a missing manifest file counts as an empty previous
    manifest and the run goes on, while a manifest file that does not parse
    stops [main] with the parser's error before any image is processed. *)
Theorem missing_manifest_is_empty_and_corrupt_manifest_is_fatal :
  forall (env : Main.ProcessEnv) (d : Main.Disk) (first : value) (others : list value),
    Forall (fun nv => JS.truthy (snd nv) = true) (Main.required env) ->
    Main.existsSync d Main.IMAGES_LIST_PATH = true ->
    Main.readJsonSafe d Main.IMAGES_LIST_PATH (VArray []) = Ok (VArray (first :: others)) ->
    Main.fs_error d 0 (Main.Mkdir "public") = None ->
    match Main.readFile d "public/images-manifest.json" with
    | Main.ReadError code message =>
        if match code with Some c => String.eqb c "ENOENT" | None => false end
        then exists base,
               Main.main_start env d
               = Main.Proceeds [Main.Mkdir "public"] base (first :: others) (VObject [])
        else Main.main_start env d = Main.Throws [Main.Mkdir "public"] message
    | Main.ReadOk data =>
        match Main.JSON_parse d data with
        | Ok previousManifest =>
            exists base,
              Main.main_start env d
              = Main.Proceeds [Main.Mkdir "public"] base (first :: others) previousManifest
        | Throw message =>
            Main.main_start env d = Main.Throws [Main.Mkdir "public"] message
        end
    end.
Proof.
  intros env d first others Henv Hexists Hread Hmkdir.
  destruct (main_start_configured env d Henv) as (base & _ & ->).
  rewrite Hexists, Hread. cbn [negb]. unfold Main.perform.
  change Main.manifest_directory with "public". cbn [List.length]. rewrite Hmkdir.
  unfold Main.readJsonSafe. change LOCAL_IMAGE_MANIFEST_PATH with "public/images-manifest.json".
  destruct (Main.readFile d "public/images-manifest.json") as [data|code message].
  - destruct (Main.JSON_parse d data); [eexists|]; reflexivity.
  - destruct code as [c|]; [|reflexivity].
    destruct (String.eqb c "ENOENT"); [eexists|]; reflexivity.
Qed.

Lemma missing_manifest_is_empty_and_corrupt_manifest_is_fatal_witness :
  Main.readFile Samples.first_run "public/images-manifest.json"
  = Main.ReadError (Some "ENOENT") "no such file or directory"
  /\ exists base,
       Main.main_start Samples.complete Samples.first_run
       = Main.Proceeds [Main.Mkdir "public"] base [VNumber 1] (VObject []).
Proof.
  split; [reflexivity|].
  exact (missing_manifest_is_empty_and_corrupt_manifest_is_fatal
           Samples.complete Samples.first_run (VNumber 1) []
           ltac:(repeat constructor) eq_refl eq_refl eq_refl).
Defined.

(** ** Escaping (lines 356-360) *)

Lemma escape_cases (c : ascii) :
  (c = "<"%char /\ Convert.escape c = "&lt;")
  \/ (c = ">"%char /\ Convert.escape c = "&gt;")
  \/ (c = "&"%char /\ Convert.escape c = "&amp;")
  \/ (c = "'"%char /\ Convert.escape c = "&apos;")
  \/ (c = Convert.quote /\ Convert.escape c = "&quot;")
  \/ (c <> "<"%char /\ c <> ">"%char /\ c <> "&"%char /\ c <> "'"%char
      /\ c <> Convert.quote /\ Convert.escape c = String c EmptyString).
Proof.
  unfold Convert.escape.
  destruct (Ascii.eqb_spec c "<") as [->|H1]; [now left|].
  destruct (Ascii.eqb_spec c ">") as [->|H2]; [right; now left|].
  destruct (Ascii.eqb_spec c "&") as [->|H3]; [right; right; now left|].
  destruct (Ascii.eqb_spec c "'") as [->|H4]; [right; right; right; now left|].
  destruct (Ascii.eqb_spec c Convert.quote) as [->|H5];
    [right; right; right; right; now left|].
  repeat right. repeat split; assumption.
Qed.

Lemma escapeXml_cons (c : ascii) (rest : string) :
  Convert.escapeXml (String c rest) = (Convert.escape c ++ Convert.escapeXml rest)%string.
Proof. reflexivity. Qed.

Lemma escapeXml_injective (s1 : string) :
  forall s2, Convert.escapeXml s1 = Convert.escapeXml s2 -> s1 = s2.
Proof.
  induction s1 as [|c1 s1 IH]; intros [|c2 s2].
  - reflexivity.
  - rewrite escapeXml_cons.
    destruct (escape_cases c2) as [[_ ->]|[[_ ->]|[[_ ->]|[[_ ->]|[[_ ->]|(_ & _ & _ & _ & _ & ->)]]]]];
      discriminate.
  - rewrite escapeXml_cons.
    destruct (escape_cases c1) as [[_ ->]|[[_ ->]|[[_ ->]|[[_ ->]|[[_ ->]|(_ & _ & _ & _ & _ & ->)]]]]];
      discriminate.
  - rewrite !escapeXml_cons.
    destruct (escape_cases c1)
      as [[-> ->]|[[-> ->]|[[-> ->]|[[-> ->]|[[-> ->]|(A1 & A2 & A3 & A4 & A5 & ->)]]]]];
    destruct (escape_cases c2)
      as [[-> ->]|[[-> ->]|[[-> ->]|[[-> ->]|[[-> ->]|(B1 & B2 & B3 & B4 & B5 & ->)]]]]];
    cbn [append]; intros H; inversion H; subst;
      try congruence; try (f_equal; now apply IH).
Qed.

Lemma escapeXml_chars (s : string) (c : ascii) :
  In c (list_ascii_of_string (Convert.escapeXml s)) ->
  c <> "<"%char /\ c <> ">"%char /\ c <> "'"%char /\ c <> Convert.quote.
Proof.
  induction s as [|c0 s IH]; [intros []|].
  rewrite escapeXml_cons, list_ascii_of_string_app, in_app_iff.
  intros [H|H]; [|now apply IH].
  destruct (escape_cases c0)
    as [[_ He]|[[_ He]|[[_ He]|[[_ He]|[[_ He]|(A1 & A2 & A3 & A4 & A5 & He)]]]]];
    rewrite He in H; cbn in H;
    repeat (destruct H as [<-|H]; [repeat split; (discriminate || assumption)|]);
    contradiction.
Qed.

(** X19: the escaped text contains no less-than sign, greater-than sign,
    apostrophe or double quote. *)
Theorem escapeXml_output_has_no_markup_character :
  forall (s : string) (c : ascii),
    In c (list_ascii_of_string (Convert.escapeXml s)) ->
    c <> "<"%char /\ c <> ">"%char /\ c <> "'"%char /\ c <> Convert.quote.
Proof. exact escapeXml_chars. Qed.

Lemma escapeXml_output_has_no_markup_character_witness :
  Convert.escapeXml "a<b" = "a&lt;b"
  /\ "&"%char <> "<"%char /\ "&"%char <> ">"%char /\ "&"%char <> "'"%char
  /\ "&"%char <> Convert.quote.
Proof.
  split; [reflexivity|].
  apply (escapeXml_output_has_no_markup_character "a<b" "&"). cbn. tauto.
Defined.

(** X20: escaping loses nothing: two texts with the same escaped form are the
    same text. *)
Theorem escapeXml_loses_nothing :
  forall (s1 s2 : string), Convert.escapeXml s1 = Convert.escapeXml s2 -> s1 = s2.
Proof. exact escapeXml_injective. Qed.

Lemma escapeXml_loses_nothing_witness :
  Convert.escapeXml "R&D <b>" = "R&amp;D &lt;b&gt;" /\ "R&D <b>" = "R&D <b>".
Proof.
  split; [reflexivity|].
  exact (escapeXml_loses_nothing "R&D <b>" "R&D <b>" eq_refl).
Defined.

(** ** The attempt budget and the end of a call (lines 19, 139-208) *)

(** X21: the loop compares its integer attempt counter with
    MAX_FETCH_ATTEMPTS, which need not be an integer; both tests, the one
    that admits another attempt and the one that ends the retries, behave as
    if the budget were rounded up to the next integer N.  N is at least 1 and
    is the smallest integer that is not below the budget, and the budget is
    the configured R2_FETCH_ATTEMPTS when that is at least 1, it is 1 when
    the configured value is below 1 and is not 0, and it is the default 3
    when the configured value is 0 or is not a number. *)
Theorem attempt_tests_use_the_budget_rounded_up :
  forall (cfg : Config) (attempt : nat),
    may_attempt cfg attempt = Nat.ltb attempt (max_attempts cfg)
    /\ budget_spent cfg attempt = Nat.leb (max_attempts cfg) attempt
    /\ (1 <= max_attempts cfg)%nat
    /\ (MAX_FETCH_ATTEMPTS cfg <= inject_Z (Z.of_nat (max_attempts cfg)))%Q
    /\ (inject_Z (Z.of_nat (max_attempts cfg)) - 1 < MAX_FETCH_ATTEMPTS cfg)%Q
    /\ (MAX_FETCH_ATTEMPTS cfg
        == match R2_FETCH_ATTEMPTS cfg with
           | Some n => if Qeq_bool n 0 then 3 else if Qle_bool 1 n then n else 1
           | None => 3
           end)%Q.
Proof.
  intros cfg attempt.
  pose proof (max_attempts_ceiling cfg) as Hc.
  assert (Hspent : budget_spent cfg attempt = Nat.leb (max_attempts cfg) attempt).
  { unfold budget_spent.
    destruct (Nat.leb_spec (max_attempts cfg) attempt) as [H|H].
    - apply Qle_bool_iff, below_ceiling. lia.
    - destruct (Qle_bool _ _) eqn:Hb; [|reflexivity].
      apply Qle_bool_iff, below_ceiling in Hb. lia. }
  split; [|split; [exact Hspent|split; [apply max_attempts_pos|split; [|split]]]].
  - unfold may_attempt. fold (budget_spent cfg attempt). rewrite Hspent.
    destruct (Nat.leb_spec (max_attempts cfg) attempt) as [H|H];
      destruct (Nat.ltb_spec attempt (max_attempts cfg)); try reflexivity; lia.
  - rewrite Hc. apply Qle_ceiling.
  - rewrite Hc. pose proof (Qceiling_lt (MAX_FETCH_ATTEMPTS cfg)) as H.
    unfold Z.sub in H. rewrite inject_Z_plus, inject_Z_opp in H. exact H.
  - unfold MAX_FETCH_ATTEMPTS, JS.number_or.
    destruct (R2_FETCH_ATTEMPTS cfg) as [n|]; [|reflexivity].
    destruct (Qeq_bool n 0); [reflexivity|].
    destruct (Qle_bool 1 n) eqn:Hn.
    + apply Q.max_r. now apply Qle_bool_iff.
    + apply Q.max_l. destruct (Qlt_le_dec n 1) as [H|H]; [now apply Qlt_le_weak|].
      apply Qle_bool_iff in H. congruence.
Qed.

Lemma pipeline_not_pause (new : list Event) (e : Event) :
  Forall pipeline_event new ->
  (forall ms, e <> EvSleep ms) ->
  ~ ends_with_pause (new ++ [e]).
Proof.
  intros Hp He. destruct new as [|x new]; simpl.
  - destruct e; try tauto. now elim (He ms).
  - inversion Hp as [|x' l' Hx _]; subst. destruct x; simpl in Hx; tauto.
Qed.

Lemma app_not_pause (l1 l2 : list Event) :
  l1 <> [] -> ~ ends_with_pause l1 -> ~ ends_with_pause (l1 ++ l2).
Proof. destruct l1 as [|x l1]; [congruence|]. intros _ H. exact H. Qed.

(** The loop, when it makes an attempt, does not end on a pause. *)
Lemma attempt_loop_no_final_pause (E : Env) (cfg : Config) (url : string)
    (prevMeta : ManifestRecord) (resolved : list string) (n : nat) :
  forall (c : bool) (e : option string) (st : State),
  exists new,
    trace (fst (fst (attempt_loop E cfg url prevMeta (S n) c e resolved st))) = new ++ trace st
    /\ new <> [] /\ ~ ends_with_pause new.
Proof.
  induction n as [|r IH]; intros c e st; rewrite attempt_loop_S.
  - unfold iteration. rewrite last_attempt_number.
    destruct (try_block E cfg url prevMeta c resolved st) as [s1 res] eqn:Ht.
    destruct (try_block_trace _ _ _ _ _ _ _ _ _ Ht) as (new & Hnew & Hp).
    exists (new ++ [EvFetch url (request_headers prevMeta c)]).
    assert (Hshape : trace s1 = (new ++ [EvFetch url (request_headers prevMeta c)]) ++ trace st)
      by (rewrite Hnew, <- app_assoc; reflexivity).
    assert (Hne : new ++ [EvFetch url (request_headers prevMeta c)] <> [])
      by (destruct new; discriminate).
    assert (Hnp : ~ ends_with_pause (new ++ [EvFetch url (request_headers prevMeta c)]))
      by (apply pipeline_not_pause; [exact Hp|discriminate]).
    destruct res as [[res'|]|message]; simpl; repeat split; assumption.
  - destruct (iteration E cfg url prevMeta (max_attempts cfg - S r) c resolved st)
      as [s1 r1 e1|s1 c1 e1] eqn:Hi.
    + unfold iteration in Hi.
      destruct (try_block E cfg url prevMeta c resolved st) as [s2 res] eqn:Ht.
      destruct (try_block_trace _ _ _ _ _ _ _ _ _ Ht) as (new & Hnew & Hp).
      assert (Hs : s1 = s2).
      { destruct res as [[res'|]|message]; try discriminate.
        - now inversion Hi.
        - destruct (Nat.leb _ _); [now inversion Hi|discriminate]. }
      subst s2. exists (new ++ [EvFetch url (request_headers prevMeta c)]). simpl.
      split; [rewrite Hnew, <- app_assoc; reflexivity|].
      split; [destruct new; discriminate|].
      apply pipeline_not_pause; [exact Hp|discriminate].
    + destruct (iteration_trace E cfg url prevMeta (max_attempts cfg - S r) c resolved st)
        as (first & Hfirst & _). rewrite Hi in Hfirst.
      destruct (IH c1 e1 s1) as (later & Hlater & Hne & Hnp).
      exists (later ++ first ++ [EvFetch url (request_headers prevMeta c)]).
      rewrite Hlater, Hfirst, <- !app_assoc. split; [reflexivity|].
      split; [destruct later; [congruence|discriminate]|].
      now apply app_not_pause.
Qed.

(** X22: the script never pauses without making another attempt: the latest
    action of the processing of a URL is never a pause. *)
Theorem processing_never_ends_on_a_pause :
  forall (E : Env) (cfg : Config) (previousManifest : Manifest) (url : string)
         (st : State) (resolved : list string),
  exists new,
    trace (fst (process_url E cfg previousManifest (st, resolved) url)) = new ++ trace st
    /\ match new with
       | EvSleep _ :: _ => False
       | _ => True
       end.
Proof.
  intros E cfg previousManifest url st resolved.
  unfold process_url, resolved_key.
  destruct (manifest_key (nextManifest st) url) as [key|].
  - exists []. split; [reflexivity|exact I].
  - unfold fetch_and_store.
    pose proof (max_attempts_pos cfg) as Hpos.
    destruct (max_attempts cfg) as [|n]; [lia|].
    destruct (attempt_loop_no_final_pause E cfg url (prevMeta_of previousManifest st url)
                resolved n
                (JS.truthy (etag (prevMeta_of previousManifest st url))
                 || JS.truthy (lastModified (prevMeta_of previousManifest st url)))
                None st) as (new & Hnew & Hne & Hnp).
    destruct (attempt_loop E cfg url _ (S n) _ None resolved st)
      as [[st' resolved'] [message|]]; cbn [fst] in *.
    + exists (EvWarn ("Skip " ++ url ++ ": " ++ message) :: new).
      split; [rewrite emit_trace; cbn [incr_skipped trace]; now rewrite Hnew|exact I].
    + exists new. split; [exact Hnew|].
      destruct new as [|x new]; [exact I|]. destruct x; try exact I. apply Hnp. exact I.
Qed.

(** ** From one run to the next (lines 134-147, 166-200) *)

Lemma or_undefined_truthy (h : option string) :
  (if JS.truthy (JS.or_undefined h) then JS.or_undefined h else None) = JS.or_undefined h.
Proof. unfold JS.or_undefined. destruct (JS.truthy h) eqn:H; [now rewrite H|reflexivity]. Qed.

(** X23: the validators a fresh fetch records are the ones the next run
    sends: when a run has stored a fresh response for a URL and the next run
    takes that run's manifest as its previous manifest, the first request of
    the next run for the URL carries the response's ETag as If-None-Match and
    its Last-Modified as If-Modified-Since, each only if it was present and
    not empty. *)
Theorem recorded_validators_are_sent_by_the_next_run :
  forall (E : Env) (cfg : Config) (url : string) (resolved : list string)
         (response : Response) (st st' : State) (ctl : Control)
         (E2 : Env) (cfg2 : Config) (st2 : State) (resolved2 : list string),
    fresh_path E cfg url resolved response st = (st', Ok ctl) ->
    manifest_get (nextManifest st2) url = None ->
    exists later,
      trace (fst (process_url E2 cfg2 (nextManifest st') (st2, resolved2) url))
      = later
        ++ EvFetch url (mkHeaders (JS.or_undefined (header_etag response))
                                  (JS.or_undefined (header_last_modified response)))
        :: trace st2
      /\ Forall unconditional later.
Proof.
  intros E cfg url resolved response st st' ctl E2 cfg2 st2 resolved2 Hfresh Hnone.
  apply fresh_path_ok in Hfresh.
  destruct Hfresh as (source & p & s1 & new & _ & _ & Hm & _).
  assert (Hkey : manifest_key (nextManifest st2) url = None).
  { unfold manifest_key. now rewrite Hnone. }
  destruct (first_request_headers E2 cfg2 (nextManifest st') url st2 resolved2 Hkey)
    as (later & Hlater & Hu).
  exists later. split; [|exact Hu].
  rewrite Hlater, Hnone, Hm, manifest_get_set. cbn [etag lastModified].
  now rewrite !or_undefined_truthy.
Qed.

Lemma recorded_validators_are_sent_by_the_next_run_witness :
  exists later,
    trace (fst (process_url Demo.stale Demo.defaults
                  (nextManifest (fst (fresh_path Demo.healthy Demo.defaults Demo.src []
                                        (Demo.ok_response "image/png") Demo.start)))
                  (Demo.start, []) Demo.src))
    = later ++ EvFetch Demo.src (mkHeaders (Some "v2") None) :: trace Demo.start
    /\ Forall unconditional later.
Proof.
  exact (recorded_validators_are_sent_by_the_next_run
           Demo.healthy Demo.defaults Demo.src [] (Demo.ok_response "image/png") Demo.start
           (fst (fresh_path Demo.healthy Demo.defaults Demo.src []
                   (Demo.ok_response "image/png") Demo.start))
           (CtlBreak ["https://cdn.example/img/2.png"])
           Demo.stale Demo.defaults Demo.start [] eq_refl eq_refl).
Defined.
